(** * Lead enrichment and quality reconciliation: a shallow embedding

    The development follows [src/lib/nodes/SearchNode.js] (the version with
    the RocketReach contact upgrade, second half of the file),
    [src/lib/nodes/EnrichNode.js] and [src/lib/llm-enricher.js].

    Conventions of the embedding.
    - A JavaScript string is the list of its UTF-16 code units, so that
      [length] is [.length] and [take] is [.substring(0, n)].
    - A property that holds a string, [null] or [undefined] is a [field].
    - A JavaScript number is an exact rational, [NaN] (and a missing
      number, which [ToNumber] turns into [NaN]) is [None].
      The operations the code applies to scores ([Math.max], [Math.min],
      adding [0.1]) are monotone under floating-point rounding as they are
      on the rationals.
    - An object is a record of the properties the code reads or writes,
      each at the type the code and its prompts give it. An array of leads
      holds every lead object once, so a lead is identified by its index.
    - Asynchronous provider calls are sequenced exactly as the code awaits
      them; the pauses ([setTimeout]) and the console output have no effect
      on the data and are left out. *)

From Stdlib Require Import String Ascii List NArith ZArith QArith Qminmax Lia Bool.
From stdpp Require Import base list gmap.

Local Open Scope N_scope.
Local Open Scope nat_scope.
Local Open Scope list_scope.

(** ** JavaScript strings *)

Module JS.

Abbreviation jsstring := (list N).

(** An ASCII literal as a JavaScript string. *)
Fixpoint lit (s : String.string) : jsstring :=
  match s with
  | EmptyString => []
  | String c r => N_of_ascii c :: lit r
  end.
Arguments lit s%_string.

(** [s.startsWith(p)] *)
Fixpoint startsWith (s p : jsstring) : bool :=
  match p, s with
  | [], _ => true
  | _ :: _, [] => false
  | a :: p', b :: s' => N.eqb a b && startsWith s' p'
  end.

(** [s.includes(p)] *)
Fixpoint includes (s p : jsstring) : bool :=
  startsWith s p ||
  match s with
  | [] => false
  | _ :: s' => includes s' p
  end.

(** [a === b] on strings. *)
Definition str_eqb (a b : jsstring) : bool := bool_decide (a = b).

(** [parts.join(sep)] *)
Fixpoint join (sep : jsstring) (parts : list jsstring) : jsstring :=
  match parts with
  | [] => []
  | [p] => p
  | p :: rest => p ++ sep ++ join sep rest
  end.

(** [s.substring(0, n)] for [0 <= n]. *)
Definition substring0 (n : nat) (s : jsstring) : jsstring := take n s.

(** The remainder of [s] after the prefix [p], when [s] starts with [p]. *)
Fixpoint strip (p s : jsstring) : option jsstring :=
  match p, s with
  | [], _ => Some s
  | _ :: _, [] => None
  | a :: p', b :: s' => if N.eqb a b then strip p' s' else None
  end.

(** Decimal digits of a natural number, as [String(n)] prints them. *)
Fixpoint digits_fuel (fuel : nat) (n : N) (acc : jsstring) : jsstring :=
  match fuel with
  | O => acc
  | S fuel' =>
      let acc' := (48 + n mod 10)%N :: acc in
      if (n <? 10)%N then acc' else digits_fuel fuel' (n / 10)%N acc'
  end.
Definition digits (n : N) : jsstring := digits_fuel (S (N.to_nat (N.log2 n))) n [].

(** A property holding a string, [null] or [undefined]. *)
Inductive field :=
| JUndefined
| JNull
| JStr (s : jsstring).

#[global] Instance field_eq_dec : EqDecision field.
Proof. solve_decision. Defined.

(** [!!v]: the empty string, [null] and [undefined] are falsy. *)
Definition truthy (v : field) : bool :=
  match v with
  | JStr (_ :: _) => true
  | _ => false
  end.

(** [`${v}`]: the string a template literal prints for [v]. *)
Definition to_string (v : field) : jsstring :=
  match v with
  | JUndefined => lit "undefined"
  | JNull => lit "null"
  | JStr s => s
  end.

(** [a || b] on fields. *)
Definition or_else (a b : field) : field := if truthy a then a else b.

(** What a call yields: a value, or an exception with its message. *)
Inductive outcome (A : Type) :=
| Returned (a : A)
| Threw (message : jsstring).
Arguments Returned {A} a.
Arguments Threw {A} message.

(** A number: [None] is [NaN]. *)
Abbreviation jsnum := (option Q).

(** [!!x] on numbers: [0] and [NaN] are falsy. *)
Definition num_truthy (x : jsnum) : bool :=
  match x with
  | Some q => negb (Qeq_bool q 0)
  | None => false
  end.

(** [Math.max(a, b)] and [Math.min(a, b)]: [NaN] if either is [NaN]. *)
Definition Math_max (a b : jsnum) : jsnum :=
  match a, b with
  | Some x, Some y => Some (Qmax x y)
  | _, _ => None
  end.
Definition Math_min (a b : jsnum) : jsnum :=
  match a, b with
  | Some x, Some y => Some (Qmin x y)
  | _, _ => None
  end.
(** [a + b] on numbers. *)
Definition num_add (a b : jsnum) : jsnum :=
  match a, b with
  | Some x, Some y => Some (x + y)%Q
  | _, _ => None
  end.

End JS.
Import JS.

(** ** The data model *)

(** One entry of what [jinaSearch.search] returns: a parsed lead
    ([linkedin_url], [name], ...) or, for a RocketReach query, a raw result
    ([url], [title], ...). *)
Record search_hit := mkHit {
  hit_url : field;
  hit_linkedin_url : field;
  hit_name : field;
  hit_title : field;
  hit_company : field;
  hit_raw_data : field;
  hit_notes : field
}.

(** A search result in the format of the personality analysis. *)
Record search_result := mkResult {
  sr_url : field;
  sr_title : field;
  sr_description : field
}.

(** An entry of [personality_sources]. *)
Record source := mkSource {
  src_url : field;
  src_title : field;
  scraped_successfully : bool;
  src_type : jsstring;
  src_timestamp : jsstring
}.

(** The object the model is asked for, after [JSON.parse]: an absent key is
    [None] (for a list) or [JUndefined]. *)
Record model_analysis := mkModelAnalysis {
  model_current_projects : option (list jsstring);
  model_recent_developments : option (list jsstring);
  model_strategic_priorities : option (list jsstring);
  model_industry_involvement : option (list jsstring);
  model_company_context : option (list jsstring);
  model_competitive_intelligence : option (list jsstring);
  model_outreach_angles : option (list jsstring);
  model_recent_quotes_or_statements : option (list jsstring);
  model_summary : field;
  model_intelligence_quality : field;
  model_confidence_level : field
}.

(** [personality_analysis]: every key any path of the code writes; an absent
    key is [None] or [JUndefined]. *)
Record analysis := mkAnalysis {
  current_projects : option (list jsstring);
  recent_developments : option (list jsstring);
  strategic_priorities : option (list jsstring);
  industry_involvement : option (list jsstring);
  company_context : option (list jsstring);
  competitive_intelligence : option (list jsstring);
  outreach_angles : option (list jsstring);
  recent_quotes_or_statements : option (list jsstring);
  summary : field;
  intelligence_quality : field;
  confidence_level : field;
  generated_at : field;
  content_sources : option nat;
  analysis_method : field;
  error : field;
  raw_response : field;
  analyzed_at : field
}.

(** [personality_metadata] *)
Record metadata := mkMetadata {
  analysis_completed : bool;
  linkedin_urls_found : option nat;
  linkedin_urls_kept_for_reference : option nat;
  non_linkedin_sites_attempted : option nat;
  content_sources_used : option nat;
  ai_analysis_success : bool;
  processing_timestamp : jsstring;
  md_analysis_method : field;
  scraping_strategy : field;
  md_error : field
}.

(** [additional_info] and [enrichment] of [enrichLeadWithAdditionalInfo]. *)
Record additional_info := mkAdditionalInfo {
  background : jsstring;
  experience : jsstring;
  skills : list jsstring;
  achievements : list jsstring;
  info_current_projects : list jsstring;
  company_info : jsstring;
  contact_methods : list jsstring
}.

Record enrichment_data := mkEnrichment {
  enr_search_results : list search_hit;
  enr_website_content : list (jsstring * jsstring);
  enr_additional_info : additional_info;
  enriched_at : jsstring
}.

(** A lead: the properties the modelled code reads or writes. A flag that is
    absent is [false]. *)
Record lead := mkLead {
  name : field;
  title : field;
  company : field;
  email : field;
  linkedin_url : field;
  location : field;
  confidence_score : jsnum;
  raw_data : field;
  is_valid_person : option bool;
  validation_reason : field;
  llm_enhanced : bool;
  rocketreach_updated : bool;
  rocketreach_enriched : bool;
  rocketreach_attempted : bool;
  rocketreach_url : field;
  rocketreach_update_timestamp : field;
  rocketreach_updates : option (list jsstring);
  scraped_content : option (list jsstring);
  search_results : option (list search_result);
  personality_analysis : option analysis;
  personality_sources : option (list source);
  last_personality_analysis : field;
  personality_metadata : option metadata;
  ready_for_outreach : option bool;
  enrichment : option enrichment_data;
  last_enriched : field;
  enrichment_error : field;
  enrichment_attempted_at : field
}.

(** [lead.f = v]: one setter for each property the code assigns. *)
Definition set_title (v : field) (l : lead) : lead :=
  mkLead (name l) v (company l) (email l) (linkedin_url l) (location l)
    (confidence_score l) (raw_data l) (is_valid_person l) (validation_reason
    l) (llm_enhanced l) (rocketreach_updated l) (rocketreach_enriched l)
    (rocketreach_attempted l) (rocketreach_url l)
    (rocketreach_update_timestamp l) (rocketreach_updates l)
    (scraped_content l) (search_results l) (personality_analysis l)
    (personality_sources l) (last_personality_analysis l)
    (personality_metadata l) (ready_for_outreach l) (enrichment l)
    (last_enriched l) (enrichment_error l) (enrichment_attempted_at l).
Definition set_company (v : field) (l : lead) : lead :=
  mkLead (name l) (title l) v (email l) (linkedin_url l) (location l)
    (confidence_score l) (raw_data l) (is_valid_person l) (validation_reason
    l) (llm_enhanced l) (rocketreach_updated l) (rocketreach_enriched l)
    (rocketreach_attempted l) (rocketreach_url l)
    (rocketreach_update_timestamp l) (rocketreach_updates l)
    (scraped_content l) (search_results l) (personality_analysis l)
    (personality_sources l) (last_personality_analysis l)
    (personality_metadata l) (ready_for_outreach l) (enrichment l)
    (last_enriched l) (enrichment_error l) (enrichment_attempted_at l).
Definition set_email (v : field) (l : lead) : lead :=
  mkLead (name l) (title l) (company l) v (linkedin_url l) (location l)
    (confidence_score l) (raw_data l) (is_valid_person l) (validation_reason
    l) (llm_enhanced l) (rocketreach_updated l) (rocketreach_enriched l)
    (rocketreach_attempted l) (rocketreach_url l)
    (rocketreach_update_timestamp l) (rocketreach_updates l)
    (scraped_content l) (search_results l) (personality_analysis l)
    (personality_sources l) (last_personality_analysis l)
    (personality_metadata l) (ready_for_outreach l) (enrichment l)
    (last_enriched l) (enrichment_error l) (enrichment_attempted_at l).
Definition set_linkedin_url (v : field) (l : lead) : lead :=
  mkLead (name l) (title l) (company l) (email l) v (location l)
    (confidence_score l) (raw_data l) (is_valid_person l) (validation_reason
    l) (llm_enhanced l) (rocketreach_updated l) (rocketreach_enriched l)
    (rocketreach_attempted l) (rocketreach_url l)
    (rocketreach_update_timestamp l) (rocketreach_updates l)
    (scraped_content l) (search_results l) (personality_analysis l)
    (personality_sources l) (last_personality_analysis l)
    (personality_metadata l) (ready_for_outreach l) (enrichment l)
    (last_enriched l) (enrichment_error l) (enrichment_attempted_at l).
Definition set_location (v : field) (l : lead) : lead :=
  mkLead (name l) (title l) (company l) (email l) (linkedin_url l) v
    (confidence_score l) (raw_data l) (is_valid_person l) (validation_reason
    l) (llm_enhanced l) (rocketreach_updated l) (rocketreach_enriched l)
    (rocketreach_attempted l) (rocketreach_url l)
    (rocketreach_update_timestamp l) (rocketreach_updates l)
    (scraped_content l) (search_results l) (personality_analysis l)
    (personality_sources l) (last_personality_analysis l)
    (personality_metadata l) (ready_for_outreach l) (enrichment l)
    (last_enriched l) (enrichment_error l) (enrichment_attempted_at l).
Definition set_confidence_score (v : jsnum) (l : lead) : lead :=
  mkLead (name l) (title l) (company l) (email l) (linkedin_url l) (location
    l) v (raw_data l) (is_valid_person l) (validation_reason l)
    (llm_enhanced l) (rocketreach_updated l) (rocketreach_enriched l)
    (rocketreach_attempted l) (rocketreach_url l)
    (rocketreach_update_timestamp l) (rocketreach_updates l)
    (scraped_content l) (search_results l) (personality_analysis l)
    (personality_sources l) (last_personality_analysis l)
    (personality_metadata l) (ready_for_outreach l) (enrichment l)
    (last_enriched l) (enrichment_error l) (enrichment_attempted_at l).
Definition set_is_valid_person (v : option bool) (l : lead) : lead :=
  mkLead (name l) (title l) (company l) (email l) (linkedin_url l) (location
    l) (confidence_score l) (raw_data l) v (validation_reason l)
    (llm_enhanced l) (rocketreach_updated l) (rocketreach_enriched l)
    (rocketreach_attempted l) (rocketreach_url l)
    (rocketreach_update_timestamp l) (rocketreach_updates l)
    (scraped_content l) (search_results l) (personality_analysis l)
    (personality_sources l) (last_personality_analysis l)
    (personality_metadata l) (ready_for_outreach l) (enrichment l)
    (last_enriched l) (enrichment_error l) (enrichment_attempted_at l).
Definition set_validation_reason (v : field) (l : lead) : lead :=
  mkLead (name l) (title l) (company l) (email l) (linkedin_url l) (location
    l) (confidence_score l) (raw_data l) (is_valid_person l) v (llm_enhanced
    l) (rocketreach_updated l) (rocketreach_enriched l)
    (rocketreach_attempted l) (rocketreach_url l)
    (rocketreach_update_timestamp l) (rocketreach_updates l)
    (scraped_content l) (search_results l) (personality_analysis l)
    (personality_sources l) (last_personality_analysis l)
    (personality_metadata l) (ready_for_outreach l) (enrichment l)
    (last_enriched l) (enrichment_error l) (enrichment_attempted_at l).
Definition set_llm_enhanced (v : bool) (l : lead) : lead :=
  mkLead (name l) (title l) (company l) (email l) (linkedin_url l) (location
    l) (confidence_score l) (raw_data l) (is_valid_person l)
    (validation_reason l) v (rocketreach_updated l) (rocketreach_enriched l)
    (rocketreach_attempted l) (rocketreach_url l)
    (rocketreach_update_timestamp l) (rocketreach_updates l)
    (scraped_content l) (search_results l) (personality_analysis l)
    (personality_sources l) (last_personality_analysis l)
    (personality_metadata l) (ready_for_outreach l) (enrichment l)
    (last_enriched l) (enrichment_error l) (enrichment_attempted_at l).
Definition set_rocketreach_updated (v : bool) (l : lead) : lead :=
  mkLead (name l) (title l) (company l) (email l) (linkedin_url l) (location
    l) (confidence_score l) (raw_data l) (is_valid_person l)
    (validation_reason l) (llm_enhanced l) v (rocketreach_enriched l)
    (rocketreach_attempted l) (rocketreach_url l)
    (rocketreach_update_timestamp l) (rocketreach_updates l)
    (scraped_content l) (search_results l) (personality_analysis l)
    (personality_sources l) (last_personality_analysis l)
    (personality_metadata l) (ready_for_outreach l) (enrichment l)
    (last_enriched l) (enrichment_error l) (enrichment_attempted_at l).
Definition set_rocketreach_enriched (v : bool) (l : lead) : lead :=
  mkLead (name l) (title l) (company l) (email l) (linkedin_url l) (location
    l) (confidence_score l) (raw_data l) (is_valid_person l)
    (validation_reason l) (llm_enhanced l) (rocketreach_updated l) v
    (rocketreach_attempted l) (rocketreach_url l)
    (rocketreach_update_timestamp l) (rocketreach_updates l)
    (scraped_content l) (search_results l) (personality_analysis l)
    (personality_sources l) (last_personality_analysis l)
    (personality_metadata l) (ready_for_outreach l) (enrichment l)
    (last_enriched l) (enrichment_error l) (enrichment_attempted_at l).
Definition set_rocketreach_attempted (v : bool) (l : lead) : lead :=
  mkLead (name l) (title l) (company l) (email l) (linkedin_url l) (location
    l) (confidence_score l) (raw_data l) (is_valid_person l)
    (validation_reason l) (llm_enhanced l) (rocketreach_updated l)
    (rocketreach_enriched l) v (rocketreach_url l)
    (rocketreach_update_timestamp l) (rocketreach_updates l)
    (scraped_content l) (search_results l) (personality_analysis l)
    (personality_sources l) (last_personality_analysis l)
    (personality_metadata l) (ready_for_outreach l) (enrichment l)
    (last_enriched l) (enrichment_error l) (enrichment_attempted_at l).
Definition set_rocketreach_url (v : field) (l : lead) : lead :=
  mkLead (name l) (title l) (company l) (email l) (linkedin_url l) (location
    l) (confidence_score l) (raw_data l) (is_valid_person l)
    (validation_reason l) (llm_enhanced l) (rocketreach_updated l)
    (rocketreach_enriched l) (rocketreach_attempted l) v
    (rocketreach_update_timestamp l) (rocketreach_updates l)
    (scraped_content l) (search_results l) (personality_analysis l)
    (personality_sources l) (last_personality_analysis l)
    (personality_metadata l) (ready_for_outreach l) (enrichment l)
    (last_enriched l) (enrichment_error l) (enrichment_attempted_at l).
Definition set_rocketreach_update_timestamp (v : field) (l : lead) : lead :=
  mkLead (name l) (title l) (company l) (email l) (linkedin_url l) (location
    l) (confidence_score l) (raw_data l) (is_valid_person l)
    (validation_reason l) (llm_enhanced l) (rocketreach_updated l)
    (rocketreach_enriched l) (rocketreach_attempted l) (rocketreach_url l) v
    (rocketreach_updates l) (scraped_content l) (search_results l)
    (personality_analysis l) (personality_sources l)
    (last_personality_analysis l) (personality_metadata l)
    (ready_for_outreach l) (enrichment l) (last_enriched l)
    (enrichment_error l) (enrichment_attempted_at l).
Definition set_rocketreach_updates (v : option (list jsstring)) (l : lead) : lead :=
  mkLead (name l) (title l) (company l) (email l) (linkedin_url l) (location
    l) (confidence_score l) (raw_data l) (is_valid_person l)
    (validation_reason l) (llm_enhanced l) (rocketreach_updated l)
    (rocketreach_enriched l) (rocketreach_attempted l) (rocketreach_url l)
    (rocketreach_update_timestamp l) v (scraped_content l) (search_results
    l) (personality_analysis l) (personality_sources l)
    (last_personality_analysis l) (personality_metadata l)
    (ready_for_outreach l) (enrichment l) (last_enriched l)
    (enrichment_error l) (enrichment_attempted_at l).
Definition set_scraped_content (v : option (list jsstring)) (l : lead) : lead :=
  mkLead (name l) (title l) (company l) (email l) (linkedin_url l) (location
    l) (confidence_score l) (raw_data l) (is_valid_person l)
    (validation_reason l) (llm_enhanced l) (rocketreach_updated l)
    (rocketreach_enriched l) (rocketreach_attempted l) (rocketreach_url l)
    (rocketreach_update_timestamp l) (rocketreach_updates l) v
    (search_results l) (personality_analysis l) (personality_sources l)
    (last_personality_analysis l) (personality_metadata l)
    (ready_for_outreach l) (enrichment l) (last_enriched l)
    (enrichment_error l) (enrichment_attempted_at l).
Definition set_personality_analysis (v : option analysis) (l : lead) : lead :=
  mkLead (name l) (title l) (company l) (email l) (linkedin_url l) (location
    l) (confidence_score l) (raw_data l) (is_valid_person l)
    (validation_reason l) (llm_enhanced l) (rocketreach_updated l)
    (rocketreach_enriched l) (rocketreach_attempted l) (rocketreach_url l)
    (rocketreach_update_timestamp l) (rocketreach_updates l)
    (scraped_content l) (search_results l) v (personality_sources l)
    (last_personality_analysis l) (personality_metadata l)
    (ready_for_outreach l) (enrichment l) (last_enriched l)
    (enrichment_error l) (enrichment_attempted_at l).
Definition set_personality_sources (v : option (list source)) (l : lead) : lead :=
  mkLead (name l) (title l) (company l) (email l) (linkedin_url l) (location
    l) (confidence_score l) (raw_data l) (is_valid_person l)
    (validation_reason l) (llm_enhanced l) (rocketreach_updated l)
    (rocketreach_enriched l) (rocketreach_attempted l) (rocketreach_url l)
    (rocketreach_update_timestamp l) (rocketreach_updates l)
    (scraped_content l) (search_results l) (personality_analysis l) v
    (last_personality_analysis l) (personality_metadata l)
    (ready_for_outreach l) (enrichment l) (last_enriched l)
    (enrichment_error l) (enrichment_attempted_at l).
Definition set_last_personality_analysis (v : field) (l : lead) : lead :=
  mkLead (name l) (title l) (company l) (email l) (linkedin_url l) (location
    l) (confidence_score l) (raw_data l) (is_valid_person l)
    (validation_reason l) (llm_enhanced l) (rocketreach_updated l)
    (rocketreach_enriched l) (rocketreach_attempted l) (rocketreach_url l)
    (rocketreach_update_timestamp l) (rocketreach_updates l)
    (scraped_content l) (search_results l) (personality_analysis l)
    (personality_sources l) v (personality_metadata l) (ready_for_outreach
    l) (enrichment l) (last_enriched l) (enrichment_error l)
    (enrichment_attempted_at l).
Definition set_personality_metadata (v : option metadata) (l : lead) : lead :=
  mkLead (name l) (title l) (company l) (email l) (linkedin_url l) (location
    l) (confidence_score l) (raw_data l) (is_valid_person l)
    (validation_reason l) (llm_enhanced l) (rocketreach_updated l)
    (rocketreach_enriched l) (rocketreach_attempted l) (rocketreach_url l)
    (rocketreach_update_timestamp l) (rocketreach_updates l)
    (scraped_content l) (search_results l) (personality_analysis l)
    (personality_sources l) (last_personality_analysis l) v
    (ready_for_outreach l) (enrichment l) (last_enriched l)
    (enrichment_error l) (enrichment_attempted_at l).
Definition set_ready_for_outreach (v : option bool) (l : lead) : lead :=
  mkLead (name l) (title l) (company l) (email l) (linkedin_url l) (location
    l) (confidence_score l) (raw_data l) (is_valid_person l)
    (validation_reason l) (llm_enhanced l) (rocketreach_updated l)
    (rocketreach_enriched l) (rocketreach_attempted l) (rocketreach_url l)
    (rocketreach_update_timestamp l) (rocketreach_updates l)
    (scraped_content l) (search_results l) (personality_analysis l)
    (personality_sources l) (last_personality_analysis l)
    (personality_metadata l) v (enrichment l) (last_enriched l)
    (enrichment_error l) (enrichment_attempted_at l).

(** ** Providers and effects *)

(** The prompts the code sends, by the values interpolated into their fixed
    text. *)
Inductive prompt :=
| IntelligencePrompt (person : field) (combinedContent : jsstring)
| ValidationPrompt (batch : list (field * field * field))
| EnhancementPrompt (batch : list lead) (mode : field)
| ContactPrompt (personName : field) (content : jsstring).

(** The provider calls. *)
Inductive call :=
| CallSearch (query : jsstring) (maxResults : N)
| CallReadWebsite (url : jsstring)
| CallReaderGet (url : jsstring)
| CallChat (p : prompt)
| CallGatherEnrichment (l : lead).

(** What has happened so far: the calls made, oldest first, and how often
    the clock was read. *)
Record world := mkWorld {
  calls : list call;
  clock_reads : nat
}.

(** The collaborators. Each answer may depend on everything that happened
    before. [jina_search] is [JinaSearchAPI.search], [jina_readWebsite] is
    [JinaSearchAPI.readWebsite], [reader_get] the direct request to the
    reader with its answer as text, [chat_create] the content of the first
    choice of [openai.chat.completions.create], [gather_enrichment] steps
    1 to 3 of [enrichLeadWithAdditionalInfo]. *)
Record providers := mkProviders {
  jina_search : world -> jsstring -> N -> outcome (list search_hit);
  jina_readWebsite : world -> jsstring -> outcome jsstring;
  reader_get : world -> jsstring -> outcome jsstring;
  chat_create : world -> prompt -> outcome field;
  gather_enrichment : world -> lead -> outcome enrichment_data;
  clock_iso : nat -> jsstring;
  clock_ms : nat -> N;
  toLowerCase : jsstring -> jsstring
}.

(** [JSON.parse], read at the type the prompt asks the model for: the
    parsed value ([None] for the JSON text [null]) or a [SyntaxError]. *)
Class FromJSON (A : Type) := JSON_parse : jsstring -> outcome (option A).

(** Computations that call providers. *)
Definition M (A : Type) : Type := world -> A * world.

Definition ret {A} (a : A) : M A := fun w => (a, w).
Definition bind {A B} (m : M A) (k : A -> M B) : M B :=
  fun w => let (a, w') := m w in k a w'.

Notation "'let*' x ':=' m 'in' k" := (bind m (fun x => k))
  (at level 10, x pattern, m at level 200, k at level 200).

(** A provider call: answered from the world before it, then logged. *)
Definition perform {A} (c : call) (reply : world -> A) : M A :=
  fun w => (reply w, mkWorld (calls w ++ [c]) (clock_reads w)).

(** [new Date().toISOString()] and [Date.now()] *)
Definition now_iso (P : providers) : M jsstring :=
  fun w => (clock_iso P (clock_reads w), mkWorld (calls w) (S (clock_reads w))).
Definition now_ms (P : providers) : M N :=
  fun w => (clock_ms P (clock_reads w), mkWorld (calls w) (S (clock_reads w))).

(** [for (const x of xs) { ... }] threading an accumulator. *)
Fixpoint for_each {A S} (body : S -> A -> M S) (xs : list A) (s : S) : M S :=
  match xs with
  | [] => ret s
  | x :: rest => let* s' := body s x in for_each body rest s'
  end.

(** [xs.map(f)], and a loop that rewrites every object of [xs] in turn. *)
Fixpoint map_M {A B} (f : A -> M B) (xs : list A) : M (list B) :=
  match xs with
  | [] => ret []
  | x :: rest => let* y := f x in let* ys := map_M f rest in ret (y :: ys)
  end.

(** The message of the [TypeError] for a property access on [null] or
    [undefined]; no modelled code looks inside it. *)
Definition type_error_message : jsstring :=
  lit "Cannot read properties of undefined".

(** ** [lib/llm-enricher.js] *)

Module LLMEnricher.

(** White space and line terminators: what [trim] and [\s] remove. *)
Definition is_space (c : N) : bool :=
  existsb (N.eqb c) [9; 10; 11; 12; 13; 32; 160; 5760; 8232; 8233; 8239; 8287; 12288; 65279]%N
  || (N.leb 8192 c && N.leb c 8202).

Fixpoint trimStart (s : jsstring) : jsstring :=
  match s with
  | c :: s' => if is_space c then trimStart s' else s
  | [] => []
  end.
Definition trimEnd (s : jsstring) : jsstring := rev (trimStart (rev s)).
Definition trim (s : jsstring) : jsstring := trimEnd (trimStart s).

Definition fence : jsstring := lit "```".
Definition fence_json : jsstring := lit "```json".

(** [s.replace(/\s*```$/, '')] *)
Definition drop_closing_fence (s : jsstring) : jsstring :=
  match strip (rev fence) (rev s) with
  | Some r => rev (trimStart r)
  | None => s
  end.

(** The fence removal of [cleanAndParseJSON]. *)
Definition remove_fences (cleaned : jsstring) : jsstring :=
  match strip fence_json cleaned with
  | Some r => drop_closing_fence (trimStart r)
  | None =>
      match strip fence cleaned with
      | Some r => drop_closing_fence (trimStart r)
      | None => cleaned
      end
  end.

(** [cleanAndParseJSON(response)]: any error, also [response.trim()] on
    [null], is rethrown as a parse failure. *)
Definition cleanAndParseJSON {A} {parse : FromJSON A} (response : field) : outcome (option A) :=
  match response with
  | JStr s =>
      match JSON_parse (trim (remove_fences (trim s))) with
      | Returned v => Returned v
      | Threw m => Threw (lit "Failed to parse JSON: " ++ m)
      end
  | _ => Threw (lit "Failed to parse JSON: " ++ type_error_message)
  end.


(** *** Leads created from search results *)

(** An item of the search response, as [parseJinaResponse] reads it. *)
Record jina_item := mkItem {
  item_url : field;
  item_title : field;
  item_description : field
}.

(** [calculateConfidenceFromItem(item)] *)
Definition calculateConfidenceFromItem (item : jina_item) : jsnum :=
  let score := Some (1 # 2)%Q in
  let score :=
    if truthy (item_url item) && includes (to_string (item_url item)) (lit "linkedin.com")
    then num_add score (Some (2 # 10)%Q) else score in
  let score :=
    if truthy (item_description item)
       && Nat.ltb 50 (length (to_string (item_description item)))
    then num_add score (Some (1 # 10)%Q) else score in
  let score :=
    if truthy (item_title item)
       && (includes (to_string (item_title item)) (lit "CIO")
           || includes (to_string (item_title item)) (lit "Director"))
    then num_add score (Some (1 # 10)%Q) else score in
  let score :=
    if truthy (item_description item)
       && includes (to_string (item_description item)) (lit "Banque")
    then num_add score (Some (1 # 10)%Q) else score in
  Math_min (Some 1%Q) score.

(** [s.split(sep)] for a separator of one code unit. *)
Fixpoint split_on (sep : N) (s : jsstring) : list jsstring :=
  match s with
  | [] => [[]]
  | c :: r =>
      if N.eqb c sep then [] :: split_on sep r
      else match split_on sep r with
           | part :: parts => (c :: part) :: parts
           | [] => [[c]]
           end
  end.

(** [[a-z]] *)
Definition is_lower_letter (c : N) : bool := N.leb 97 c && N.leb c 122.

(** [generateEmailFromNameAndCompany(name, company)] *)
Definition generateEmailFromNameAndCompany (P : providers) (name company : jsstring) : jsstring :=
  let nameParts := split_on 32 (toLowerCase P name) in
  let firstName := hd [] nameParts in
  let lastName := List.last nameParts [] in
  let domain :=
    substring0 15
      (List.filter is_lower_letter
         (List.filter (fun c => negb (is_space c)) (toLowerCase P company))) in
  let domain :=
    if includes domain (lit "banque") then lit "banque-france"
    else if includes domain (lit "allianz") then lit "allianz"
    else if includes domain (lit "axa") then lit "axa"
    else domain ++ lit ".com" in
  firstName ++ lit "." ++ lastName ++ lit "@" ++ domain ++ lit ".fr".

(** *** Additional information *)

(** What [extractWebsiteInfo] returns. *)
Record website_info := mkWebsiteInfo {
  wi_background : jsstring;
  wi_experience : jsstring;
  wi_achievements : list jsstring;
  wi_company_info : jsstring
}.

(** [!!s] on a string. *)
Definition nonempty (s : jsstring) : bool :=
  match s with
  | [] => false
  | _ :: _ => true
  end.

(** [mergeAdditionalInfo(existing, newInfo)]: [existing] as it is left. *)
Definition mergeAdditionalInfo (existing : additional_info) (newInfo : website_info)
  : additional_info :=
  mkAdditionalInfo
    (if nonempty (wi_background newInfo) && negb (nonempty (background existing))
     then wi_background newInfo else background existing)
    (if nonempty (wi_experience newInfo) && negb (nonempty (experience existing))
     then wi_experience newInfo else experience existing)
    (skills existing)
    (if Nat.ltb 0 (length (wi_achievements newInfo))
     then take 5 (achievements existing ++ wi_achievements newInfo)
     else achievements existing)
    (info_current_projects existing)
    (if nonempty (wi_company_info newInfo) && negb (nonempty (company_info existing))
     then wi_company_info newInfo else company_info existing)
    (contact_methods existing).

End LLMEnricher.

(** ** [lib/nodes/SearchNode.js] *)

Module SearchNode.

(** *** Field quality *)

Definition lowQualityPatterns : list jsstring :=
  [ lit "@financialservic.com.fr"; lit "@example.com"; lit "@test.com";
    lit "@placeholder.com"; lit "noreply@"; lit "support@"; lit "info@" ].

Definition hasLowQualityEmail (email : field) : bool :=
  if negb (truthy email) then true
  else existsb (fun pattern => includes (to_string email) pattern) lowQualityPatterns.

(** A regular expression as a matcher on the rest of the input: a literal,
    and an optional literal [(p)?]. *)
Definition re_lit (p : jsstring) (k : jsstring -> bool) (s : jsstring) : bool :=
  match strip p s with
  | Some r => k r
  | None => false
  end.
Definition re_opt (p : jsstring) (k : jsstring -> bool) (s : jsstring) : bool :=
  re_lit p k s || k s.

(** [/^https?:\/\/(www\.)?linkedin\.com\/in\//.test(s)] *)
Definition linkedinPattern_test (s : jsstring) : bool :=
  re_lit (lit "http")
    (re_opt (lit "s")
       (re_lit (lit "://")
          (re_opt (lit "www.")
             (re_lit (lit "linkedin.com/in/") (fun _ => true))))) s.

Definition hasLowQualityLinkedIn (linkedinUrl : field) : bool :=
  if negb (truthy linkedinUrl) then true
  else negb (linkedinPattern_test (to_string linkedinUrl)).

Definition genericCompanies : list jsstring :=
  [ lit "Financial Services Company";
    lit "Services Financiers Europ" ++ [233%N] ++ lit "ens";
    lit "Group Financial Services";
    lit "Unknown Company";
    lit "Company";
    lit "Corporation" ].

Definition hasLowQualityCompany (company : field) : bool :=
  if negb (truthy company) then true
  else existsb (str_eqb (to_string company)) genericCompanies.

(** *** Upgrade decisions *)

Definition isEmailBetter (newEmail currentEmail : field) : bool :=
  if negb (truthy currentEmail) then true
  else if hasLowQualityEmail currentEmail && negb (hasLowQualityEmail newEmail) then true
  else false.

Definition isLinkedInBetter (newLinkedIn currentLinkedIn : field) : bool :=
  if negb (truthy currentLinkedIn) then true
  else if hasLowQualityLinkedIn currentLinkedIn && negb (hasLowQualityLinkedIn newLinkedIn) then true
  else false.

Definition isCompanyBetter (newCompany currentCompany : field) : bool :=
  if negb (truthy currentCompany) then true
  else if hasLowQualityCompany currentCompany && negb (hasLowQualityCompany newCompany) then true
  else false.

(** [isTitleBetter(newTitle, currentTitle)], called with a non-empty string
    [newTitle]. *)
Definition isTitleBetter (newTitle : jsstring) (currentTitle : field) : bool :=
  if negb (truthy currentTitle) || bool_decide (currentTitle = JStr (lit "Professional")) then true
  else if Nat.ltb (length (to_string currentTitle)) (length newTitle)
          && negb (includes newTitle (to_string currentTitle)) then true
  else false.

Definition missingLocation (l : lead) : bool :=
  negb (truthy (location l)) || bool_decide (location l = JStr (lit "Unknown")).

Definition needsRocketReachUpdate (l : lead) : bool :=
  if rocketreach_updated l then false
  else hasLowQualityEmail (email l) || hasLowQualityLinkedIn (linkedin_url l)
       || hasLowQualityCompany (company l) || missingLocation l.

(** *** Duplicates *)

(** [`${lead.email}_${lead.linkedin_url}`] *)
Definition dedup_key (l : lead) : jsstring :=
  to_string (email l) ++ lit "_" ++ to_string (linkedin_url l).

(** The [filter] callback of [removeDuplicateLeads] with its [seen] set. *)
Fixpoint removeDuplicateLeads_from (seen : gset jsstring) (leads : list lead) : list lead :=
  match leads with
  | [] => []
  | l :: rest =>
      let key := dedup_key l in
      if decide (key ∈ seen) then removeDuplicateLeads_from seen rest
      else l :: removeDuplicateLeads_from ({[ key ]} ∪ seen) rest
  end.

Definition removeDuplicateLeads (leads : list lead) : list lead :=
  removeDuplicateLeads_from ∅ leads.

(** *** Validation *)

(** An entry of [validations] and the parsed answer; [validations] is
    [None] when the key is absent or not an array. *)
Record validation := mkValidation {
  v_index : jsnum;
  v_is_valid_person : option bool;
  v_reason : field
}.
Record validation_response := mkValidationResponse {
  validations : option (list validation)
}.

(** Comparisons of numbers with array lengths and indices. *)
Definition Q_of_nat (n : nat) : Q := inject_Z (Z.of_nat n).
Definition Qlt_bool (a b : Q) : bool := negb (Qle_bool b a).
Definition Q_is_index (q : Q) : bool := Pos.eqb (Qden (Qred q)) 1.
Definition Q_to_nat (q : Q) : nat := Z.to_nat (Qnum (Qred q)).

(** [for (let i = 0; i < n; i += step)]: the values of [i]. *)
Fixpoint offsets_from (fuel i step n : nat) : list nat :=
  match fuel with
  | O => []
  | S fuel' => if Nat.ltb i n then i :: offsets_from fuel' (i + step) step n else []
  end.
Definition batch_offsets (step n : nat) : list nat := offsets_from n 0 step n.

(** [leads.slice(i, i + size)]; the slice holds the same objects, so a
    change made to each of them ([update_slice]) is a change of [leads] at
    the indices from [i] up to [i + size]. *)
Definition slice (i size : nat) {A} (xs : list A) : list A := take size (drop i xs).
Definition update_slice {A} (i size : nat) (f : A -> A) (xs : list A) : list A :=
  imap (fun j x => if bool_decide (i <= j < i + size) then f x else x) xs.

Definition batchSize : nat := 10.

Definition keep_by_default (l : lead) : lead :=
  set_validation_reason (JStr (lit "Validation failed, kept by default"))
    (set_is_valid_person (Some true) l).

(** One callback of [result.validations.forEach]: the leads after it, and
    whether it threw (assigning to [leads[globalIndex]] when that is
    [undefined]). *)
Definition apply_validation (i batch_length : nat) (leads : list lead) (v : validation)
  : list lead * bool :=
  match v_index v with
  | None => (leads, false)
  | Some batchIndex =>
      if Qle_bool 0 batchIndex
         && Qlt_bool batchIndex (Q_of_nat batch_length)
         && Qlt_bool (Q_of_nat i + batchIndex) (Q_of_nat (length leads))
      then
        if Q_is_index batchIndex then
          (alter (fun l => set_validation_reason (v_reason v)
                             (set_is_valid_person (v_is_valid_person v) l))
                 (i + Q_to_nat batchIndex) leads, false)
        else (leads, true)
      else (leads, false)
  end.

Fixpoint apply_validations (i batch_length : nat) (leads : list lead) (vs : list validation)
  : list lead * bool :=
  match vs with
  | [] => (leads, false)
  | v :: rest =>
      let (leads', threw) := apply_validation i batch_length leads v in
      if threw then (leads', true) else apply_validations i batch_length leads' rest
  end.

Section Validation.
Context (P : providers) {parse_validations : FromJSON validation_response}.

(** The body of the loop of [validateLeadsWithLLM] for the batch at [i]. *)
Definition validate_batch (leads : list lead) (i : nat) : M (list lead) :=
  let batch := slice i batchSize leads in
  let p := ValidationPrompt (map (fun l => (name l, title l, company l)) batch) in
  let* response := perform (CallChat p) (fun w => chat_create P w p) in
  let attempt : list lead * bool :=
    match response with
    | Threw _ => (leads, true)
    | Returned content =>
        match LLMEnricher.cleanAndParseJSON content with
        | Threw _ => (leads, true)
        | Returned None => (leads, true)
        | Returned (Some result) =>
            match validations result with
            | Some vs => apply_validations i (length batch) leads vs
            | None => (leads, false)
            end
        end
    end in
  ret (if attempt.2 then update_slice i batchSize keep_by_default attempt.1 else attempt.1).

Definition validateLeadsWithLLM (leads : list lead) : M (list lead) :=
  for_each validate_batch (batch_offsets batchSize (length leads)) leads.

End Validation.

(** *** Enhancement *)

Record enhancement := mkEnhancement {
  enh_index : jsnum;
  enhanced_title : field;
  enhanced_company : field;
  enhanced_location : field;
  relevance_score : jsnum
}.
Record enhancement_response := mkEnhancementResponse {
  enhanced_leads : option (list enhancement)
}.

(** The assignments of one callback of [result.enhanced_leads.forEach]. *)
Definition enhance (e : enhancement) (l : lead) : lead :=
  let l := if truthy (enhanced_title e) then set_title (enhanced_title e) l else l in
  let l := if truthy (enhanced_company e) then set_company (enhanced_company e) l else l in
  let l := if truthy (enhanced_location e) then set_location (enhanced_location e) l else l in
  let l := if num_truthy (relevance_score e)
           then set_confidence_score (Math_max (confidence_score l) (relevance_score e)) l
           else l in
  set_llm_enhanced true l.

Definition apply_enhancement (batch : list lead) (e : enhancement) : list lead * bool :=
  match enh_index e with
  | None => (batch, false)
  | Some leadIndex =>
      if Qle_bool 0 leadIndex && Qlt_bool leadIndex (Q_of_nat (length batch)) then
        if Q_is_index leadIndex
        then (alter (enhance e) (Q_to_nat leadIndex) batch, false)
        else (batch, true)
      else (batch, false)
  end.

Fixpoint apply_enhancements (batch : list lead) (es : list enhancement) : list lead * bool :=
  match es with
  | [] => (batch, false)
  | e :: rest =>
      let (batch', threw) := apply_enhancement batch e in
      if threw then (batch', true) else apply_enhancements batch' rest
  end.

Section Enhancement.
Context (P : providers) {parse_enhancements : FromJSON enhancement_response}.

(** [enhanceBatchWithLLM(batch, mode)]: the batch as it leaves; an error is
    logged and what was assigned before it stays. *)
Definition enhanceBatchWithLLM (batch : list lead) (mode : field) : M (list lead) :=
  let p := EnhancementPrompt batch mode in
  let* response := perform (CallChat p) (fun w => chat_create P w p) in
  match response with
  | Threw _ => ret batch
  | Returned content =>
      match LLMEnricher.cleanAndParseJSON content with
      | Returned (Some result) =>
          match enhanced_leads result with
          | Some es => ret (apply_enhancements batch es).1
          | None => ret batch
          end
      | _ => ret batch
      end
  end.

Definition enhanceLeadsWithLLM (leads : list lead) (mode : field) : M (list lead) :=
  for_each
    (fun leads i =>
       let* batch' := enhanceBatchWithLLM (slice i 5 leads) mode in
       ret (take i leads ++ batch' ++ drop (i + 5) leads))
    (batch_offsets 5 (length leads)) leads.

End Enhancement.

(** *** Contact upgrade of stored leads *)

Record contact_info := mkContact {
  ci_email : field;
  ci_linkedin_url : field;
  ci_company : field;
  ci_title : field;
  ci_location : field
}.

Definition arrow : jsstring := [32; 8594; 32]%N.

Definition hasUsefulInfo (c : contact_info) : bool :=
  truthy (ci_email c) || truthy (ci_linkedin_url c)
  || (truthy (ci_company c) && negb (bool_decide (ci_company c = JStr (lit "Unknown")))
      && negb (bool_decide (ci_company c = JNull)))
  || (truthy (ci_title c) && negb (bool_decide (ci_title c = JStr (lit "Professional")))
      && negb (bool_decide (ci_title c = JNull))).

(** The five field updates of [updateExistingLeadsWithRocketReach], in
    order, with the list [updates] they fill. *)
Definition upgrade_email (c : contact_info) (st : lead * list jsstring) : lead * list jsstring :=
  let (l, updates) := st in
  if truthy (ci_email c) && isEmailBetter (ci_email c) (email l)
  then (set_email (ci_email c) l,
        updates ++ [[55357; 56551]%N ++ lit " Email: " ++ to_string (email l) ++ arrow
                      ++ to_string (ci_email c)])
  else st.

Definition upgrade_linkedin (c : contact_info) (st : lead * list jsstring) : lead * list jsstring :=
  let (l, updates) := st in
  if truthy (ci_linkedin_url c) && isLinkedInBetter (ci_linkedin_url c) (linkedin_url l)
  then (set_linkedin_url (ci_linkedin_url c) l,
        updates ++ [[55357; 56599]%N ++ lit " LinkedIn: "
                      ++ (if truthy (linkedin_url l) then lit "Updated" else lit "Added")
                      ++ arrow ++ to_string (ci_linkedin_url c)])
  else st.

Definition upgrade_company (c : contact_info) (st : lead * list jsstring) : lead * list jsstring :=
  let (l, updates) := st in
  if truthy (ci_company c) && isCompanyBetter (ci_company c) (company l)
  then (set_company (ci_company c) l,
        updates ++ [[55356; 57314]%N ++ lit " Company: " ++ to_string (company l) ++ arrow
                      ++ to_string (ci_company c)])
  else st.

Definition upgrade_title (c : contact_info) (st : lead * list jsstring) : lead * list jsstring :=
  let (l, updates) := st in
  if truthy (ci_title c) && isTitleBetter (to_string (ci_title c)) (title l)
  then (set_title (ci_title c) l,
        updates ++ [[55357; 56508]%N ++ lit " Title: " ++ to_string (title l) ++ arrow
                      ++ to_string (ci_title c)])
  else st.

Definition upgrade_location (c : contact_info) (st : lead * list jsstring) : lead * list jsstring :=
  let (l, updates) := st in
  if truthy (ci_location c) && missingLocation l
  then (set_location (ci_location c) l,
        updates ++ [[55357; 56525]%N ++ lit " Location: "
                      ++ to_string (or_else (location l) (JStr (lit "None"))) ++ arrow
                      ++ to_string (ci_location c)])
  else st.

Definition apply_contact_updates (c : contact_info) (l : lead) : lead * list jsstring :=
  upgrade_location c (upgrade_title c (upgrade_company c (upgrade_linkedin c (upgrade_email c (l, []))))).

(** [result.url && result.url.includes('rocketreach.co')] *)
Definition is_rocketreach_hit (h : search_hit) : bool :=
  truthy (hit_url h) && includes (to_string (hit_url h)) (lit "rocketreach.co").

(** [`${lead.name} rocket reach`] *)
Definition rocketReachQuery (l : lead) : jsstring := to_string (name l) ++ lit " rocket reach".

Section ContactUpgrade.
Context (P : providers) {parse_contact : FromJSON contact_info}.

(** [extractRocketReachContactInfo(url, personName)]: the contact
    information, or [null]. *)
Definition extractRocketReachContactInfo (rocketReachUrl : jsstring) (personName : field)
  : M (option contact_info) :=
  let* page := perform (CallReadWebsite rocketReachUrl)
                       (fun w => jina_readWebsite P w rocketReachUrl) in
  match page with
  | Threw _ => ret None
  | Returned content =>
      if Nat.eqb (length content) 0 || Nat.ltb (length content) 100 then ret None
      else
        let p := ContactPrompt personName content in
        let* response := perform (CallChat p) (fun w => chat_create P w p) in
        match response with
        | Threw _ => ret None
        | Returned raw =>
            match LLMEnricher.cleanAndParseJSON raw with
            | Returned (Some contactInfo) =>
                if hasUsefulInfo contactInfo then ret (Some contactInfo) else ret None
            | _ => ret None
            end
        end
  end.

(** One turn of the loop of [updateExistingLeadsWithRocketReach]. *)
Definition update_lead (l : lead) : M lead :=
  let* found := perform (CallSearch (rocketReachQuery l) 3)
                        (fun w => jina_search P w (rocketReachQuery l) 3%N) in
  match found with
  | Threw _ => ret l
  | Returned searchResults =>
      match List.filter is_rocketreach_hit searchResults with
      | [] => ret l
      | bestResult :: _ =>
          let* contact := extractRocketReachContactInfo (to_string (hit_url bestResult)) (name l) in
          match contact with
          | None => ret l
          | Some contactInfo =>
              let (l', updates) := apply_contact_updates contactInfo l in
              match updates with
              | [] => ret l'
              | _ :: _ =>
                  let* t := now_iso P in
                  ret (set_rocketreach_updates (Some updates)
                        (set_rocketreach_update_timestamp (JStr t)
                          (set_rocketreach_url (hit_url bestResult)
                            (set_rocketreach_updated true l'))))
              end
          end
      end
  end.

(** [updateExistingLeadsWithRocketReach(existingLeads)]: the leads that
    [needsRocketReachUpdate] selects are updated in place, one after the
    other; the others are not touched. *)
Definition updateExistingLeadsWithRocketReach (existingLeads : list lead) : M (list lead) :=
  map_M (fun l => if needsRocketReachUpdate l then update_lead l else ret l) existingLeads.

(** *** Contact enrichment of new leads *)

(** [s.replace(/\s+/g, '-')] *)
Fixpoint dash_spaces (in_run : bool) (s : jsstring) : jsstring :=
  match s with
  | [] => []
  | c :: r =>
      if LLMEnricher.is_space c
      then (if in_run then dash_spaces true r else 45%N :: dash_spaces true r)
      else c :: dash_spaces false r
  end.

(** The fill-ins of [enrichLeadsWithRocketReach]. *)
Definition fill_in (c : contact_info) (l : lead) : lead :=
  let l := if truthy (ci_email c) && negb (truthy (email l)) then set_email (ci_email c) l else l in
  let l := if truthy (ci_linkedin_url c) && negb (truthy (linkedin_url l))
           then set_linkedin_url (ci_linkedin_url c) l else l in
  let l := if truthy (ci_company c)
              && (negb (truthy (company l)) || bool_decide (company l = JStr (lit "Unknown Company")))
           then set_company (ci_company c) l else l in
  let l := if truthy (ci_title c)
              && (negb (truthy (title l)) || bool_decide (title l = JStr (lit "Professional")))
           then set_title (ci_title c) l else l in
  if truthy (ci_location c) && negb (truthy (location l)) then set_location (ci_location c) l else l.

(** One turn of the loop of [enrichLeadsWithRocketReach]. A lead whose
    [name] is not a string makes the [filter] callback throw as soon as it
    reaches [lead.name.toLowerCase()], and finds nothing otherwise: both
    ways the lead is marked as attempted. *)
Definition enrich_lead (l : lead) : M lead :=
  let* found := perform (CallSearch (rocketReachQuery l) 3)
                        (fun w => jina_search P w (rocketReachQuery l) 3%N) in
  match found with
  | Threw _ => ret (set_rocketreach_attempted true l)
  | Returned searchResults =>
      match name l with
      | JStr n =>
          match List.filter
                  (fun h => is_rocketreach_hit h
                            && includes (to_string (hit_url h)) (dash_spaces false (toLowerCase P n)))
                  searchResults with
          | [] => ret (set_rocketreach_attempted true l)
          | bestResult :: _ =>
              let* contact := extractRocketReachContactInfo (to_string (hit_url bestResult)) (name l) in
              match contact with
              | None => ret (set_rocketreach_attempted true l)
              | Some contactInfo =>
                  ret (set_rocketreach_url (hit_url bestResult)
                        (set_rocketreach_enriched true (fill_in contactInfo l)))
              end
          end
      | _ => ret (set_rocketreach_attempted true l)
      end
  end.

Definition needsEnrichment (l : lead) : bool :=
  negb (rocketreach_enriched l) && negb (rocketreach_attempted l).

Definition enrichLeadsWithRocketReach (leads : list lead) : M (list lead) :=
  map_M (fun l => if needsEnrichment l then enrich_lead l else ret l) leads.

End ContactUpgrade.

(** [identifyContactIssues(lead)]: the issues listed for a lead selected for
    the contact upgrade. *)
Definition identifyContactIssues (l : lead) : list jsstring :=
  (if hasLowQualityEmail (email l) then [lit "Fake/Generic Email"] else [])
  ++ (if hasLowQualityLinkedIn (linkedin_url l) then [lit "Not LinkedIn URL"] else [])
  ++ (if hasLowQualityCompany (company l) then [lit "Generic Company"] else [])
  ++ (if missingLocation l then [lit "Missing Location"] else []).

(** [lead.is_valid_person !== false] *)
Definition is_not_invalid (l : lead) : bool :=
  negb (bool_decide (is_valid_person l = Some false)).

Section Run.
Context (P : providers) {parse_validations : FromJSON validation_response}
        {parse_enhancements : FromJSON enhancement_response}
        {parse_contact : FromJSON contact_info}.

(** [run(msg, ctx)] from the point where the leads of all personas are
    collected in [allLeads]: the stored leads [state.leads || []] are
    upgraded, the collected ones validated and screened, enriched and
    enhanced; the result is [finalLeads]. *)
Definition run_from_collected (hasLLM : bool) (mode : field) (existingLeads allLeads : list lead)
  : M (list lead) :=
  let* existingLeads :=
    if Nat.ltb 0 (length existingLeads)
    then updateExistingLeadsWithRocketReach P existingLeads else ret existingLeads in
  let* allLeads :=
    if hasLLM && Nat.ltb 0 (length allLeads)
    then let* validated := validateLeadsWithLLM P allLeads in
         ret (List.filter is_not_invalid validated)
    else ret allLeads in
  let* allLeads :=
    if Nat.ltb 0 (length allLeads) then enrichLeadsWithRocketReach P allLeads else ret allLeads in
  let* allLeads :=
    if hasLLM && Nat.ltb 0 (length allLeads)
    then enhanceLeadsWithLLM P allLeads mode else ret allLeads in
  ret (existingLeads ++ allLeads).

End Run.

End SearchNode.

(** ** [lib/nodes/EnrichNode.js] *)

Module EnrichNode.

Section WithProviders.
Context (P : providers) {parse_analysis : FromJSON model_analysis}.

(** *** Search *)

(** One element of [formattedResults]; [Date.now()] is read only when the
    result has no [linkedin_url]. *)
Definition format_result (person : field) (indexed : nat * search_hit) : M search_result :=
  let (index, result) := indexed in
  let* url :=
    if truthy (hit_linkedin_url result) then ret (hit_linkedin_url result)
    else let* ms := now_ms P in
         ret (JStr (lit "https://search-result-" ++ digits (N.of_nat index) ++ lit "-" ++ digits ms)) in
  ret (mkResult url
         (JStr (to_string (or_else (hit_name result) person) ++ lit " - "
                ++ to_string (or_else (hit_title result) (JStr (lit "Professional")))))
         (or_else (hit_raw_data result)
            (or_else (hit_notes result)
               (or_else (hit_company result) (JStr (lit "Professional profile")))))).

Definition has_valid_url (r : search_result) : bool :=
  truthy (sr_url r) && startsWith (to_string (sr_url r)) (lit "http")
  && negb (includes (to_string (sr_url r)) (lit "search-result-")).

Definition searchApproaches (person company : field) : list jsstring :=
  [ to_string person ++ lit " " ++ to_string company;
    to_string person ++ lit " LinkedIn";
    [34%N] ++ to_string person ++ [34%N] ++ lit " " ++ to_string company;
    to_string person ].

(** The loop of [searchPersonWithJina] over the approaches left. *)
Fixpoint try_approaches (person : field) (approaches : list jsstring) : M (list search_result) :=
  match approaches with
  | [] => ret []
  | searchQuery :: rest =>
      let* found := perform (CallSearch searchQuery 8)
                            (fun w => jina_search P w searchQuery 8%N) in
      match found with
      | Threw _ => try_approaches person rest
      | Returned searchResults =>
          match searchResults with
          | [] => try_approaches person rest
          | _ :: _ =>
              let* formattedResults := map_M (format_result person) (imap pair searchResults) in
              match List.filter has_valid_url formattedResults with
              | [] => try_approaches person rest
              | validResults => ret validResults
              end
          end
      end
  end.

Definition searchPersonWithJina (person company : field) : M (list search_result) :=
  try_approaches person (searchApproaches person company).

(** *** Content *)

(** [getWebsiteContent(url)]: the text of the page, [''] on any failure. *)
Definition getWebsiteContent (url : jsstring) : M jsstring :=
  let* first := perform (CallReadWebsite url) (fun w => jina_readWebsite P w url) in
  match first with
  | Threw _ => ret []
  | Returned content =>
      if Nat.ltb 0 (length content) then ret content
      else
        let* second := perform (CallReaderGet url) (fun w => reader_get P w url) in
        match second with
        | Threw _ => ret []
        | Returned data => ret data
        end
  end.

(** *** Summary *)

Definition separator : jsstring := [10; 10]%N ++ lit "---" ++ [10; 10]%N.
Definition maxLength : nat := 90000.
Definition truncation_marker : jsstring :=
  [10; 10]%N ++ lit "...[Content truncated to fit context limits]".

(** The content that goes into the prompt. *)
Definition combinedContent (websiteContents : list jsstring) : jsstring :=
  let combined := join separator websiteContents in
  if Nat.ltb maxLength (length combined)
  then substring0 maxLength combined ++ truncation_marker
  else combined.

Definition parsing_error_placeholder : jsstring :=
  lit "Analysis parsing error - unable to extract information".

(** [x || [placeholder]] for a category. *)
Definition or_placeholder (x : option (list jsstring)) (placeholder : jsstring)
  : option (list jsstring) :=
  match x with
  | Some items => Some items
  | None => Some [placeholder]
  end.

Definition structuredAnalysis (a : model_analysis) (generated : jsstring) (sources : nat)
  : analysis :=
  {| current_projects :=
       or_placeholder (model_current_projects a) (lit "No specific current projects identified");
     recent_developments :=
       or_placeholder (model_recent_developments a) (lit "No recent developments found");
     strategic_priorities :=
       or_placeholder (model_strategic_priorities a)
         (lit "No specific strategic priorities identified");
     industry_involvement :=
       or_placeholder (model_industry_involvement a) (lit "No recent industry involvement found");
     company_context :=
       or_placeholder (model_company_context a) (lit "No specific company context available");
     competitive_intelligence :=
       or_placeholder (model_competitive_intelligence a)
         (lit "Limited competitive intelligence available");
     outreach_angles :=
       or_placeholder (model_outreach_angles a) (lit "Standard industry discussion topics");
     recent_quotes_or_statements :=
       or_placeholder (model_recent_quotes_or_statements a)
         (lit "No recent quotes or statements found");
     summary :=
       or_else (model_summary a)
         (JStr (lit "Professional with limited recent public information available"));
     intelligence_quality :=
       or_else (model_intelligence_quality a)
         (or_else (model_confidence_level a) (JStr (lit "low")));
     confidence_level := JUndefined;
     generated_at := JStr generated;
     content_sources := Some sources;
     analysis_method := JStr (lit "competitive_intelligence_extraction");
     error := JUndefined;
     raw_response := JUndefined;
     analyzed_at := JUndefined |}.

(** The object of the inner [catch]. *)
Definition fallbackAnalysis (rawContent generated : jsstring) (sources : nat) : analysis :=
  {| current_projects := Some [parsing_error_placeholder];
     recent_developments := Some [parsing_error_placeholder];
     strategic_priorities := Some [parsing_error_placeholder];
     industry_involvement := Some [parsing_error_placeholder];
     company_context := Some [parsing_error_placeholder];
     competitive_intelligence := Some [parsing_error_placeholder];
     outreach_angles := Some [lit "Standard professional outreach recommended"];
     recent_quotes_or_statements := Some [parsing_error_placeholder];
     summary :=
       JStr (lit "Competitive intelligence analysis could not be completed due to technical error");
     intelligence_quality := JStr (lit "low");
     confidence_level := JUndefined;
     generated_at := JStr generated;
     content_sources := Some sources;
     analysis_method := JStr (lit "fallback_error");
     error := JStr (lit "JSON parsing failed");
     raw_response := JStr (substring0 500 rawContent);
     analyzed_at := JUndefined |}.

(** The object of the outer [catch]. *)
Definition errorAnalysis (message generated : jsstring) : analysis :=
  {| current_projects := None;
     recent_developments := None;
     strategic_priorities := None;
     industry_involvement := None;
     company_context := None;
     competitive_intelligence := None;
     outreach_angles := None;
     recent_quotes_or_statements := None;
     summary :=
       JStr (lit "Unable to extract competitive intelligence due to processing error");
     intelligence_quality := JStr (lit "low");
     confidence_level := JUndefined;
     generated_at := JStr generated;
     content_sources := None;
     analysis_method := JUndefined;
     error := JStr message;
     raw_response := JUndefined;
     analyzed_at := JUndefined |}.

(** [generatePersonalitySummary(name, websiteContents)]. A [null] content
    makes the inner [catch] throw at [rawContent.substring], which the outer
    [catch] handles. *)
Definition generatePersonalitySummary (person : field) (websiteContents : list jsstring)
  : M analysis :=
  let p := IntelligencePrompt person (combinedContent websiteContents) in
  let* response := perform (CallChat p) (fun w => chat_create P w p) in
  match response with
  | Threw message =>
      let* t := now_iso P in ret (errorAnalysis message t)
  | Returned (JStr rawContent) =>
      match JSON_parse rawContent with
      | Returned (Some a) =>
          let* t := now_iso P in ret (structuredAnalysis a t (length websiteContents))
      | Returned None | Threw _ =>
          let* t := now_iso P in ret (fallbackAnalysis rawContent t (length websiteContents))
      end
  | Returned _ =>
      let* t := now_iso P in ret (errorAnalysis type_error_message t)
  end.

(** *** One lead *)

(** [lead.personality_analysis && !lead.personality_analysis.error] *)
Definition has_successful_analysis (l : lead) : bool :=
  match personality_analysis l with
  | Some a => negb (truthy (error a))
  | None => false
  end.

Definition is_linkedin (r : search_result) : bool :=
  truthy (sr_url r) && includes (to_string (sr_url r)) (lit "linkedin.com").

Definition is_scrapeable (r : search_result) : bool :=
  truthy (sr_url r)
  && negb (includes (to_string (sr_url r)) (lit "linkedin.com"))
  && negb (includes (to_string (sr_url r)) (lit "/login"))
  && negb (includes (to_string (sr_url r)) (lit "/signup"))
  && negb (includes (to_string (sr_url r)) (lit "auth"))
  && negb (includes (to_string (sr_url r)) (lit "sign-in")).

(** [content && content.length > 100] *)
Definition is_substantial (content : jsstring) : bool := Nat.ltb 100 (length content).

(** The entry pushed to [websiteContents] for a scraped page. *)
Definition content_entry (website : search_result) (content : jsstring) : jsstring :=
  let truncatedContent :=
    if Nat.ltb 50000 (length content)
    then substring0 50000 content ++ lit "...[truncated]"
    else content in
  lit "Source: " ++ to_string (sr_url website) ++ [10%N]
  ++ lit "Title: " ++ to_string (or_else (sr_title website) (JStr (lit "N/A"))) ++ [10%N]
  ++ lit "Content: " ++ truncatedContent.

(** The first scraping loop: every selected site is read. *)
Definition scrape (websiteContents : list jsstring) (website : search_result)
  : M (list jsstring) :=
  let* content := getWebsiteContent (to_string (sr_url website)) in
  if is_substantial content
  then ret (websiteContents ++ [content_entry website content])
  else ret websiteContents.

(** The second scraping loop: it stops at the first substantial page. *)
Fixpoint scrape_until_one (websiteContents : list jsstring) (sites : list search_result)
  : M (list jsstring) :=
  match sites with
  | [] => ret websiteContents
  | website :: rest =>
      let* content := getWebsiteContent (to_string (sr_url website)) in
      if is_substantial content
      then ret (websiteContents ++ [content_entry website content])
      else scrape_until_one websiteContents rest
  end.

Definition linkedin_source (timestamp : jsstring) (w : search_result) : source :=
  mkSource (sr_url w) (sr_title w) false (lit "linkedin_reference") timestamp.
Definition scraped_source (timestamp : jsstring) (w : search_result) : source :=
  mkSource (sr_url w) (sr_title w) true (lit "scraped_content") timestamp.

(** [xs.map(w => ({ ..., timestamp: new Date().toISOString() }))] *)
Definition stamp (mk : jsstring -> search_result -> source) (xs : list search_result)
  : M (list source) :=
  map_M (fun w => let* t := now_iso P in ret (mk t w)) xs.

(** The three objects [enrichLeadWithPersonalityAnalysis] returns after the
    skip test: no search result, no substantial content, and the enriched
    lead. *)
Definition failed_analysis (message : jsstring) (method : field) (analyzed : jsstring) : analysis :=
  {| current_projects := None; recent_developments := None;
     strategic_priorities := None; industry_involvement := None;
     company_context := None; competitive_intelligence := None;
     outreach_angles := None; recent_quotes_or_statements := None;
     summary := JUndefined; intelligence_quality := JUndefined;
     confidence_level := JUndefined; generated_at := JUndefined;
     content_sources := None; analysis_method := method;
     error := JStr message;
     raw_response := JUndefined; analyzed_at := JStr analyzed |}.

Definition without_results (l : lead) (analyzed : jsstring) : lead :=
  set_personality_analysis
    (Some (failed_analysis (lit "No search results found") JUndefined analyzed)) l.

Definition without_content (l : lead) (linkedinUrls websitesToScrape : list search_result)
    (analyzed processed : jsstring) : lead :=
  set_ready_for_outreach (Some false)
    (set_personality_metadata
       (Some {| analysis_completed := false;
                linkedin_urls_found := Some (length linkedinUrls);
                linkedin_urls_kept_for_reference := None;
                non_linkedin_sites_attempted := Some (length websitesToScrape);
                content_sources_used := None;
                ai_analysis_success := false;
                processing_timestamp := processed;
                md_analysis_method := JUndefined;
                scraping_strategy := JUndefined;
                md_error := JStr (lit "No scrapeable non-LinkedIn content found") |})
       (set_personality_analysis
          (Some (failed_analysis
                   (lit "No substantial content found for analysis (LinkedIn excluded)")
                   (JStr (lit "failed")) analyzed)) l)).

(** When [lead.scraped_content] is an array, [websiteContents] is that very
    array, so what was pushed to it is on the lead too. *)
Definition enriched (l : lead) (personalityAnalysis : analysis)
    (linkedinUrls websitesToScrape : list search_result) (websiteContents : list jsstring)
    (sources : list source) (analyzed processed : jsstring) : lead :=
  let enrichedLead :=
    set_personality_metadata
      (Some {| analysis_completed := true;
               linkedin_urls_found := Some (length linkedinUrls);
               linkedin_urls_kept_for_reference := Some (Nat.min (length linkedinUrls) 1);
               non_linkedin_sites_attempted := Some (length websitesToScrape);
               content_sources_used := Some (length websiteContents);
               ai_analysis_success := negb (truthy (error personalityAnalysis));
               processing_timestamp := processed;
               md_analysis_method :=
                 or_else (analysis_method personalityAnalysis)
                   (JStr (lit "web_scraping_chatgpt"));
               scraping_strategy := JStr (lit "exclude_linkedin");
               md_error := JUndefined |})
      (set_last_personality_analysis (JStr analyzed)
         (set_personality_sources (Some sources)
            (set_personality_analysis (Some personalityAnalysis)
               (set_scraped_content
                  (match scraped_content l with
                   | Some _ => Some websiteContents
                   | None => None
                   end) l)))) in
  set_ready_for_outreach
    (Some (negb (truthy (error personalityAnalysis))
           && negb (bool_decide (confidence_level personalityAnalysis = JStr (lit "low")))))
    enrichedLead.

(** Search and scraping: [None] when the search finds nothing, else the
    LinkedIn results, the sites selected for scraping and the contents.
    With content from an earlier pass ([reused]) nothing is searched. The
    outer [if] on [scraped_content], [search_results] and
    [enrichment_sources] only guards the two inner tests, which repeat its
    conditions. *)
Definition collect (person company : field) (reused : list jsstring)
  : M (option (list search_result * list search_result * list jsstring)) :=
  let* scraped :=
    if Nat.eqb (length reused) 0 then
      let* searchResults := searchPersonWithJina person company in
      match searchResults with
      | [] => ret None
      | _ :: _ =>
          let linkedinUrls := List.filter is_linkedin searchResults in
          let nonLinkedInWebsites := List.filter is_scrapeable searchResults in
          let websitesToScrape := take 3 nonLinkedInWebsites in
          let* websiteContents := for_each scrape websitesToScrape reused in
          ret (Some (linkedinUrls, nonLinkedInWebsites, websitesToScrape, websiteContents))
      end
    else ret (Some ([], [], [], reused)) in
  match scraped with
  | None => ret None
  | Some (linkedinUrls, nonLinkedInWebsites, websitesToScrape, websiteContents) =>
      let* websiteContents :=
        if Nat.ltb (length websiteContents) 2 && Nat.ltb 3 (length nonLinkedInWebsites)
        then scrape_until_one websiteContents (take 2 (drop 3 nonLinkedInWebsites))
        else ret websiteContents in
      ret (Some (linkedinUrls, websitesToScrape, websiteContents))
  end.

(** Everything after the skip test of [enrichLeadWithPersonalityAnalysis]. *)
Definition analyse (l : lead) : M lead :=
  let* collected := collect (name l) (company l) (default [] (scraped_content l)) in
  match collected with
  | None =>
      let* t := now_iso P in ret (without_results l t)
  | Some (linkedinUrls, websitesToScrape, websiteContents) =>
      if Nat.eqb (length websiteContents) 0 then
        let* t1 := now_iso P in
        let* t2 := now_iso P in
        ret (without_content l linkedinUrls websitesToScrape t1 t2)
      else
        let* personalityAnalysis := generatePersonalitySummary (name l) websiteContents in
        let* references := stamp linkedin_source (take 1 linkedinUrls) in
        let* scrapedSites := stamp scraped_source websitesToScrape in
        let* t1 := now_iso P in
        let* t2 := now_iso P in
        ret (enriched l personalityAnalysis linkedinUrls websitesToScrape websiteContents
               (references ++ scrapedSites) t1 t2)
  end.

(** [enrichLeadWithPersonalityAnalysis(lead)]. Nothing in the body throws
    on data of these types, so the [catch] around it is not reached. *)
Definition enrichLeadWithPersonalityAnalysis (l : lead) : M lead :=
  if has_successful_analysis l then ret l else analyse l.

(** *** A run *)

(** The filter of [run]: no successful analysis yet. *)
Definition wants_analysis (l : lead) : bool :=
  match personality_analysis l with
  | None => true
  | Some a => truthy (error a)
  end.

(** [lead.confidence_score || 0] *)
Definition score_or_zero (l : lead) : Q :=
  match confidence_score l with
  | Some q => q
  | None => 0
  end.

(** [sort((a, b) => (b.confidence_score || 0) - (a.confidence_score || 0))]:
    the stable sort by descending score, on leads paired with their index in
    [state.leads]. An element is inserted in front of what follows it in the
    array, so it goes before the elements whose score is not higher. *)
Fixpoint insert_by_score (x : nat * lead) (sorted : list (nat * lead)) : list (nat * lead) :=
  match sorted with
  | [] => [x]
  | y :: rest =>
      if negb (Qle_bool (score_or_zero y.2) (score_or_zero x.2))
      then y :: insert_by_score x rest
      else x :: y :: rest
  end.
Definition sort_by_score (xs : list (nat * lead)) : list (nat * lead) :=
  foldr insert_by_score [] xs.

(** [leadsToEnrich], each lead with its index in [state.leads]. *)
Definition selection (leads : list lead) : list (nat * lead) :=
  take 10 (sort_by_score (List.filter (fun x => wants_analysis x.2) (imap pair leads))).

Definition leadsToEnrich (leads : list lead) : list lead := (selection leads).*2.

(** [enrichLeadsWithPersonalityData]: [Object.assign(lead, enrichedLead)]
    rewrites the lead, which is an element of [state.leads]. *)
Definition enrichLeadsWithPersonalityData (leads : list lead) (selected : list nat)
  : M (list lead) :=
  for_each
    (fun leads i =>
       match leads !! i with
       | Some l => let* enrichedLead := enrichLeadWithPersonalityAnalysis l in
                   ret (<[ i := enrichedLead ]> leads)
       | None => ret leads
       end)
    selected leads.

(** The leads of the state after [run], when it gets as far as selecting. *)
Definition run (leads : list lead) : M (list lead) :=
  enrichLeadsWithPersonalityData leads (selection leads).*1.

End WithProviders.

(** *** What the next stage is told *)

(** The [status] of [getPersonalityDataForIntegration(lead)]. *)
Inductive integration_status := no_analysis | analysis_failed | analysis_complete.

#[global] Instance integration_status_eq_dec : EqDecision integration_status.
Proof. solve_decision. Defined.

Definition integration_status_of (l : lead) : integration_status :=
  match personality_analysis l with
  | None => no_analysis
  | Some a => if truthy (error a) then analysis_failed else analysis_complete
  end.

(** The counts and the leads of the [payload] of
    [createNextMessage(runId, leads)]. *)
Record payload := mkPayload {
  leads_count : nat;
  enriched_count : nat;
  personality_analyzed_count : nat;
  successful_personality_analyses : nat;
  payload_leads : list lead
}.

Definition createNextMessage (leads : list lead) : payload :=
  {| leads_count := length leads;
     enriched_count := length (List.filter (fun l => bool_decide (is_Some (enrichment l))) leads);
     personality_analyzed_count :=
       length (List.filter (fun l => bool_decide (is_Some (personality_analysis l))) leads);
     successful_personality_analyses := length (List.filter has_successful_analysis leads);
     payload_leads := leads |}.

End EnrichNode.

(** ** [lib/nodes/OutreachNode.js] *)

Module OutreachNode.

(** The [replace] of [escapeCSV]: every quote (code unit 34) is doubled. *)
Definition double_quotes (s : jsstring) : jsstring :=
  flat_map (fun c => if N.eqb c 34 then [34; 34]%N else [c]) s.

(** [escapeCSV(text)] *)
Definition escapeCSV (text : field) : jsstring :=
  if negb (truthy text) then []
  else
    let escaped := double_quotes (to_string text) in
    if includes escaped (lit ",") || includes escaped [34%N] || includes escaped [10%N]
    then [34%N] ++ escaped ++ [34%N]
    else escaped.

Definition headers : list jsstring :=
  [ lit "Name"; lit "Title"; lit "Company"; lit "Email"; lit "LinkedIn_URL"; lit "Location";
    lit "LinkedIn_Connection_Request"; lit "LinkedIn_Follow_Up_Message"; lit "Email_Message";
    lit "Current_Projects"; lit "Recent_Developments"; lit "Strategic_Priorities";
    lit "Outreach_Angles"; lit "Company_Context"; lit "Competitive_Intelligence";
    lit "Intelligence_Quality"; lit "Analysis_Summary" ].

(** [items?.join('; ') || ''] *)
Definition joined (items : option (list jsstring)) : field :=
  match items with
  | Some xs => or_else (JStr (join (lit "; ") xs)) (JStr [])
  | None => JStr []
  end.

(** [lead.personality_analysis || {}] read at a key that holds a list, and
    at one that holds a string. *)
Definition intel_list (key : analysis -> option (list jsstring)) (l : lead) : field :=
  joined (match personality_analysis l with Some a => key a | None => None end).
Definition intel_text (key : analysis -> field) (l : lead) : field :=
  or_else (match personality_analysis l with Some a => key a | None => JUndefined end)
    (JStr []).

(** The values of the row of a lead, before they are escaped; the three
    messages are what the model wrote for the lead. *)
Definition row_values (l : lead) (linkedinConnection linkedinFollowUp emailMessage : field)
  : list field :=
  [ name l; title l; company l; email l; linkedin_url l; location l;
    linkedinConnection; linkedinFollowUp; emailMessage;
    intel_list current_projects l; intel_list recent_developments l;
    intel_list strategic_priorities l; intel_list outreach_angles l;
    intel_list company_context l; intel_list competitive_intelligence l;
    intel_text intelligence_quality l; intel_text summary l ].

(** [row.join(',')] of the escaped values. *)
Definition csv_row (values : list field) : jsstring :=
  join (lit ",") (map escapeCSV values).

(** [generateCSVContent]: the text, from the leads and their messages. *)
Definition generateCSVContent (written : list (lead * (field * field * field))) : jsstring :=
  join [10%N]
    (join (lit ",") headers
     :: map (fun x => let '(l, (m1, m2, m3)) := x in csv_row (row_values l m1 m2 m3)) written).

End OutreachNode.

(** ** Vocabulary of the statements *)

(** The three fields with a quality classifier, and the classifier and the
    upgrade decision of each. *)
Inductive contact_field := Email | LinkedInUrl | Company.

Definition isLowQuality (f : contact_field) : field -> bool :=
  match f with
  | Email => SearchNode.hasLowQualityEmail
  | LinkedInUrl => SearchNode.hasLowQualityLinkedIn
  | Company => SearchNode.hasLowQualityCompany
  end.

Definition isBetter (f : contact_field) : field -> field -> bool :=
  match f with
  | Email => SearchNode.isEmailBetter
  | LinkedInUrl => SearchNode.isLinkedInBetter
  | Company => SearchNode.isCompanyBetter
  end.


(** The category keys of an analysis: for each, how the model's answer and
    the analysis hold it, and its placeholder. *)
Definition categories
  : list ((model_analysis -> option (list jsstring)) * (analysis -> option (list jsstring)) * jsstring) :=
  [ (model_current_projects, current_projects, lit "No specific current projects identified");
    (model_recent_developments, recent_developments, lit "No recent developments found");
    (model_strategic_priorities, strategic_priorities,
       lit "No specific strategic priorities identified");
    (model_industry_involvement, industry_involvement, lit "No recent industry involvement found");
    (model_company_context, company_context, lit "No specific company context available");
    (model_competitive_intelligence, competitive_intelligence,
       lit "Limited competitive intelligence available");
    (model_outreach_angles, outreach_angles, lit "Standard industry discussion topics");
    (model_recent_quotes_or_statements, recent_quotes_or_statements,
       lit "No recent quotes or statements found") ].

(** Every category key is present. *)
Definition has_every_category (a : analysis) : bool :=
  forallb (fun c => match c.1.2 a with Some _ => true | None => false end) categories.

(** The model call for the batch at [i], made in world [w] on [leads],
    throws, or its answer does not parse. *)
Definition batch_fails (P : providers) {parse_validations : FromJSON SearchNode.validation_response}
    (leads : list lead) (w : world) (i : nat) : bool :=
  let batch := SearchNode.slice i SearchNode.batchSize leads in
  match chat_create P w (ValidationPrompt (map (fun l => (name l, title l, company l)) batch)) with
  | Threw _ => true
  | Returned content =>
      match LLMEnricher.cleanAndParseJSON (A := SearchNode.validation_response) content with
      | Threw _ => true
      | Returned _ => false
      end
  end.



(** Every lead of [before] is at its place in [after], with a score that
    is not lower. *)
Definition scores_grow (before after : list lead) : Prop :=
  forall j l q, before !! j = Some l -> confidence_score l = Some q ->
    exists l' q', after !! j = Some l' /\ confidence_score l' = Some q' /\ (q <= q')%Q.

(** The kinds of provider calls. *)
Definition is_search (c : call) : bool :=
  match c with CallSearch _ _ => true | _ => false end.
Definition is_fetch (c : call) : bool :=
  match c with CallReadWebsite _ | CallReaderGet _ => true | _ => false end.
Definition is_chat (c : call) : bool :=
  match c with CallChat _ => true | _ => false end.

(** [l'] is [l] but for the two properties the validation writes. *)
Definition same_but_validation (l l' : lead) : Prop :=
  l' = set_validation_reason (validation_reason l') (set_is_valid_person (is_valid_person l') l).

(** What the contact upgrade of a stored lead keeps: the name and the score,
    every contact field that is not low quality, and a location that is
    known. *)
Definition upgrade_keeps (l l' : lead) : Prop :=
  name l' = name l
  /\ confidence_score l' = confidence_score l
  /\ (SearchNode.hasLowQualityEmail (email l) = false -> email l' = email l)
  /\ (SearchNode.hasLowQualityLinkedIn (linkedin_url l) = false ->
      linkedin_url l' = linkedin_url l)
  /\ (SearchNode.hasLowQualityCompany (company l) = false -> company l' = company l)
  /\ (SearchNode.missingLocation l = false -> location l' = location l).

(** A lead as the contact upgrade marks it: flagged, with the address of the
    profile and the list of what was changed. *)
Definition marked_updated (l : lead) : Prop :=
  rocketreach_updated l = true
  /\ truthy (rocketreach_url l) = true
  /\ (exists t, rocketreach_update_timestamp l = JStr t)
  /\ (exists u us, rocketreach_updates l = Some (u :: us)).

(** What the contact enrichment of a new lead keeps: the name and the score,
    and every contact field that is not empty, but for a company
    ['Unknown Company'] and a title ['Professional']. *)
Definition enrichment_keeps (l l' : lead) : Prop :=
  name l' = name l
  /\ confidence_score l' = confidence_score l
  /\ (truthy (email l) = true -> email l' = email l)
  /\ (truthy (linkedin_url l) = true -> linkedin_url l' = linkedin_url l)
  /\ (truthy (company l) = true -> company l <> JStr (lit "Unknown Company") ->
      company l' = company l)
  /\ (truthy (title l) = true -> title l <> JStr (lit "Professional") -> title l' = title l)
  /\ (truthy (location l) = true -> location l' = location l).

(** [l'] is [l] but for the five properties the enhancement writes. *)
Definition same_but_enhancement (l l' : lead) : Prop :=
  l' = set_llm_enhanced (llm_enhanced l')
         (set_confidence_score (confidence_score l')
            (set_location (location l')
               (set_company (company l') (set_title (title l') l)))).

(** The score of [l'] is a number not below that of [l], when that is a
    number. *)
Definition score_grows (l l' : lead) : Prop :=
  forall q, confidence_score l = Some q ->
  exists q', confidence_score l' = Some q' /\ (q <= q')%Q.

(** What the enhancement of a lead keeps: every property but the five it
    writes, the fact of having been enhanced, a score that does not fall,
    and a title, company and location that are not emptied. *)
Definition enhancement_keeps (l l' : lead) : Prop :=
  same_but_enhancement l l'
  /\ (llm_enhanced l = true -> llm_enhanced l' = true)
  /\ score_grows l l'
  /\ (truthy (title l) = true -> truthy (title l') = true)
  /\ (truthy (company l) = true -> truthy (company l') = true)
  /\ (truthy (location l) = true -> truthy (location l') = true).

(** Strings of white space. *)
Abbreviation spaces := (Forall (fun c => LLMEnricher.is_space c = true)).

(** The first string that is not empty, [''] when there is none. *)
Definition first_nonempty (xs : list jsstring) : jsstring :=
  match List.find LLMEnricher.nonempty xs with
  | Some s => s
  | None => []
  end.

(** [l'] is [l] but for the six properties the personality analysis
    writes. *)
Definition same_but_analysis (l l' : lead) : Prop :=
  l' = set_ready_for_outreach (ready_for_outreach l')
         (set_personality_metadata (personality_metadata l')
            (set_last_personality_analysis (last_personality_analysis l')
               (set_personality_sources (personality_sources l')
                  (set_personality_analysis (personality_analysis l')
                     (set_scraped_content (scraped_content l') l))))).

(** From [w] to [w'] only searches, page requests and model calls were
    made, and no more of each than the three bounds. *)
Definition cost_within (searches fetches chats : nat) (w w' : world) : Prop :=
  exists cs, calls w' = calls w ++ cs
    /\ Forall (fun c => is_search c || is_fetch c || is_chat c = true) cs
    /\ length (List.filter is_search cs) <= searches
    /\ length (List.filter is_fetch cs) <= fetches
    /\ length (List.filter is_chat cs) <= chats.

(** A list of indexed leads in descending order of score: no lead has a
    higher score than one before it. *)
Fixpoint descending (xs : list (nat * lead)) : Prop :=
  match xs with
  | [] => True
  | x :: rest =>
      Forall (fun y => (EnrichNode.score_or_zero y.2 <= EnrichNode.score_or_zero x.2)%Q) rest
      /\ descending rest
  end.

(** A reader of comma-separated values: fields are separated by commas and
    records by line feeds; a field that starts with a quote runs to the
    next quote that is not doubled, and a doubled quote in it stands for a
    quote. The field and the record being read are kept in reverse. *)
Inductive csv_state := AtStart | InPlain | InQuoted | AfterQuote.

Fixpoint read_csv (st : csv_state) (field : jsstring) (record : list jsstring) (s : jsstring)
  : option (list (list jsstring)) :=
  match s with
  | [] =>
      match st with
      | InQuoted => None
      | _ => Some [rev (rev field :: record)]
      end
  | c :: r =>
      match st with
      | InQuoted =>
          if N.eqb c 34 then read_csv AfterQuote field record r
          else read_csv InQuoted (c :: field) record r
      | AfterQuote =>
          if N.eqb c 34 then read_csv InQuoted (c :: field) record r
          else if N.eqb c 44 then read_csv AtStart [] (rev field :: record) r
          else if N.eqb c 10
               then cons (rev (rev field :: record)) <$> read_csv AtStart [] [] r
               else None
      | _ =>
          if N.eqb c 44 then read_csv AtStart [] (rev field :: record) r
          else if N.eqb c 10
               then cons (rev (rev field :: record)) <$> read_csv AtStart [] [] r
               else if N.eqb c 34
                    then match st with
                         | AtStart => read_csv InQuoted [] record r
                         | _ => None
                         end
                    else read_csv InPlain (c :: field) record r
      end
  end.

Definition read_table (s : jsstring) : option (list (list jsstring)) := read_csv AtStart [] [] s.

(** The text of a value: [''] for what is falsy. *)
Definition text_of (v : field) : jsstring := if truthy v then to_string v else [].

(** What follows a field: nothing, a comma or a line feed. *)
Definition ends_field (tail : jsstring) : Prop :=
  match tail with
  | [] => True
  | c :: _ => c = 44%N \/ c = 10%N
  end.

(** Reading on from the end of a field. *)
Definition after_field (text : jsstring) (record : list jsstring) (tail : jsstring)
  : option (list (list jsstring)) :=
  match tail with
  | [] => Some [rev (text :: record)]
  | c :: r =>
      if N.eqb c 44 then read_csv AtStart [] (text :: record) r
      else cons (rev (text :: record)) <$> read_csv AtStart [] [] r
  end.

(** What follows a record: nothing or a line feed. *)
Definition ends_record (tail : jsstring) : Prop :=
  match tail with
  | [] => True
  | c :: _ => c = 10%N
  end.


(** ** Concrete leads and providers *)

Module Examples.

(** A lead as the search stage creates it. *)
Definition new_lead (name title company email linkedin_url : field) (score : jsnum) : lead :=
  mkLead name title company email linkedin_url (JStr (lit "France")) score JUndefined
    None JUndefined false false false false JUndefined JUndefined None
    None None None None JUndefined None None None JUndefined JUndefined JUndefined.

Definition jane : lead :=
  new_lead (JStr (lit "Jane Doe")) (JStr (lit "CTO")) (JStr (lit "Acme"))
    (JStr (lit "jane@financialservic.com.fr"))
    (JStr (lit "https://news.example.com/article")) (Some (9 # 10)%Q).

Definition paul : lead :=
  new_lead (JStr (lit "Paul Martin")) (JStr (lit "Directeur")) (JStr (lit "Banque Un"))
    (JStr (lit "paul.martin@banque-un.fr"))
    (JStr (lit "https://www.linkedin.com/in/paulmartin")) (Some (1 # 2)%Q).

Definition bnp : lead :=
  new_lead (JStr (lit "BNP Paribas")) (JStr (lit "Professional")) (JStr (lit "Company"))
    JNull JUndefined (Some (7 # 10)%Q).

Definition start : world := mkWorld [] 0.

(** Providers that are down: searches find nothing, pages are empty, the
    model call throws. *)
Definition down : providers :=
  {| jina_search := fun _ _ _ => Returned [];
     jina_readWebsite := fun _ _ => Returned [];
     reader_get := fun _ _ => Threw (lit "timeout");
     chat_create := fun _ _ => Threw (lit "429 rate limit");
     gather_enrichment := fun _ _ => Threw (lit "Jina API key not configured");
     clock_iso := fun n => lit "2025-01-01T00:00:0" ++ digits (N.of_nat n) ++ lit "Z";
     clock_ms := fun n => N.of_nat n;
     toLowerCase := fun s => s |}.

(** A search hit for a page of the given address. *)
Definition hit (url : String.string) : search_hit :=
  mkHit (JStr (lit url)) (JStr (lit url)) (JStr (lit "Jane Doe")) (JStr (lit "CTO"))
    (JStr (lit "Acme")) JUndefined JUndefined.

(** A page long enough to count as content. *)
Definition page : jsstring := repeat 120%N 120.

(** Providers that answer: one site is found and read, and the model
    returns a JSON text. *)
Definition answering : providers :=
  {| jina_search := fun _ _ _ => Returned [hit "https://acme.example/team/jane"];
     jina_readWebsite := fun _ _ => Returned page;
     reader_get := fun _ _ => Returned page;
     chat_create := fun _ _ => Returned (JStr (lit "{}"));
     gather_enrichment := fun _ _ =>
       Returned (mkEnrichment [] [] (mkAdditionalInfo [] [] [] [] [] [] []) (lit "2025-01-01"));
     clock_iso := clock_iso down;
     clock_ms := clock_ms down;
     toLowerCase := fun s => s |}.


(** An answer of the model that leaves every key out but the quality. *)
Definition low_quality_answer : model_analysis :=
  mkModelAnalysis None None None None None None None None JUndefined (JStr (lit "low")) JUndefined.

(** A lead with a successful analysis. *)
Definition done_analysis : analysis :=
  EnrichNode.structuredAnalysis low_quality_answer (lit "2025-01-01T00:00:00Z") 1.
Definition done_lead : lead := set_personality_analysis (Some done_analysis) paul.

(** A stored lead that the contact upgrade has updated. *)
Definition updated_lead : lead := set_rocketreach_updated true jane.

(** Parsers: one that reads every text as [low_quality_answer], one for
    which no text is JSON. *)
Definition reads_low_quality : FromJSON model_analysis :=
  fun _ => Returned (Some low_quality_answer).
Definition reads_nothing {A} : FromJSON A :=
  fun _ => Threw (lit "Unexpected end of JSON input").

End Examples.

(** * Properties *)

(** ** Field upgrade decisions *)

Section UpgradeDecider.

(** An empty or absent value is low quality: a value that is not low
    quality is non-empty. *)
Lemma low_quality_of_falsy f v : truthy v = false -> isLowQuality f v = true.
Proof.
  intros Hv. destruct f; cbn;
    unfold SearchNode.hasLowQualityEmail, SearchNode.hasLowQualityLinkedIn,
      SearchNode.hasLowQualityCompany; now rewrite Hv.
Qed.

Lemma isBetter_unfold f candidate current :
  isBetter f candidate current =
  negb (truthy current) || (isLowQuality f current && negb (isLowQuality f candidate)).
Proof.
  destruct f; cbn;
    unfold SearchNode.isEmailBetter, SearchNode.isLinkedInBetter, SearchNode.isCompanyBetter;
    destruct (truthy current); cbn; try reflexivity.
  - now destruct (SearchNode.hasLowQualityEmail current),
      (SearchNode.hasLowQualityEmail candidate).
  - now destruct (SearchNode.hasLowQualityLinkedIn current),
      (SearchNode.hasLowQualityLinkedIn candidate).
  - now destruct (SearchNode.hasLowQualityCompany current),
      (SearchNode.hasLowQualityCompany candidate).
Qed.

(** C1. For each of email, LinkedIn URL and company: a current value that is
    non-empty and not low quality is never replaced, whatever the candidate;
    a low-quality current value is replaced by a candidate that is not low
    quality. *)
Theorem upgrade_decider_monotone (f : contact_field) (candidate current : field) :
  (truthy current = true -> isLowQuality f current = false ->
   isBetter f candidate current = false)
  /\ (isLowQuality f current = true -> isLowQuality f candidate = false ->
      isBetter f candidate current = true).
Proof.
  rewrite isBetter_unfold. split.
  - intros Ht Hq. now rewrite Ht, Hq.
  - intros Hc Hn. rewrite Hc, Hn. cbn. apply orb_true_r.
Qed.

(** Two good addresses, and a placeholder address against a good one. *)
Lemma upgrade_decider_monotone_witness :
  isBetter Email (JStr (lit "j.doe@acme.com")) (JStr (lit "jane.doe@acme.com")) = false
  /\ isBetter Email (JStr (lit "jane.doe@acme.com")) (JStr (lit "jane@financialservic.com.fr")) = true.
Proof.
  split.
  - apply (proj1 (upgrade_decider_monotone Email _ _)); reflexivity.
  - apply (proj2 (upgrade_decider_monotone Email _ _)); reflexivity.
Defined.

(** The scenarios of the specification. *)
Example placeholder_email_is_replaced :
  SearchNode.isEmailBetter (JStr (lit "jane.doe@acme.com"))
    (JStr (lit "jane@financialservic.com.fr")) = true.
Proof. reflexivity. Qed.

Example linkedin_upgrade_one_way :
  SearchNode.isLinkedInBetter (JStr (lit "https://linkedin.com/in/janedoe"))
    (JStr (lit "https://news.example.com/article")) = true
  /\ SearchNode.isLinkedInBetter (JStr (lit "https://news.example.com/article"))
       (JStr (lit "https://linkedin.com/in/janedoe")) = false.
Proof. split; reflexivity. Qed.

End UpgradeDecider.

(** ** Duplicates *)

Section Dedup.
Import SearchNode.



Lemma removeDuplicateLeads_from_sublist seen ls :
  sublist (removeDuplicateLeads_from seen ls) ls.
Proof.
  revert seen. induction ls as [|l rest IH]; intros seen; cbn; [constructor|].
  destruct (decide _); [apply sublist_cons | apply sublist_skip]; apply IH.
Qed.

Lemma removeDuplicateLeads_from_keys seen ls k :
  k ∈ dedup_key <$> removeDuplicateLeads_from seen ls
  <-> ((k ∉ seen) /\ (k ∈ dedup_key <$> ls)).
Proof.
  revert seen. induction ls as [|l rest IH]; intros seen; cbn.
  - rewrite elem_of_nil. tauto.
  - destruct (decide (dedup_key l ∈ seen)) as [Hin|Hnotin].
    + rewrite IH, elem_of_cons. split; [tauto|]. intros [? [->|?]]; tauto.
    + cbn. rewrite !elem_of_cons, IH, elem_of_union, elem_of_singleton.
      destruct (decide (k = dedup_key l)) as [->|Hne]; tauto.
Qed.

Lemma removeDuplicateLeads_from_NoDup seen ls :
  NoDup (dedup_key <$> removeDuplicateLeads_from seen ls).
Proof.
  revert seen. induction ls as [|l rest IH]; intros seen; cbn; [constructor|].
  destruct (decide (dedup_key l ∈ seen)) as [Hin|Hnotin]; [apply IH|].
  cbn. constructor; [|apply IH].
  rewrite removeDuplicateLeads_from_keys, elem_of_union, elem_of_singleton. tauto.
Qed.



End Dedup.

(** ** The content sent to the model *)

Section Truncation.
Import EnrichNode.
Context (P : providers) {parse_analysis : FromJSON model_analysis}.

Lemma combinedContent_over (websiteContents : list jsstring) :
  maxLength < length (join separator websiteContents) ->
  combinedContent websiteContents
  = take maxLength (join separator websiteContents) ++ truncation_marker.
Proof.
  intros Hlong. unfold combinedContent, substring0.
  now destruct (Nat.ltb_spec maxLength (length (join separator websiteContents))); [|lia].
Qed.

Lemma combinedContent_within (websiteContents : list jsstring) :
  length (join separator websiteContents) <= maxLength ->
  combinedContent websiteContents = join separator websiteContents.
Proof.
  intros Hshort. unfold combinedContent.
  now destruct (Nat.ltb_spec maxLength (length (join separator websiteContents))); [lia|].
Qed.

(** The summarizer makes one provider call, the model request that carries
    [combinedContent], and returns an analysis whatever the answer. *)
Lemma generatePersonalitySummary_calls person websiteContents w :
  calls (generatePersonalitySummary P person websiteContents w).2
  = calls w ++ [CallChat (IntelligencePrompt person (combinedContent websiteContents))].
Proof.
  unfold generatePersonalitySummary.
  generalize (combinedContent websiteContents) as content. intros content.
  unfold bind, perform.
  destruct (chat_create P w _) as [[| |rawContent]|message]; cbn; try reflexivity.
  destruct (JSON_parse rawContent) as [[a|]|m]; reflexivity.
Qed.

(** C5. Content whose concatenation exceeds the budget of 90,000 characters
    is cut to exactly the budget and the truncation marker is appended;
    content within the budget is sent as it is; so what goes to the model is
    at most budget plus marker long, and it is what the one model request
    of the summarizer carries. The summarizer is a total function: it
    returns an analysis for every input. *)
Theorem truncation_safety (person : field) (websiteContents : list jsstring) (w : world) :
  (maxLength < length (join separator websiteContents) ->
     combinedContent websiteContents
     = take maxLength (join separator websiteContents) ++ truncation_marker
     /\ length (combinedContent websiteContents) = maxLength + length truncation_marker)
  /\ (length (join separator websiteContents) <= maxLength ->
      combinedContent websiteContents = join separator websiteContents)
  /\ length (combinedContent websiteContents) <= maxLength + length truncation_marker
  /\ calls (generatePersonalitySummary P person websiteContents w).2
     = calls w ++ [CallChat (IntelligencePrompt person (combinedContent websiteContents))].
Proof.
  split; [|split; [|split]].
  - intros Hlong. split; [now apply combinedContent_over|].
    rewrite (combinedContent_over _ Hlong), length_app, length_take. lia.
  - apply combinedContent_within.
  - destruct (Nat.lt_ge_cases maxLength (length (join separator websiteContents)))
      as [Hlong|Hshort].
    + rewrite (combinedContent_over _ Hlong), length_app, length_take. lia.
    + rewrite (combinedContent_within _ Hshort). lia.
  - apply generatePersonalitySummary_calls.
Qed.

End Truncation.

(** One source of 90,001 characters. *)
Lemma truncation_safety_witness :
  EnrichNode.combinedContent [repeat 97%N 90001]
  = take EnrichNode.maxLength (repeat 97%N 90001) ++ EnrichNode.truncation_marker
  /\ length (EnrichNode.combinedContent [repeat 97%N 90001])
     = EnrichNode.maxLength + length EnrichNode.truncation_marker.
Proof.
  refine (proj1 (truncation_safety Examples.down (parse_analysis := Examples.reads_nothing)
                   JUndefined [repeat 97%N 90001] Examples.start) _).
  apply Nat.ltb_lt. vm_compute. reflexivity.
Defined.

(** ** The result of the summarizer *)

Section Summarizer.
Import EnrichNode.
Context (P : providers) {parse_analysis : FromJSON model_analysis}.

Lemma generatePersonalitySummary_answered person websiteContents w rawContent :
  chat_create P w (IntelligencePrompt person (combinedContent websiteContents))
  = Returned (JStr rawContent) ->
  (generatePersonalitySummary P person websiteContents w).1
  = match JSON_parse rawContent with
    | Returned (Some a) =>
        structuredAnalysis a (clock_iso P (clock_reads w)) (length websiteContents)
    | _ => fallbackAnalysis rawContent (clock_iso P (clock_reads w)) (length websiteContents)
    end.
Proof.
  intros Hanswer. unfold generatePersonalitySummary, bind, perform.
  rewrite Hanswer. destruct (JSON_parse rawContent) as [[a|]|m]; reflexivity.
Qed.

Lemma structuredAnalysis_categories a t n :
  Forall (fun c => c.1.2 (structuredAnalysis a t n)
                   = match c.1.1 a with Some items => Some items | None => Some [c.2] end)
    categories.
Proof. repeat constructor. Qed.

Lemma fallbackAnalysis_categories rawContent t n :
  Forall (fun c => c.1.2 (fallbackAnalysis rawContent t n)
                   = if bool_decide (c.2 = lit "Standard industry discussion topics")
                     then Some [lit "Standard professional outreach recommended"]
                     else Some [parsing_error_placeholder])
    categories.
Proof. repeat constructor. Qed.

(** C6, as the code has it. When the model call returns a text, the result
    holds every category key. If the text parses to an object, each category
    is the model's list, or the placeholder of the category where the model
    left it out. If it does not parse (or parses to [null]), the result is
    the degraded analysis: every category holds the parsing-error
    placeholder except [outreach_angles], which holds the standard-outreach
    placeholder; the quality is ['low'], [error] is set and the first 500
    characters of the text are attached. *)
Theorem summary_has_every_category_when_answered
    (person : field) (websiteContents : list jsstring) (w : world) (rawContent : jsstring) :
  chat_create P w (IntelligencePrompt person (combinedContent websiteContents))
  = Returned (JStr rawContent) ->
  let result := (generatePersonalitySummary P person websiteContents w).1 in
  has_every_category result = true
  /\ (forall a, JSON_parse rawContent = Returned (Some a) ->
        error result = JUndefined
        /\ Forall (fun c => c.1.2 result
                            = match c.1.1 a with Some items => Some items | None => Some [c.2] end)
             categories)
  /\ ((forall a, JSON_parse rawContent <> Returned (Some a)) ->
        Forall (fun c => c.1.2 result
                         = if bool_decide (c.2 = lit "Standard industry discussion topics")
                           then Some [lit "Standard professional outreach recommended"]
                           else Some [parsing_error_placeholder])
          categories
        /\ intelligence_quality result = JStr (lit "low")
        /\ error result = JStr (lit "JSON parsing failed")
        /\ raw_response result = JStr (take 500 rawContent)).
Proof.
  intros Hanswer result. unfold result.
  rewrite (generatePersonalitySummary_answered _ _ _ _ Hanswer).
  split; [|split].
  - destruct (JSON_parse rawContent) as [[a|]|m]; try reflexivity.
    unfold has_every_category. cbn.
    now destruct (model_current_projects a), (model_recent_developments a),
      (model_strategic_priorities a), (model_industry_involvement a),
      (model_company_context a), (model_competitive_intelligence a),
      (model_outreach_angles a), (model_recent_quotes_or_statements a).
  - intros a ->. split; [reflexivity|apply structuredAnalysis_categories].
  - intros Hfail.
    assert (Hresult : match JSON_parse rawContent with
                      | Returned (Some a) =>
                          structuredAnalysis a (clock_iso P (clock_reads w)) (length websiteContents)
                      | _ => fallbackAnalysis rawContent (clock_iso P (clock_reads w))
                               (length websiteContents)
                      end
                      = fallbackAnalysis rawContent (clock_iso P (clock_reads w))
                          (length websiteContents)).
    { destruct (JSON_parse rawContent) as [[a|]|m]; try reflexivity.
      now destruct (Hfail a). }
    rewrite Hresult. split; [apply fallbackAnalysis_categories|].
    repeat split.
Qed.

(** When the model call throws, or returns no text, the result is the
    reduced error object: it holds no category key. *)
Lemma summary_without_answer person websiteContents w :
  (forall rawContent,
     chat_create P w (IntelligencePrompt person (combinedContent websiteContents))
     <> Returned (JStr rawContent)) ->
  let result := (generatePersonalitySummary P person websiteContents w).1 in
  Forall (fun c => c.1.2 result = None) categories
  /\ (exists message, error result = JStr message)
  /\ intelligence_quality result = JStr (lit "low").
Proof.
  intros Hno result. unfold result, generatePersonalitySummary, bind, perform.
  destruct (chat_create P w _) as [[| |rawContent]|message]; cbn.
  - repeat split; [repeat constructor|eauto].
  - repeat split; [repeat constructor|eauto].
  - now destruct (Hno rawContent).
  - repeat split; [repeat constructor|eauto].
Qed.

End Summarizer.

(** C6 as stated fails. When the model call throws, the result of the
    summarizer lacks the category keys; and when the answer does not parse,
    [outreach_angles] does not hold the parsing-error placeholder. *)
Lemma summary_lacks_categories_when_provider_throws :
  has_every_category
    (EnrichNode.generatePersonalitySummary Examples.down
       (parse_analysis := Examples.reads_low_quality)
       (JStr (lit "Jane Doe")) [Examples.page] Examples.start).1 = false
  /\ outreach_angles
       (EnrichNode.generatePersonalitySummary Examples.answering
          (parse_analysis := Examples.reads_nothing)
          (JStr (lit "Jane Doe")) [Examples.page] Examples.start).1
     <> Some [EnrichNode.parsing_error_placeholder].
Proof. split; [reflexivity|]. vm_compute. discriminate. Qed.

(** An answer that leaves every category out. *)
Lemma summary_has_every_category_when_answered_witness :
  has_every_category
    (EnrichNode.generatePersonalitySummary Examples.answering (parse_analysis := Examples.reads_low_quality)
       (JStr (lit "Jane Doe")) [Examples.page] Examples.start).1 = true.
Proof.
  refine (proj1 (summary_has_every_category_when_answered Examples.answering
                   (parse_analysis := Examples.reads_low_quality)
                   (JStr (lit "Jane Doe")) [Examples.page] Examples.start (lit "{}") _)).
  reflexivity.
Defined.

(** ** The enrichment pass on one lead *)

Section EnrichmentPass.
Import EnrichNode.
Context (P : providers) {parse_analysis : FromJSON model_analysis}.






(** The summarizer never sets [confidence_level]. *)
Lemma summary_confidence_level person websiteContents w :
  confidence_level (generatePersonalitySummary P person websiteContents w).1 = JUndefined.
Proof.
  unfold generatePersonalitySummary, bind, perform.
  destruct (chat_create P w _) as [[| |rawContent]|message]; try reflexivity.
  destruct (JSON_parse rawContent) as [[a|]|m]; reflexivity.
Qed.

(** So where a pass sets the flag after a summary, the flag only says
    that the summary has no error; the quality is not looked at. *)
Lemma ready_for_outreach_is_no_error l w :
  (exists websiteContents w1,
      websiteContents <> [] /\
      ready_for_outreach (analyse P l w).1
      = Some (negb (truthy (error (generatePersonalitySummary P (name l) websiteContents w1).1))))
  \/ ready_for_outreach (analyse P l w).1 = Some false
  \/ ready_for_outreach (analyse P l w).1 = ready_for_outreach l.
Proof.
  unfold analyse, bind.
  destruct (collect P _ _ _ w) as [[[[linkedinUrls websitesToScrape] websiteContents]|] w1].
  2:{ right. right. reflexivity. }
  destruct (Nat.eqb (length websiteContents) 0) eqn:Hempty.
  { right. left. reflexivity. }
  left. exists websiteContents, w1. split.
  { intros ->. discriminate. }
  pose proof (summary_confidence_level (name l) websiteContents w1) as Hlevel.
  destruct (generatePersonalitySummary P (name l) websiteContents w1) as [pa w2].
  destruct (stamp P linkedin_source _ w2) as [references w3].
  destruct (stamp P scraped_source _ w3) as [sites w4]. cbn in *.
  rewrite Hlevel. cbn. now rewrite andb_true_r.
Qed.

End EnrichmentPass.


(** C2 on a concrete run: the model rates its answer ['low'], the analysis
    has no error, and the lead is flagged ready for outreach. *)
Theorem low_quality_analysis_is_flagged_ready :
  let after := (EnrichNode.enrichLeadWithPersonalityAnalysis Examples.answering
                  (parse_analysis := Examples.reads_low_quality) Examples.jane Examples.start).1 in
  (error <$> personality_analysis after) = Some JUndefined
  /\ (intelligence_quality <$> personality_analysis after) = Some (JStr (lit "low"))
  /\ ready_for_outreach after = Some true.
Proof. vm_compute. repeat split. Qed.

(** ** Leads that are done *)

Section Idempotence.
Import EnrichNode.
Context (P : providers) {parse_analysis : FromJSON model_analysis}.

Lemma elem_of_insert_by_score x y sorted :
  x ∈ insert_by_score y sorted -> x = y \/ x ∈ sorted.
Proof.
  induction sorted as [|z rest IH]; cbn.
  - intros Hin%list_elem_of_singleton. now left.
  - destruct (negb _).
    + intros [->|Hin]%elem_of_cons; [right; left|].
      destruct (IH Hin) as [->|Hrest]; [now left|right; now right].
    + intros [->|Hin]%elem_of_cons; [now left|now right].
Qed.

Lemma elem_of_sort_by_score x xs : x ∈ sort_by_score xs -> x ∈ xs.
Proof.
  unfold sort_by_score. induction xs as [|y rest IH]; cbn; [easy|].
  intros [->|Hin]%elem_of_insert_by_score; [left|right; auto].
Qed.

(** The selected leads are leads of the state without a successful
    analysis, each at its index. *)
Lemma elem_of_selection j lj leads :
  (j, lj) ∈ selection leads -> leads !! j = Some lj /\ wants_analysis lj = true.
Proof.
  unfold selection. intros (i & Hi & _)%elem_of_take.
  apply list_elem_of_lookup_2, elem_of_sort_by_score in Hi.
  apply list_elem_of_In, filter_In in Hi as [Hi Hwants].
  apply list_elem_of_In, list_elem_of_lookup in Hi as [k Hk].
  rewrite list_lookup_imap in Hk.
  destruct (leads !! k) as [lk|] eqn:Hlk; [|discriminate].
  injection Hk as <- <-. now split.
Qed.

Lemma wants_analysis_done l a :
  personality_analysis l = Some a -> error a = JUndefined -> wants_analysis l = false.
Proof. unfold wants_analysis. now intros -> ->. Qed.

(** The loop rewrites the selected leads only. *)
Lemma enrichLeadsWithPersonalityData_other leads selected w i :
  i ∉ selected ->
  (enrichLeadsWithPersonalityData P leads selected w).1 !! i = leads !! i.
Proof.
  unfold enrichLeadsWithPersonalityData.
  revert leads w. induction selected as [|j rest IH]; intros leads w Hnot; [reflexivity|].
  apply not_elem_of_cons in Hnot as [Hne Hrest].
  cbn. unfold bind at 1.
  destruct (leads !! j) as [l|].
  - unfold bind at 1.
    destruct (enrichLeadWithPersonalityAnalysis P l w) as [l' w1]. cbn.
    rewrite IH by assumption. apply list_lookup_insert_ne. congruence.
  - cbn. now apply IH.
Qed.

(** C4. A lead that carries a [personality_analysis] without an [error] is
    returned as it is by the enrichment of one lead, with no provider call
    made; it is not among the leads selected for enrichment; and a run
    leaves it unchanged in the state. *)
Theorem done_lead_is_skipped (l : lead) (a : analysis) (w : world) (leads : list lead) (i : nat) :
  personality_analysis l = Some a -> error a = JUndefined ->
  enrichLeadWithPersonalityAnalysis P l w = (l, w)
  /\ (l ∉ leadsToEnrich leads)
  /\ (leads !! i = Some l -> (run P leads w).1 !! i = Some l).
Proof.
  intros Ha He. split; [|split].
  - unfold enrichLeadWithPersonalityAnalysis, has_successful_analysis. now rewrite Ha, He.
  - unfold leadsToEnrich. intros ([j lj] & Heq & Hin)%list_elem_of_fmap.
    cbn in Heq. subst lj.
    apply elem_of_selection in Hin as [_ Hwants].
    now rewrite (wants_analysis_done _ _ Ha He) in Hwants.
  - intros Hi. unfold run. rewrite enrichLeadsWithPersonalityData_other; [exact Hi|].
    intros ([j lj] & Heq & Hin)%list_elem_of_fmap.
    cbn in Heq. subst j.
    apply elem_of_selection in Hin as [Hj Hwants].
    rewrite Hi in Hj. injection Hj as <-.
    now rewrite (wants_analysis_done _ _ Ha He) in Hwants.
Qed.

End Idempotence.

(** A state with one lead to analyse and one that is done. *)
Lemma done_lead_is_skipped_witness :
  EnrichNode.enrichLeadWithPersonalityAnalysis Examples.answering
    (parse_analysis := Examples.reads_low_quality) Examples.done_lead Examples.start
  = (Examples.done_lead, Examples.start)
  /\ (Examples.done_lead ∉ EnrichNode.leadsToEnrich [Examples.jane; Examples.done_lead])
  /\ (EnrichNode.run Examples.answering (parse_analysis := Examples.reads_low_quality)
        [Examples.jane; Examples.done_lead] Examples.start).1 !! 1
     = Some Examples.done_lead.
Proof.
  destruct (done_lead_is_skipped Examples.answering (parse_analysis := Examples.reads_low_quality)
              Examples.done_lead Examples.done_analysis Examples.start
              [Examples.jane; Examples.done_lead] 1 eq_refl eq_refl) as (Hsame & Hout & Hrun).
  split; [exact Hsame | split; [exact Hout | exact (Hrun eq_refl)]].
Defined.

(** ** Validation *)

Section ValidationFailure.
Import SearchNode.
Context (P : providers) {parse_validations : FromJSON validation_response}.

Lemma for_each_app {A S} (body : S -> A -> M S) (xs ys : list A) (s : S) (w : world) :
  for_each body (xs ++ ys) s w
  = let (s', w') := for_each body xs s w in for_each body ys s' w'.
Proof.
  revert s w. induction xs as [|x rest IH]; intros s w; [reflexivity|].
  cbn. unfold bind. destruct (body s x w) as [s1 w1]. apply IH.
Qed.

(** The offsets of the batches: the [k]-th is [k * step]. *)
Lemma offsets_from_lookup fuel i step n k a :
  offsets_from fuel i step n !! k = Some a -> a = i + k * step.
Proof.
  revert i k. induction fuel as [|fuel IH]; intros i k;
    [cbn; rewrite lookup_nil; discriminate|].
  cbn [offsets_from]. destruct (Nat.ltb i n); [|rewrite lookup_nil; discriminate].
  destruct k as [|k]; cbn.
  - intros [= <-]. lia.
  - intros Hk%IH. lia.
Qed.

(** The loop does not stop early: with a positive step, every multiple of
    the step below [n] is an offset. *)
Lemma offsets_from_complete fuel i step n k :
  0 < step -> n <= i + fuel -> i + k * step < n ->
  offsets_from fuel i step n !! k = Some (i + k * step).
Proof.
  intros Hstep. revert i k. induction fuel as [|fuel IH]; intros i k Hfuel Hk; [lia|].
  cbn [offsets_from]. destruct (Nat.ltb_spec i n) as [_|Hge]; [|lia].
  destruct k as [|k]; cbn.
  - f_equal. lia.
  - rewrite IH by lia. f_equal. lia.
Qed.

(** Every lead is in a batch. *)
Lemma every_lead_is_in_a_batch (n j : nat) :
  j < n ->
  exists k i, batch_offsets batchSize n !! k = Some i /\ i <= j < i + batchSize.
Proof.
  intros Hj. exists (j / batchSize), (j / batchSize * batchSize).
  unfold batchSize in *.
  pose proof (Nat.div_mod_eq j 10) as Hdiv.
  pose proof (Nat.mod_upper_bound j 10 ltac:(lia)) as Hmod.
  split; [|lia].
  unfold batch_offsets. rewrite offsets_from_complete by lia. f_equal.
Qed.

Lemma later_offsets step n k i x :
  batch_offsets step n !! k = Some i ->
  x ∈ drop (S k) (batch_offsets step n) -> i + step <= x.
Proof.
  unfold batch_offsets. intros Hi%offsets_from_lookup [m Hm]%list_elem_of_lookup.
  rewrite lookup_drop in Hm. apply offsets_from_lookup in Hm. nia.
Qed.

Lemma update_slice_lookup {A} i size (f : A -> A) xs j :
  update_slice i size f xs !! j
  = (if bool_decide (i <= j < i + size) then f else id) <$> xs !! j.
Proof.
  unfold update_slice. rewrite list_lookup_imap.
  destruct (xs !! j); cbn; [|reflexivity]. now destruct (bool_decide _).
Qed.

Lemma update_slice_length {A} i size (f : A -> A) xs :
  length (update_slice i size f xs) = length xs.
Proof. unfold update_slice. apply length_imap. Qed.

Lemma apply_validation_below i n leads v j :
  j < i -> (apply_validation i n leads v).1 !! j = leads !! j.
Proof.
  intros Hj. unfold apply_validation.
  destruct (v_index v) as [q|]; [|reflexivity].
  destruct (_ && _); [|reflexivity].
  destruct (Q_is_index q); [|reflexivity].
  cbn. apply list_lookup_alter_ne. lia.
Qed.

Lemma apply_validation_length i n leads v :
  length (apply_validation i n leads v).1 = length leads.
Proof.
  unfold apply_validation.
  destruct (v_index v) as [q|]; [|reflexivity].
  destruct (_ && _); [|reflexivity].
  destruct (Q_is_index q); [|reflexivity].
  cbn. apply length_alter.
Qed.

Lemma apply_validations_below i n leads vs j :
  j < i -> (apply_validations i n leads vs).1 !! j = leads !! j.
Proof.
  intros Hj. revert leads. induction vs as [|v rest IH]; intros leads; [reflexivity|].
  cbn. pose proof (apply_validation_below i n leads v j Hj) as Hstep.
  destruct (apply_validation i n leads v) as [leads' threw]. cbn in Hstep.
  destruct threw; [exact Hstep|]. now rewrite IH.
Qed.

Lemma apply_validations_length i n leads vs :
  length (apply_validations i n leads vs).1 = length leads.
Proof.
  revert leads. induction vs as [|v rest IH]; intros leads; [reflexivity|].
  cbn. pose proof (apply_validation_length i n leads v) as Hstep.
  destruct (apply_validation i n leads v) as [leads' threw]. cbn in Hstep.
  destruct threw; [exact Hstep|]. now rewrite IH.
Qed.

(** A batch leaves the leads before it alone and keeps the array as long as
    it was. *)
Lemma validate_batch_below leads i w j :
  j < i -> (validate_batch P leads i w).1 !! j = leads !! j.
Proof.
  intros Hj. unfold validate_batch, bind, perform, ret. cbn [fst snd].
  match goal with |- context [if (?a).2 then _ else _] => set (attempt := a) end.
  assert (Hattempt : attempt.1 !! j = leads !! j).
  { unfold attempt. destruct (chat_create P w _) as [content|m]; [|reflexivity].
    destruct (LLMEnricher.cleanAndParseJSON content) as [[result|]|m]; try reflexivity.
    destruct (validations result) as [vs|]; [|reflexivity].
    now apply apply_validations_below. }
  destruct (attempt.2); [|exact Hattempt].
  rewrite update_slice_lookup, Hattempt.
  rewrite bool_decide_eq_false_2 by lia. now destruct (leads !! j).
Qed.

Lemma validate_batch_length leads i w :
  length (validate_batch P leads i w).1 = length leads.
Proof.
  unfold validate_batch, bind, perform, ret. cbn [fst snd].
  match goal with |- context [if (?a).2 then _ else _] => set (attempt := a) end.
  assert (Hattempt : length attempt.1 = length leads).
  { unfold attempt. destruct (chat_create P w _) as [content|m]; [|reflexivity].
    destruct (LLMEnricher.cleanAndParseJSON content) as [[result|]|m]; try reflexivity.
    destruct (validations result) as [vs|]; [|reflexivity].
    apply apply_validations_length. }
  destruct (attempt.2); [|exact Hattempt].
  now rewrite update_slice_length.
Qed.

(** A batch that fails leaves each of its leads kept by default. *)
Lemma validate_batch_failed leads i w j :
  batch_fails P leads w i = true -> i <= j < i + batchSize ->
  (validate_batch P leads i w).1 !! j = keep_by_default <$> leads !! j.
Proof.
  intros Hfails Hj. unfold batch_fails in Hfails.
  unfold validate_batch, bind, perform, ret. cbn [fst snd].
  destruct (chat_create P w _) as [content|m].
  - destruct (LLMEnricher.cleanAndParseJSON content) as [[result|]|m]; try discriminate.
    cbn [fst snd]. rewrite update_slice_lookup. now rewrite bool_decide_eq_true_2 by lia.
  - cbn [fst snd]. rewrite update_slice_lookup. now rewrite bool_decide_eq_true_2 by lia.
Qed.

Lemma later_batches_below offsets leads w bound j :
  (forall x, x ∈ offsets -> bound <= x) -> j < bound ->
  (for_each (validate_batch P) offsets leads w).1 !! j = leads !! j.
Proof.
  revert leads w. induction offsets as [|i rest IH]; intros leads w Hall Hj; [reflexivity|].
  cbn [for_each]. unfold bind.
  pose proof (validate_batch_below leads i w j) as Hstep.
  destruct (validate_batch P leads i w) as [leads' w']. cbn in Hstep.
  rewrite IH; [| intros x Hx; apply Hall; now right | assumption].
  apply Hstep. specialize (Hall i (list_elem_of_here _ _)). lia.
Qed.

Lemma validateLeadsWithLLM_length_from offsets leads w :
  length (for_each (validate_batch P) offsets leads w).1 = length leads.
Proof.
  revert leads w. induction offsets as [|i rest IH]; intros leads w; [reflexivity|].
  cbn [for_each]. unfold bind.
  pose proof (validate_batch_length leads i w) as Hstep.
  destruct (validate_batch P leads i w) as [leads' w']. cbn in Hstep.
  now rewrite IH.
Qed.

(** C3. If the model call of a batch throws, or its answer does not parse,
    every lead of that batch ends valid with the reason
    ['Validation failed, kept by default']: the failure is handled inside
    [validateLeadsWithLLM], which returns the leads, all of them, for every
    behaviour of the provider. *)
Theorem validation_failure_keeps_batch (leads : list lead) (w : world) (k i : nat) :
  batch_offsets batchSize (length leads) !! k = Some i ->
  let before :=
    for_each (validate_batch P) (take k (batch_offsets batchSize (length leads))) leads w in
  batch_fails P before.1 before.2 i = true ->
  let after := (validateLeadsWithLLM P leads w).1 in
  length after = length leads
  /\ forall j l, i <= j < i + batchSize -> after !! j = Some l ->
       is_valid_person l = Some true
       /\ validation_reason l = JStr (lit "Validation failed, kept by default").
Proof.
  intros Hk before Hfails after. split.
  { apply validateLeadsWithLLM_length_from. }
  intros j l Hj. unfold after, validateLeadsWithLLM.
  rewrite <- (take_drop_middle _ _ _ Hk), for_each_app.
  fold before. destruct before as [leads_k w_k]. cbn in Hfails.
  cbn [for_each]. unfold bind.
  pose proof (validate_batch_failed leads_k i w_k j Hfails Hj) as Hbatch.
  destruct (validate_batch P leads_k i w_k) as [leads' w']. cbn in Hbatch.
  rewrite (later_batches_below _ _ _ (i + batchSize)) by
    (try lia; intros x Hx; eapply later_offsets; eassumption).
  rewrite Hbatch. destruct (leads_k !! j) as [l0|]; [|discriminate].
  intros [= <-]. split; reflexivity.
Qed.

End ValidationFailure.

(** The batch of three leads of the specification. *)
Lemma validation_failure_keeps_batch_witness :
  let after := (SearchNode.validateLeadsWithLLM Examples.down (parse_validations := Examples.reads_nothing)
                  [Examples.jane; Examples.paul; Examples.bnp] Examples.start).1 in
  length after = 3
  /\ forall j l, 0 <= j < 0 + SearchNode.batchSize -> after !! j = Some l ->
       is_valid_person l = Some true
       /\ validation_reason l = JStr (lit "Validation failed, kept by default").
Proof.
  exact (validation_failure_keeps_batch Examples.down (parse_validations := Examples.reads_nothing)
           [Examples.jane; Examples.paul; Examples.bnp] Examples.start 0 0 eq_refl eq_refl).
Defined.

(** ** Contact upgrade of stored leads *)

Section ContactUpgrade.
Import SearchNode.
Context (P : providers) {parse_contact : FromJSON contact_info}.

(** Each field update either changes the lead and records it, or does
    nothing. *)
Lemma apply_contact_updates_none c l :
  (apply_contact_updates c l).2 = [] -> (apply_contact_updates c l).1 = l.
Proof.
  unfold apply_contact_updates, upgrade_location, upgrade_title, upgrade_company,
    upgrade_linkedin, upgrade_email.
  destruct (truthy (ci_email c) && isEmailBetter (ci_email c) (email l)); cbn [fst snd];
    (destruct (truthy (ci_linkedin_url c) && _); cbn [fst snd]);
    (destruct (truthy (ci_company c) && _); cbn [fst snd]);
    (destruct (truthy (ci_title c) && _); cbn [fst snd]);
    (destruct (truthy (ci_location c) && _); cbn [fst snd]);
    intros Hnone; try reflexivity;
    apply (f_equal (fun x => length x)) in Hnone; rewrite ?length_app in Hnone;
    cbn in Hnone; lia.
Qed.

(** The upgrade of one stored lead: it is either updated and marked, or
    returned exactly as it was, without any mark. *)
Lemma update_lead_untouched_or_updated l w :
  (update_lead P l w).1 = l \/ rocketreach_updated (update_lead P l w).1 = true.
Proof.
  unfold update_lead, bind, perform, ret. cbn [fst snd].
  destruct (jina_search P w _ _) as [searchResults|m]; [|now left].
  destruct (List.filter is_rocketreach_hit searchResults) as [|bestResult others]; [now left|].
  destruct (extractRocketReachContactInfo P _ _ _) as [[contactInfo|] w1]; [|now left].
  pose proof (apply_contact_updates_none contactInfo l) as Hnone.
  destruct (apply_contact_updates contactInfo l) as [l' updates]. cbn [fst snd] in Hnone.
  destruct updates as [|u us]; cbn.
  - left. now apply Hnone.
  - now right.
Qed.

(** So a lead for which nothing was found is selected again by the next
    pass. *)
Lemma untouched_lead_is_selected_again l w :
  needsRocketReachUpdate l = true ->
  rocketreach_updated (update_lead P l w).1 = false ->
  (update_lead P l w).1 = l /\ needsRocketReachUpdate (update_lead P l w).1 = true.
Proof.
  intros Hneeds Hnot.
  destruct (update_lead_untouched_or_updated l w) as [Hsame|Hupdated]; [|congruence].
  rewrite Hsame. now split.
Qed.

(** The enrichment of new leads, for comparison: every turn leaves the lead
    marked, as attempted or as enriched, and the lead is not selected
    again. *)
Lemma enrich_lead_marks l w :
  needsEnrichment (enrich_lead P l w).1 = false.
Proof.
  unfold needsEnrichment, enrich_lead, bind, perform, ret. cbn [fst snd].
  destruct (jina_search P w _ _) as [searchResults|m]; [|cbn; apply andb_false_r].
  destruct (name l) as [| |n]; try (cbn; apply andb_false_r).
  destruct (List.filter _ searchResults) as [|bestResult others]; [cbn; apply andb_false_r|].
  destruct (extractRocketReachContactInfo P _ _ _) as [[contactInfo|] w1];
    [reflexivity | cbn; apply andb_false_r].
Qed.

End ContactUpgrade.

(** C9 on a concrete run: no RocketReach profile is found for a stored lead
    with a placeholder email. The pass returns the lead as it was, so its
    contact fields are unchanged, but nothing marks the attempt: the lead
    still needs an update, and the next pass searches for it again. *)
Theorem unmarked_lead_is_searched_again :
  let pass := SearchNode.updateExistingLeadsWithRocketReach Examples.down
                (parse_contact := Examples.reads_nothing) in
  let first := pass [Examples.jane] Examples.start in
  let second := pass first.1 first.2 in
  first.1 = [Examples.jane]
  /\ rocketreach_attempted <$> first.1 = [false]
  /\ SearchNode.needsRocketReachUpdate <$> first.1 = [true]
  /\ calls first.2 = [CallSearch (lit "Jane Doe rocket reach") 3]
  /\ calls second.2 = [CallSearch (lit "Jane Doe rocket reach") 3;
                       CallSearch (lit "Jane Doe rocket reach") 3].
Proof. vm_compute. repeat split. Qed.

(** The same lead as a new lead: the attempt is marked and the second pass
    makes no call. *)
Example marked_lead_is_not_searched_again :
  let pass := SearchNode.enrichLeadsWithRocketReach Examples.down
                (parse_contact := Examples.reads_nothing) in
  let first := pass [Examples.jane] Examples.start in
  let second := pass first.1 first.2 in
  rocketreach_attempted <$> first.1 = [true]
  /\ calls second.2 = [CallSearch (lit "Jane Doe rocket reach") 3].
Proof. vm_compute. repeat split. Qed.

(** ** The confidence score *)

Section ConfidenceScore.
Import SearchNode.
Context (P : providers) {parse_analysis : FromJSON model_analysis}
        {parse_contact : FromJSON contact_info}
        {parse_enhancements : FromJSON enhancement_response}.

Local Ltac split_ifs :=
  repeat match goal with
         | |- context [if ?b then _ else _] => destruct b
         end.

Lemma enhance_score e l :
  confidence_score (enhance e l)
  = if num_truthy (relevance_score e)
    then Math_max (confidence_score l) (relevance_score e)
    else confidence_score l.
Proof. unfold enhance. split_ifs; reflexivity. Qed.

Lemma enhance_score_grows e l q :
  confidence_score l = Some q ->
  exists q', confidence_score (enhance e l) = Some q' /\ (q <= q')%Q.
Proof.
  intros Hq. rewrite enhance_score, Hq.
  destruct (relevance_score e) as [r|]; cbn.
  - destruct (negb (Qeq_bool r 0)).
    + eexists. split; [reflexivity|apply Q.le_max_l].
    + eexists. split; [reflexivity|apply Qle_refl].
  - eexists. split; [reflexivity|apply Qle_refl].
Qed.

Lemma apply_contact_updates_score c l :
  confidence_score (apply_contact_updates c l).1 = confidence_score l.
Proof.
  unfold apply_contact_updates, upgrade_location, upgrade_title, upgrade_company,
    upgrade_linkedin, upgrade_email.
  destruct (truthy (ci_email c) && isEmailBetter (ci_email c) (email l)); cbn [fst snd];
    (destruct (truthy (ci_linkedin_url c) && _); cbn [fst snd]);
    (destruct (truthy (ci_company c) && _); cbn [fst snd]);
    (destruct (truthy (ci_title c) && _); cbn [fst snd]);
    (destruct (truthy (ci_location c) && _); cbn [fst snd]);
    reflexivity.
Qed.







(** The enhancement of a batch, entry by entry: every lead keeps its place
    and its score does not decrease. *)
Lemma scores_grow_refl batch : scores_grow batch batch.
Proof. intros j l q Hj Hq. exists l, q. repeat split; auto. apply Qle_refl. Qed.

Lemma scores_grow_trans a b c : scores_grow a b -> scores_grow b c -> scores_grow a c.
Proof.
  intros Hab Hbc j l q Hj Hq.
  destruct (Hab j l q Hj Hq) as (l1 & q1 & Hj1 & Hq1 & Hle1).
  destruct (Hbc j l1 q1 Hj1 Hq1) as (l2 & q2 & Hj2 & Hq2 & Hle2).
  exists l2, q2. repeat split; auto. eapply Qle_trans; eassumption.
Qed.

Lemma apply_enhancement_scores batch e : scores_grow batch (apply_enhancement batch e).1.
Proof.
  unfold apply_enhancement.
  destruct (enh_index e) as [leadIndex|]; [|apply scores_grow_refl].
  destruct (_ && _); [|apply scores_grow_refl].
  destruct (Q_is_index leadIndex); [|apply scores_grow_refl].
  cbn [fst]. intros j l q Hj Hq.
  destruct (decide (Q_to_nat leadIndex = j)) as [<-|Hne].
  - destruct (enhance_score_grows e l q Hq) as (q' & Hq' & Hle).
    exists (enhance e l), q'. rewrite list_lookup_alter_eq, Hj. auto.
  - exists l, q. rewrite list_lookup_alter_ne by assumption.
    repeat split; auto. apply Qle_refl.
Qed.

Lemma apply_enhancements_scores batch es : scores_grow batch (apply_enhancements batch es).1.
Proof.
  revert batch. induction es as [|e rest IH]; intros batch; [apply scores_grow_refl|].
  cbn [apply_enhancements].
  pose proof (apply_enhancement_scores batch e) as Hstep.
  destruct (apply_enhancement batch e) as [batch' threw]. cbn [fst] in Hstep.
  destruct threw; [exact Hstep|].
  eapply scores_grow_trans; [exact Hstep|apply IH].
Qed.

Lemma enhanceBatchWithLLM_scores batch mode w :
  scores_grow batch (enhanceBatchWithLLM P batch mode w).1.
Proof.
  unfold enhanceBatchWithLLM, bind, perform, ret. cbn [fst snd].
  destruct (chat_create P w _) as [content|m]; [|apply scores_grow_refl].
  destruct (LLMEnricher.cleanAndParseJSON content) as [[result|]|m];
    try apply scores_grow_refl.
  destruct (enhanced_leads result) as [es|]; [|apply scores_grow_refl].
  apply apply_enhancements_scores.
Qed.

End ConfidenceScore.


(** ** The contact passes on a list of leads *)

Section ContactPasses.
Import SearchNode.
Context (P : providers) {parse_contact : FromJSON contact_info}.

(** A pass that handles the selected leads in turn relates every lead to the
    lead at its place afterwards. *)
Lemma map_M_Forall2 {A B} (f : A -> M B) (R : A -> B -> Prop) (xs : list A) (w : world) :
  (forall x w', R x (f x w').1) -> Forall2 R xs (map_M f xs w).1.
Proof.
  intros Hf. revert w. induction xs as [|x rest IH]; intros w; [constructor|].
  cbn [map_M]. unfold bind.
  pose proof (Hf x w) as Hx. destruct (f x w) as [y w1].
  specialize (IH w1). destruct (map_M f rest w1) as [ys w2].
  cbn in *. now constructor.
Qed.

(** A pass over leads of which none is selected does nothing. *)
Lemma map_M_none_selected (select : lead -> bool) (f : lead -> M lead) (leads : list lead) w :
  Forall (fun l => select l = false) leads ->
  map_M (fun l => if select l then f l else ret l) leads w = (leads, w).
Proof.
  induction 1 as [|l rest Hl _ IH]; [reflexivity|].
  cbn [map_M]. unfold bind. rewrite Hl. unfold ret at 1. rewrite IH. reflexivity.
Qed.

Lemma needsRocketReachUpdate_issues l :
  needsRocketReachUpdate l
  = negb (rocketreach_updated l) && negb (bool_decide (identifyContactIssues l = [])).
Proof.
  unfold needsRocketReachUpdate, identifyContactIssues.
  destruct (rocketreach_updated l); [reflexivity|].
  now destruct (hasLowQualityEmail (email l)), (hasLowQualityLinkedIn (linkedin_url l)),
    (hasLowQualityCompany (company l)), (missingLocation l).
Qed.

(** A lead is selected for the contact upgrade exactly when it is not yet
    marked as updated and [identifyContactIssues] lists an issue for it; there
    are at most four issues. *)
Theorem selected_for_upgrade_iff_issue (l : lead) :
  (needsRocketReachUpdate l = true
   <-> rocketreach_updated l = false /\ identifyContactIssues l <> [])
  /\ length (identifyContactIssues l) <= 4.
Proof.
  split.
  - rewrite needsRocketReachUpdate_issues, andb_true_iff, !negb_true_iff,
      bool_decide_eq_false. reflexivity.
  - unfold identifyContactIssues.
    destruct (hasLowQualityEmail (email l)), (hasLowQualityLinkedIn (linkedin_url l)),
      (hasLowQualityCompany (company l)), (missingLocation l); cbn; lia.
Qed.

(** The five updates, field by field. *)
Lemma apply_contact_updates_fields c l :
  let l' := (apply_contact_updates c l).1 in
  name l' = name l
  /\ email l' = (if truthy (ci_email c) && isEmailBetter (ci_email c) (email l)
                 then ci_email c else email l)
  /\ linkedin_url l'
     = (if truthy (ci_linkedin_url c) && isLinkedInBetter (ci_linkedin_url c) (linkedin_url l)
        then ci_linkedin_url c else linkedin_url l)
  /\ company l' = (if truthy (ci_company c) && isCompanyBetter (ci_company c) (company l)
                   then ci_company c else company l)
  /\ title l' = (if truthy (ci_title c) && isTitleBetter (to_string (ci_title c)) (title l)
                 then ci_title c else title l)
  /\ location l' = (if truthy (ci_location c) && missingLocation l
                    then ci_location c else location l).
Proof.
  unfold apply_contact_updates, upgrade_location, upgrade_title, upgrade_company,
    upgrade_linkedin, upgrade_email, missingLocation.
  destruct (truthy (ci_email c) && isEmailBetter (ci_email c) (email l)); cbn [fst snd];
    (destruct (truthy (ci_linkedin_url c) && _); cbn [fst snd]);
    (destruct (truthy (ci_company c) && _); cbn [fst snd]);
    (destruct (truthy (ci_title c) && _); cbn [fst snd]);
    cbn [location set_email set_linkedin_url set_company set_title];
    (destruct (truthy (ci_location c) && _); cbn [fst snd]);
    repeat split.
Qed.

Lemma good_email_not_better c v : hasLowQualityEmail v = false -> isEmailBetter c v = false.
Proof.
  intros Hgood. unfold isEmailBetter. rewrite Hgood.
  unfold hasLowQualityEmail in Hgood. now destruct (truthy v).
Qed.

Lemma good_linkedin_not_better c v :
  hasLowQualityLinkedIn v = false -> isLinkedInBetter c v = false.
Proof.
  intros Hgood. unfold isLinkedInBetter. rewrite Hgood.
  unfold hasLowQualityLinkedIn in Hgood. now destruct (truthy v).
Qed.

Lemma good_company_not_better c v :
  hasLowQualityCompany v = false -> isCompanyBetter c v = false.
Proof.
  intros Hgood. unfold isCompanyBetter. rewrite Hgood.
  unfold hasLowQualityCompany in Hgood. now destruct (truthy v).
Qed.

Lemma upgrade_keeps_refl l : upgrade_keeps l l.
Proof. unfold upgrade_keeps. repeat split. Qed.

Lemma apply_contact_updates_keeps c l : upgrade_keeps l (apply_contact_updates c l).1.
Proof.
  destruct (apply_contact_updates_fields c l) as (Hn & He & Hl & Hc & _ & Hloc).
  pose proof (apply_contact_updates_score c l) as Hscore.
  unfold upgrade_keeps. repeat split; try assumption.
  - intros Hgood. rewrite He, (good_email_not_better _ _ Hgood). now rewrite andb_false_r.
  - intros Hgood. rewrite Hl, (good_linkedin_not_better _ _ Hgood). now rewrite andb_false_r.
  - intros Hgood. rewrite Hc, (good_company_not_better _ _ Hgood). now rewrite andb_false_r.
  - intros Hknown. rewrite Hloc, Hknown. now rewrite andb_false_r.
Qed.

(** The upgrade of one lead, with what it found. *)
Lemma update_lead_cases l w :
  (update_lead P l w).1 = l
  \/ (exists c bestResult t u us,
        is_rocketreach_hit bestResult = true
        /\ (apply_contact_updates c l).2 = u :: us
        /\ (update_lead P l w).1
           = set_rocketreach_updates (Some (u :: us))
               (set_rocketreach_update_timestamp (JStr t)
                  (set_rocketreach_url (hit_url bestResult)
                     (set_rocketreach_updated true (apply_contact_updates c l).1)))).
Proof.
  unfold update_lead, bind, perform, ret. cbn [fst snd].
  destruct (jina_search P w _ _) as [searchResults|m]; [|now left].
  destruct (List.filter is_rocketreach_hit searchResults) as [|bestResult others] eqn:Hfilter;
    [now left|].
  assert (Hbest : is_rocketreach_hit bestResult = true).
  { assert (Hin : In bestResult (List.filter is_rocketreach_hit searchResults))
      by (rewrite Hfilter; now left).
    now apply filter_In in Hin. }
  destruct (extractRocketReachContactInfo P _ _ _) as [[contactInfo|] w1]; [|now left].
  pose proof (apply_contact_updates_none contactInfo l) as Hnone.
  destruct (apply_contact_updates contactInfo l) as [l' updates] eqn:Happly.
  cbn [fst snd] in Hnone.
  destruct updates as [|u us]; cbn.
  - left. now apply Hnone.
  - right. exists contactInfo, bestResult, (clock_iso P (clock_reads w1)), u, us.
    rewrite Happly. cbn. repeat split. exact Hbest.
Qed.

Lemma update_lead_keeps l w : upgrade_keeps l (update_lead P l w).1.
Proof.
  destruct (update_lead_cases l w) as [->|(c & b & t & u & us & _ & _ & ->)];
    [apply upgrade_keeps_refl|].
  exact (apply_contact_updates_keeps c l).
Qed.

Lemma update_lead_marked l w :
  (update_lead P l w).1 = l \/ marked_updated (update_lead P l w).1.
Proof.
  destruct (update_lead_cases l w) as [->|(c & b & t & u & us & Hb & _ & ->)];
    [now left|right].
  unfold marked_updated. cbn. repeat split; eauto.
  unfold is_rocketreach_hit in Hb. now apply andb_true_iff in Hb as [H1 _].
Qed.

(** The contact upgrade never overwrites good data: for every stored lead
    the name and the score stay, an email, LinkedIn URL or company that is
    not low quality stays, a known location stays, and a lead that is
    already marked as updated stays as it is. *)
Theorem upgrade_pass_keeps_good_data (existingLeads : list lead) (w : world) :
  Forall2 (fun l l' => upgrade_keeps l l' /\ (rocketreach_updated l = true -> l' = l))
    existingLeads (updateExistingLeadsWithRocketReach P existingLeads w).1.
Proof.
  apply map_M_Forall2. intros l w'.
  destruct (needsRocketReachUpdate l) eqn:Hneeds.
  - split; [apply update_lead_keeps|].
    intros Hupdated. unfold needsRocketReachUpdate in Hneeds.
    now rewrite Hupdated in Hneeds.
  - split; [apply upgrade_keeps_refl|reflexivity].
Qed.

(** After the contact upgrade every lead is either exactly as it was, or
    marked as updated, with the address of the profile, a time stamp and a
    list of changes that is not empty. *)
Theorem upgrade_pass_marks_what_it_changes (existingLeads : list lead) (w : world) :
  Forall2 (fun l l' => l' = l \/ marked_updated l')
    existingLeads (updateExistingLeadsWithRocketReach P existingLeads w).1.
Proof.
  apply map_M_Forall2. intros l w'.
  destruct (needsRocketReachUpdate l); [apply update_lead_marked|now left].
Qed.

(** Leads that need no update, because they are marked as updated or have
    no issue, cost nothing: the pass makes no call and returns them as they
    are. *)
Theorem upgrade_pass_skips_leads_without_issue (existingLeads : list lead) (w : world) :
  Forall (fun l => rocketreach_updated l = true \/ identifyContactIssues l = []) existingLeads ->
  updateExistingLeadsWithRocketReach P existingLeads w = (existingLeads, w).
Proof.
  intros Hall. apply map_M_none_selected.
  eapply Forall_impl; [exact Hall|]. cbn. intros l Hl.
  rewrite needsRocketReachUpdate_issues.
  destruct Hl as [->| ->]; [reflexivity|]. cbn. apply andb_false_r.
Qed.

(** The contact enrichment of a new lead only fills gaps. *)
Lemma fill_in_keeps c l : enrichment_keeps l (fill_in c l).
Proof.
  unfold enrichment_keeps, fill_in. destruct l. cbn.
  repeat match goal with
         | |- context [if ?b then _ else _] => destruct b eqn:?; cbn
         end;
    repeat split; intros; try reflexivity;
    repeat match goal with
           | H : _ && _ = true |- _ => apply andb_true_iff in H as [? ?]
           | H : _ || _ = true |- _ => apply orb_true_iff in H as [?|?]
           | H : negb _ = true |- _ => apply negb_true_iff in H
           | H : bool_decide _ = true |- _ => apply bool_decide_eq_true in H
           end; cbn in *; congruence.
Qed.

Lemma enrichment_keeps_refl l : enrichment_keeps l l.
Proof. unfold enrichment_keeps. repeat split. Qed.

Lemma enrich_lead_keeps l w : enrichment_keeps l (enrich_lead P l w).1.
Proof.
  assert (Hmark : enrichment_keeps l (set_rocketreach_attempted true l))
    by (unfold enrichment_keeps; repeat split).
  unfold enrich_lead, bind, perform, ret. cbn [fst snd].
  destruct (jina_search P w _ _) as [searchResults|m]; [|exact Hmark].
  destruct (name l) as [| |n] eqn:Hname; try exact Hmark.
  destruct (List.filter _ searchResults) as [|bestResult others]; [exact Hmark|].
  destruct (extractRocketReachContactInfo P _ _ _) as [[contactInfo|] w1]; [|exact Hmark].
  cbn [fst]. pose proof (fill_in_keeps contactInfo l) as Hfill.
  exact Hfill.
Qed.

(** The contact enrichment of new leads only fills gaps, and it marks every
    lead: afterwards each lead is flagged as enriched or as attempted, its
    name and score are unchanged, and no contact field that was filled in
    has been replaced (but a company ['Unknown Company'] and a title
    ['Professional'], which count as gaps). *)
Theorem enrichment_pass_fills_gaps_and_marks (leads : list lead) (w : world) :
  Forall2 (fun l l' => enrichment_keeps l l' /\ needsEnrichment l' = false)
    leads (enrichLeadsWithRocketReach P leads w).1.
Proof.
  apply map_M_Forall2. intros l w'.
  destruct (needsEnrichment l) eqn:Hneeds.
  - split; [apply enrich_lead_keeps|apply enrich_lead_marks].
  - split; [apply enrichment_keeps_refl|exact Hneeds].
Qed.

Lemma enrichment_pass_marked (leads : list lead) (w : world) :
  Forall (fun l => needsEnrichment l = false) (enrichLeadsWithRocketReach P leads w).1.
Proof.
  assert (H : Forall2 (fun _ l' => needsEnrichment l' = false)
                leads (enrichLeadsWithRocketReach P leads w).1).
  { apply map_M_Forall2. intros l w'.
    destruct (needsEnrichment l) eqn:Hneeds; [apply enrich_lead_marks|exact Hneeds]. }
  induction H; constructor; assumption.
Qed.

(** The contact enrichment is idempotent: a second pass over the leads of a
    first pass makes no call and changes nothing. *)
Theorem enrichment_pass_idempotent (leads : list lead) (w : world) :
  let first := enrichLeadsWithRocketReach P leads w in
  forall w', enrichLeadsWithRocketReach P first.1 w' = (first.1, w').
Proof.
  intros first w'. apply map_M_none_selected.
  pose proof (enrichment_pass_marked leads w) as Hall.
  exact Hall.
Qed.

End ContactPasses.

(** A stored lead that is marked as updated and one with good contact data. *)
Lemma upgrade_pass_skips_leads_without_issue_witness :
  SearchNode.updateExistingLeadsWithRocketReach Examples.answering
    (parse_contact := Examples.reads_nothing) [Examples.updated_lead; Examples.paul] Examples.start
  = ([Examples.updated_lead; Examples.paul], Examples.start).
Proof.
  apply upgrade_pass_skips_leads_without_issue.
  constructor; [left; reflexivity|].
  constructor; [right; vm_compute; reflexivity|constructor].
Defined.
(** ** Passes over batches of leads *)

Section Stepwise.
Import SearchNode.
Context (R : lead -> lead -> Prop)
        (R_refl : forall l, R l l)
        (R_trans : forall a b c, R a b -> R b c -> R a c).

Lemma Forall2_same xs : Forall2 R xs xs.
Proof. induction xs; constructor; auto. Qed.

Lemma Forall2_then xs ys zs : Forall2 R xs ys -> Forall2 R ys zs -> Forall2 R xs zs.
Proof. apply Forall2_trans. exact R_trans. Qed.

Lemma Forall2_alter_step (f : lead -> lead) k xs xs' :
  (forall y, R y (f y)) -> Forall2 R xs xs' -> Forall2 R xs (alter f k xs').
Proof.
  intros Hf Hxs. apply Forall2_alter_r; [exact Hxs|].
  intros x y _ _ Hxy. eapply R_trans; [exact Hxy|apply Hf].
Qed.

Lemma Forall2_update_slice i size (f : lead -> lead) xs :
  (forall y, R y (f y)) -> Forall2 R xs (update_slice i size f xs).
Proof.
  intros Hf. apply Forall2_same_length_lookup_2; [now rewrite update_slice_length|].
  intros j x y Hx. rewrite update_slice_lookup, Hx. cbn.
  intros [= <-]. destruct (bool_decide _); [apply Hf|apply R_refl].
Qed.

Lemma for_each_Forall2 {A} (body : list lead -> A -> M (list lead)) (xs : list A) s w :
  (forall s x w', Forall2 R s (body s x w').1) ->
  Forall2 R s (for_each body xs s w).1.
Proof.
  intros Hbody. revert s w. induction xs as [|x rest IH]; intros s w; [apply Forall2_same|].
  cbn [for_each]. unfold bind. pose proof (Hbody s x w) as Hstep.
  destruct (body s x w) as [s1 w1]. cbn [fst] in Hstep.
  eapply Forall2_then; [exact Hstep|apply IH].
Qed.

End Stepwise.

Section BatchCalls.
Import SearchNode.

(** A loop whose every turn makes one model call makes as many calls as it
    has turns, and reads no clock. *)
Lemma for_each_one_chat {A S} (body : S -> A -> M S) (xs : list A) s w :
  (forall s x w', exists c, is_chat c = true
                            /\ (body s x w').2 = mkWorld (calls w' ++ [c]) (clock_reads w')) ->
  exists cs, (for_each body xs s w).2 = mkWorld (calls w ++ cs) (clock_reads w)
             /\ Forall (fun c => is_chat c = true) cs
             /\ length cs = length xs.
Proof.
  intros Hbody. revert s w. induction xs as [|x rest IH]; intros s w.
  - exists []. cbn. rewrite app_nil_r. destruct w. repeat split. constructor.
  - cbn [for_each]. unfold bind. destruct (Hbody s x w) as (c & Hc & Hw).
    destruct (body s x w) as [s1 w1]. cbn [snd] in Hw.
    destruct (IH s1 w1) as (cs & Hcs & Hall & Hlen).
    exists (c :: cs). rewrite Hcs, Hw. cbn [calls clock_reads].
    rewrite <- app_assoc. repeat split.
    + now constructor.
    + cbn. now rewrite Hlen.
Qed.

(** The number of turns of [for (let i = 0; i < n; i += step)]. *)
Lemma offsets_from_length fuel i step n :
  0 < step -> n <= i + fuel ->
  length (offsets_from fuel i step n) = (n - i + (step - 1)) / step.
Proof.
  intros Hstep. revert i. induction fuel as [|fuel IH]; intros i Hfuel.
  - cbn. replace (n - i) with 0 by lia. symmetry. apply Nat.div_small. lia.
  - cbn [offsets_from]. destruct (Nat.ltb_spec i n) as [Hlt|Hge].
    + cbn [length]. rewrite IH by lia.
      destruct (Nat.le_gt_cases (i + step) n) as [Hfar|Hnear].
      * replace (n - i + (step - 1)) with (n - (i + step) + (step - 1) + 1 * step) by lia.
        rewrite Nat.div_add by lia. lia.
      * replace (n - (i + step)) with 0 by lia.
        rewrite (Nat.div_small (0 + (step - 1))) by lia.
        apply (Nat.div_unique _ _ _ (n - i - 1)); lia.
    + cbn. replace (n - i) with 0 by lia. symmetry. apply Nat.div_small. lia.
Qed.

Lemma batch_offsets_length step n :
  0 < step -> length (batch_offsets step n) = (n + (step - 1)) / step.
Proof.
  intros Hstep. unfold batch_offsets. rewrite offsets_from_length by lia.
  now rewrite Nat.sub_0_r.
Qed.

End BatchCalls.

(** ** Validation: what it writes and what it costs *)

Section ValidationFrame.
Import SearchNode.
Context (P : providers) {parse_validations : FromJSON validation_response}.

Lemma same_but_validation_refl l : same_but_validation l l.
Proof. unfold same_but_validation. now destruct l. Qed.

Lemma same_but_validation_trans a b c :
  same_but_validation a b -> same_but_validation b c -> same_but_validation a c.
Proof.
  unfold same_but_validation. intros Hab Hbc. rewrite Hbc, Hab.
  now destruct a.
Qed.

Lemma same_but_validation_set v r l :
  same_but_validation l (set_validation_reason r (set_is_valid_person v l)).
Proof. unfold same_but_validation. now destruct l. Qed.

Lemma apply_validation_frame i n leads v :
  Forall2 same_but_validation leads (apply_validation i n leads v).1.
Proof.
  pose proof same_but_validation_refl as Hrefl.
  unfold apply_validation.
  destruct (v_index v) as [q|]; [|now apply Forall2_same].
  destruct (_ && _); [|now apply Forall2_same].
  destruct (Q_is_index q); [|now apply Forall2_same].
  cbn [fst]. apply (Forall2_alter_step _ same_but_validation_trans);
    [intros y; apply same_but_validation_set | now apply Forall2_same].
Qed.

Lemma apply_validations_frame i n leads vs :
  Forall2 same_but_validation leads (apply_validations i n leads vs).1.
Proof.
  revert leads. induction vs as [|v rest IH]; intros leads;
    [apply Forall2_same, same_but_validation_refl|].
  cbn [apply_validations]. pose proof (apply_validation_frame i n leads v) as Hstep.
  destruct (apply_validation i n leads v) as [leads' threw]. cbn [fst] in Hstep.
  destruct threw; [exact Hstep|].
  eapply Forall2_then; [exact same_but_validation_trans|exact Hstep|apply IH].
Qed.

Lemma validate_batch_frame leads i w :
  Forall2 same_but_validation leads (validate_batch P leads i w).1.
Proof.
  unfold validate_batch, bind, perform, ret. cbn [fst snd].
  match goal with |- context [if (?a).2 then _ else _] => set (attempt := a) end.
  assert (Hattempt : Forall2 same_but_validation leads attempt.1).
  { subst attempt. destruct (chat_create P w _) as [content|m];
      [|apply Forall2_same, same_but_validation_refl].
    destruct (LLMEnricher.cleanAndParseJSON content) as [[result|]|m];
      try apply Forall2_same, same_but_validation_refl.
    destruct (validations result) as [vs|];
      [apply apply_validations_frame|apply Forall2_same, same_but_validation_refl]. }
  destruct attempt.2; [|exact Hattempt].
  eapply Forall2_then; [exact same_but_validation_trans|exact Hattempt|].
  apply Forall2_update_slice; [exact same_but_validation_refl|].
  intros y. apply same_but_validation_set.
Qed.

Lemma validate_batch_world leads i w :
  exists c, is_chat c = true
            /\ (validate_batch P leads i w).2 = mkWorld (calls w ++ [c]) (clock_reads w).
Proof.
  unfold validate_batch, bind, perform, ret. cbn [fst snd]. eexists. split; [|reflexivity].
  reflexivity.
Qed.

Lemma validateLeadsWithLLM_frame leads w :
  Forall2 same_but_validation leads (validateLeadsWithLLM P leads w).1.
Proof.
  unfold validateLeadsWithLLM.
  apply for_each_Forall2;
    [exact same_but_validation_refl | exact same_but_validation_trans |].
  intros s x w'. apply validate_batch_frame.
Qed.

(** The validation writes nothing but its verdict, and costs one model call
    for every ten leads: each lead comes back in its place, the same but
    for [is_valid_person] and [validation_reason], and the calls made are
    model calls, one per batch of ten. *)
Theorem validation_writes_only_its_verdict (leads : list lead) (w : world) :
  let after := validateLeadsWithLLM P leads w in
  Forall2 same_but_validation leads after.1
  /\ exists cs, after.2 = mkWorld (calls w ++ cs) (clock_reads w)
                /\ Forall (fun c => is_chat c = true) cs
                /\ length cs = (length leads + 9) / 10.
Proof.
  cbv zeta. split; [apply validateLeadsWithLLM_frame|]. unfold validateLeadsWithLLM.
  destruct (for_each_one_chat (validate_batch P) (batch_offsets batchSize (length leads))
              leads w (fun s x w' => validate_batch_world s x w')) as (cs & Hw & Hall & Hlen).
  exists cs. repeat split; try assumption.
  rewrite Hlen. apply (batch_offsets_length 10). lia.
Qed.

End ValidationFrame.

(** ** Enhancement: what it keeps *)

Section EnhancementFrame.
Import SearchNode.
Context (P : providers) {parse_enhancements : FromJSON enhancement_response}.

Lemma score_grows_refl l : score_grows l l.
Proof. intros q Hq. exists q. split; [exact Hq|apply Qle_refl]. Qed.

Lemma score_grows_trans a b c : score_grows a b -> score_grows b c -> score_grows a c.
Proof.
  intros Hab Hbc q Hq. destruct (Hab q Hq) as (q1 & Hq1 & Hle1).
  destruct (Hbc q1 Hq1) as (q2 & Hq2 & Hle2).
  exists q2. split; [exact Hq2|]. eapply Qle_trans; eassumption.
Qed.

Lemma enhancement_keeps_refl l : enhancement_keeps l l.
Proof.
  unfold enhancement_keeps, same_but_enhancement.
  split; [now destruct l|]. repeat split; auto using score_grows_refl.
Qed.

Lemma enhancement_keeps_trans a b c :
  enhancement_keeps a b -> enhancement_keeps b c -> enhancement_keeps a c.
Proof.
  unfold enhancement_keeps, same_but_enhancement.
  intros (Hab & He1 & Hs1 & Ht1 & Hc1 & Hl1) (Hbc & He2 & Hs2 & Ht2 & Hc2 & Hl2).
  split; [|split; [|split; [|split; [|split]]]]; auto.
  - rewrite Hbc, Hab. now destruct a.
  - eapply score_grows_trans; eassumption.
Qed.

Lemma enhance_keeps e l : enhancement_keeps l (enhance e l).
Proof.
  unfold enhancement_keeps. split; [|split; [|split; [|split; [|split]]]].
  - unfold same_but_enhancement, enhance. destruct l. cbn.
    destruct (truthy (enhanced_title e)), (truthy (enhanced_company e)),
      (truthy (enhanced_location e)), (num_truthy (relevance_score e)); reflexivity.
  - intros _. unfold enhance. destruct l. cbn.
    destruct (truthy (enhanced_title e)), (truthy (enhanced_company e)),
      (truthy (enhanced_location e)), (num_truthy (relevance_score e)); reflexivity.
  - intros q Hq. exact (enhance_score_grows e l q Hq).
  - unfold enhance. destruct l. cbn. intros Ht.
    destruct (truthy (enhanced_title e)) eqn:He, (truthy (enhanced_company e)),
      (truthy (enhanced_location e)), (num_truthy (relevance_score e)); cbn; assumption.
  - unfold enhance. destruct l. cbn. intros Ht.
    destruct (truthy (enhanced_title e)), (truthy (enhanced_company e)) eqn:He,
      (truthy (enhanced_location e)), (num_truthy (relevance_score e)); cbn; assumption.
  - unfold enhance. destruct l. cbn. intros Ht.
    destruct (truthy (enhanced_title e)), (truthy (enhanced_company e)),
      (truthy (enhanced_location e)) eqn:He, (num_truthy (relevance_score e)); cbn; assumption.
Qed.

Lemma apply_enhancements_keeps batch es :
  Forall2 enhancement_keeps batch (apply_enhancements batch es).1.
Proof.
  revert batch. induction es as [|e rest IH]; intros batch;
    [apply Forall2_same, enhancement_keeps_refl|].
  cbn [apply_enhancements].
  assert (Hstep : Forall2 enhancement_keeps batch (apply_enhancement batch e).1).
  { unfold apply_enhancement.
    destruct (enh_index e) as [q|]; [|apply Forall2_same, enhancement_keeps_refl].
    destruct (_ && _); [|apply Forall2_same, enhancement_keeps_refl].
    destruct (Q_is_index q); [|apply Forall2_same, enhancement_keeps_refl].
    cbn [fst]. apply (Forall2_alter_step _ enhancement_keeps_trans);
      [intros y; apply enhance_keeps | apply Forall2_same, enhancement_keeps_refl]. }
  destruct (apply_enhancement batch e) as [batch' threw]. cbn [fst] in Hstep.
  destruct threw; [exact Hstep|].
  eapply Forall2_then; [exact enhancement_keeps_trans|exact Hstep|apply IH].
Qed.

Lemma enhanceBatchWithLLM_keeps batch mode w :
  Forall2 enhancement_keeps batch (enhanceBatchWithLLM P batch mode w).1.
Proof.
  unfold enhanceBatchWithLLM, bind, perform, ret. cbn [fst snd].
  destruct (chat_create P _ _) as [content|m]; [|apply Forall2_same, enhancement_keeps_refl].
  destruct (LLMEnricher.cleanAndParseJSON content) as [[result|]|m];
    try apply Forall2_same, enhancement_keeps_refl.
  destruct (enhanced_leads result) as [es|];
    [apply apply_enhancements_keeps|apply Forall2_same, enhancement_keeps_refl].
Qed.


(** A list is its batch at [i] between what is before and what is after. *)
Lemma slice_between {A} i size (xs : list A) :
  take i xs ++ slice i size xs ++ drop (i + size) xs = xs.
Proof.
  unfold slice. rewrite <- drop_drop, take_drop. apply take_drop.
Qed.

Lemma enhanceLeadsWithLLM_keeps leads mode w :
  Forall2 enhancement_keeps leads (enhanceLeadsWithLLM P leads mode w).1.
Proof.
  unfold enhanceLeadsWithLLM.
  apply for_each_Forall2; [exact enhancement_keeps_refl | exact enhancement_keeps_trans |].
  intros s i w'. unfold bind, ret.
  pose proof (enhanceBatchWithLLM_keeps (slice i 5 s) mode w') as Hbatch.
  destruct (enhanceBatchWithLLM P (slice i 5 s) mode w') as [batch' w1]. cbn [fst] in *.
  rewrite <- (slice_between i 5 s) at 1.
  apply Forall2_app; [apply Forall2_same, enhancement_keeps_refl|].
  apply Forall2_app; [exact Hbatch|apply Forall2_same, enhancement_keeps_refl].
Qed.


End EnhancementFrame.
(** ** Duplicates: a second removal finds nothing *)

Section DedupAgain.
Import SearchNode.

Lemma removeDuplicateLeads_from_fixed seen ls :
  NoDup (dedup_key <$> ls) -> (forall k, k ∈ dedup_key <$> ls -> k ∉ seen) ->
  removeDuplicateLeads_from seen ls = ls.
Proof.
  revert seen. induction ls as [|l rest IH]; intros seen Hnodup Hfresh; [reflexivity|].
  cbn. cbn in Hnodup. apply NoDup_cons in Hnodup as [Hl Hrest].
  destruct (decide (dedup_key l ∈ seen)) as [Hin|_].
  - exfalso. apply (Hfresh (dedup_key l)); [cbn; left|exact Hin].
  - f_equal. apply IH; [exact Hrest|].
    intros k Hk. rewrite elem_of_union, elem_of_singleton. intros [->|Hseen].
    + contradiction.
    + apply (Hfresh k); [cbn; now right|exact Hseen].
Qed.

(** Removing duplicates is idempotent; it changes nothing exactly when no
    two leads share a key; it never returns more leads than it gets, and
    the first lead always stays. *)
Theorem dedup_is_idempotent (leads : list lead) :
  removeDuplicateLeads (removeDuplicateLeads leads) = removeDuplicateLeads leads
  /\ (removeDuplicateLeads leads = leads <-> NoDup (dedup_key <$> leads))
  /\ length (removeDuplicateLeads leads) <= length leads
  /\ head (removeDuplicateLeads leads) = head leads.
Proof.
  assert (Hfixed : forall ls, NoDup (dedup_key <$> ls) -> removeDuplicateLeads ls = ls).
  { intros ls Hnodup. apply removeDuplicateLeads_from_fixed; [exact Hnodup|].
    intros k _. apply not_elem_of_empty. }
  repeat split.
  - apply Hfixed, removeDuplicateLeads_from_NoDup.
  - intros Heq. rewrite <- Heq. apply removeDuplicateLeads_from_NoDup.
  - apply Hfixed.
  - apply sublist_length, removeDuplicateLeads_from_sublist.
  - destruct leads as [|l rest]; [reflexivity|].
    unfold removeDuplicateLeads. cbn.
    destruct (decide (dedup_key l ∈ (∅ : gset jsstring))) as [Hin|_]; [|reflexivity].
    now apply not_elem_of_empty in Hin.
Qed.

End DedupAgain.

(** ** The search stage from the collected leads on *)

Section RunFromCollected.
Import SearchNode.
Context (P : providers) {parse_validations : FromJSON validation_response}
        {parse_enhancements : FromJSON enhancement_response}
        {parse_contact : FromJSON contact_info}.

Lemma Forall2_names (R : lead -> lead -> Prop) (xs ys : list lead) :
  (forall l l', R l l' -> name l' = name l) -> Forall2 R xs ys -> name <$> ys = name <$> xs.
Proof. intros HR. induction 1 as [|x y xs ys Hxy _ IH]; cbn; [reflexivity|]. f_equal; auto. Qed.

Lemma Forall2_Forall_r (R : lead -> lead -> Prop) (Q : lead -> Prop) (xs ys : list lead) :
  (forall l l', R l l' -> Q l') -> Forall2 R xs ys -> Forall Q ys.
Proof. intros HR. induction 1; constructor; eauto. Qed.

Lemma Forall2_Forall_lr (R : lead -> lead -> Prop) (Q : lead -> Prop) (xs ys : list lead) :
  (forall l l', R l l' -> Q l -> Q l') -> Forall2 R xs ys -> Forall Q xs -> Forall Q ys.
Proof.
  intros HR. induction 1 as [|x y xs ys Hxy _ IH]; intros Hall; [constructor|].
  apply Forall_cons in Hall as [Hx Hxs]. constructor; eauto.
Qed.

Lemma List_filter_sublist {A} (f : A -> bool) (xs : list A) : sublist (List.filter f xs) xs.
Proof.
  induction xs as [|x rest IH]; cbn; [constructor|].
  destruct (f x); [now apply sublist_skip|now apply sublist_cons].
Qed.

Lemma same_but_validation_name l l' : same_but_validation l l' -> name l' = name l.
Proof. unfold same_but_validation. intros ->. now destruct l. Qed.

Lemma same_but_enhancement_fields l l' :
  same_but_enhancement l l' ->
  name l' = name l /\ is_valid_person l' = is_valid_person l
  /\ needsEnrichment l' = needsEnrichment l.
Proof. unfold same_but_enhancement, needsEnrichment. intros ->. now destruct l. Qed.

Lemma enrich_lead_valid l w :
  is_valid_person (enrich_lead P l w).1 = is_valid_person l.
Proof.
  unfold enrich_lead, bind, perform, ret. cbn [fst snd].
  destruct (jina_search P w _ _) as [searchResults|m]; [|reflexivity].
  destruct (name l) as [| |n]; try reflexivity.
  destruct (List.filter _ searchResults) as [|bestResult others]; [reflexivity|].
  destruct (extractRocketReachContactInfo P _ _ _) as [[contactInfo|] w1]; [|reflexivity].
  cbn [fst]. unfold fill_in. destruct l. cbn.
  repeat match goal with
         | |- context [if ?b then _ else _] => destruct b; cbn
         end; reflexivity.
Qed.

(** The search stage keeps what is stored and screens what is new: the
    final list is the stored leads, every one in its place with its good
    data, followed by leads that come from the collected ones in their
    order; each of these is marked as enriched or attempted, and when the
    model is available none of them has been found invalid. *)
Theorem run_keeps_stored_and_screens_new
    (hasLLM : bool) (mode : field) (existingLeads allLeads : list lead) (w : world) :
  exists stored new,
    (run_from_collected P hasLLM mode existingLeads allLeads w).1 = stored ++ new
    /\ Forall2 (fun l l' => upgrade_keeps l l' /\ (rocketreach_updated l = true -> l' = l))
         existingLeads stored
    /\ sublist (name <$> new) (name <$> allLeads)
    /\ Forall (fun l => needsEnrichment l = false) new
    /\ (hasLLM = true -> Forall (fun l => is_valid_person l <> Some false) new).
Proof.
  unfold run_from_collected, bind, ret.
  (* the stored leads *)
  match goal with |- context [let (_, _) := ?step in _] =>
    assert (Hstored : Forall2 (fun l l' => upgrade_keeps l l'
                                 /\ (rocketreach_updated l = true -> l' = l))
                        existingLeads step.1);
    [|destruct step as [stored w1]; cbn [fst] in Hstored]
  end.
  { destruct (0 <? length existingLeads).
    - apply map_M_Forall2. intros l w'.
      destruct (needsRocketReachUpdate l) eqn:Hneeds.
      + split; [apply update_lead_keeps|].
        intros Hupdated. unfold needsRocketReachUpdate in Hneeds.
        now rewrite Hupdated in Hneeds.
      + split; [apply upgrade_keeps_refl|reflexivity].
    - cbn [fst]. apply Forall2_same. intros l. split; [apply upgrade_keeps_refl|reflexivity]. }
  (* validation and screening *)
  match goal with |- context [let (_, _) := ?step in _] =>
    assert (Hvalid : sublist (name <$> step.1) (name <$> allLeads)
                     /\ (hasLLM = true ->
                         Forall (fun l => is_valid_person l <> Some false)
                           step.1));
    [|destruct step as [screened w2]; cbn [fst] in Hvalid;
      destruct Hvalid as [Hnames Hvalid]]
  end.
  { destruct hasLLM; cbn [andb]; [|split; [reflexivity|discriminate]].
    destruct (0 <? length allLeads) eqn:Hsome.
    - pose proof (validateLeadsWithLLM_frame P allLeads w1) as Hframe.
      destruct (validateLeadsWithLLM P allLeads w1) as [validated w2]. cbn [fst] in *.
      split.
      + rewrite <- (Forall2_names _ _ _ same_but_validation_name Hframe).
        apply fmap_sublist, List_filter_sublist.
      + intros _. apply List.Forall_forall. intros l [_ Hl]%filter_In.
        unfold is_not_invalid in Hl. apply negb_true_iff, bool_decide_eq_false in Hl.
        exact Hl.
    - cbn [fst]. split; [reflexivity|]. intros _.
      destruct allLeads; [constructor|discriminate]. }
  (* enrichment *)
  match goal with |- context [let (_, _) := ?step in _] =>
    assert (Henriched : Forall2 (fun l l' => name l' = name l
                                   /\ is_valid_person l' = is_valid_person l
                                   /\ needsEnrichment l' = false)
                          screened step.1);
    [|destruct step as [enriched w3]; cbn [fst] in Henriched]
  end.
  { destruct (0 <? length screened) eqn:Hsome.
    - apply map_M_Forall2. intros l w'.
      destruct (needsEnrichment l) eqn:Hneeds.
      + split; [apply (enrich_lead_keeps P l w')|].
        split; [apply enrich_lead_valid|apply enrich_lead_marks].
      + repeat split. exact Hneeds.
    - destruct screened; [constructor|discriminate]. }
  (* enhancement *)
  match goal with |- context [let (_, _) := ?step in _] =>
    assert (Henhanced : Forall2 same_but_enhancement enriched step.1);
    [|destruct step as [enhanced w4]; cbn [fst] in Henhanced]
  end.
  { destruct (hasLLM && (0 <? length enriched)).
    - eapply Forall2_impl; [apply (enhanceLeadsWithLLM_keeps P enriched mode w3)|].
      intros l l' H. apply H.
    - cbn [fst]. apply Forall2_same. intros l. unfold same_but_enhancement. now destruct l. }
  cbv beta iota. cbn [fst].
  exists stored, enhanced. split; [reflexivity|]. split; [exact Hstored|].
  assert (Hname2 : name <$> enriched = name <$> screened).
  { apply (Forall2_names _ _ _ (fun l l' H => proj1 H) Henriched). }
  assert (Hname3 : name <$> enhanced = name <$> enriched).
  { apply (Forall2_names _ _ _ (fun l l' H => proj1 (same_but_enhancement_fields l l' H))
             Henhanced). }
  split; [now rewrite Hname3, Hname2|]. split.
  - assert (Hmarked : Forall (fun l => needsEnrichment l = false) enriched).
    { eapply Forall2_Forall_r; [|exact Henriched]. intros l l' H. apply H. }
    eapply Forall2_Forall_lr; [|exact Henhanced|exact Hmarked].
    intros l l' H Hl. destruct (same_but_enhancement_fields l l' H) as (_ & _ & ->). exact Hl.
  - intros HLLM. specialize (Hvalid HLLM).
    assert (Hvalid2 : Forall (fun l => is_valid_person l <> Some false) enriched).
    { eapply Forall2_Forall_lr; [|exact Henriched|exact Hvalid].
      intros l l' (_ & -> & _) Hl. exact Hl. }
    eapply Forall2_Forall_lr; [|exact Henhanced|exact Hvalid2].
    intros l l' H Hl. destruct (same_but_enhancement_fields l l' H) as (_ & -> & _). exact Hl.
Qed.

End RunFromCollected.
(** ** Model answers in a code fence *)

Section Fences.
Import LLMEnricher.

Lemma trimStart_spaces ws s : spaces ws -> trimStart (ws ++ s) = trimStart s.
Proof. induction 1 as [|c ws Hc _ IH]; [reflexivity|]. cbn. now rewrite Hc. Qed.

Lemma trimEnd_spaces ws s : spaces ws -> trimEnd (s ++ ws) = trimEnd s.
Proof.
  intros Hws. unfold trimEnd. rewrite rev_app_distr, trimStart_spaces; [reflexivity|].
  now apply Forall_rev.
Qed.

(** What [trimStart] removes, and what it leaves at the front. *)
Lemma trimStart_split s :
  exists ws, s = ws ++ trimStart s /\ spaces ws
             /\ match trimStart s with c :: _ => is_space c = false | [] => True end.
Proof.
  induction s as [|c s (ws & Hs & Hws & Hhead)]; [exists []; repeat split; constructor|].
  cbn. destruct (is_space c) eqn:Hc.
  - exists (c :: ws). repeat split; [cbn; now f_equal|now constructor|exact Hhead].
  - exists []. repeat split; [constructor|exact Hc].
Qed.

Lemma trimEnd_split s :
  exists ws, s = trimEnd s ++ ws /\ spaces ws
             /\ match rev (trimEnd s) with c :: _ => is_space c = false | [] => True end.
Proof.
  destruct (trimStart_split (rev s)) as (ws & Hs & Hws & Hhead).
  exists (rev ws). unfold trimEnd. rewrite rev_involutive. repeat split.
  - rewrite <- rev_app_distr, <- Hs. symmetry. apply rev_involutive.
  - now apply Forall_rev.
  - exact Hhead.
Qed.

(** A string is its trimmed text between white space, and the trimmed text
    neither starts nor ends with white space. *)
Lemma trim_split s :
  exists ws1 ws2, s = ws1 ++ trim s ++ ws2 /\ spaces ws1 /\ spaces ws2
                  /\ trimStart (trim s) = trim s
                  /\ trimStart (rev (trim s)) = rev (trim s).
Proof.
  destruct (trimStart_split s) as (ws1 & Hs & Hws1 & Hhead).
  destruct (trimEnd_split (trimStart s)) as (ws2 & Hb & Hws2 & Hlast).
  fold (trim s) in Hb, Hlast. exists ws1, ws2. repeat split; try assumption.
  - now rewrite <- Hb.
  - rewrite Hb in Hhead. destruct (trim s) as [|c b]; [reflexivity|].
    cbn in Hhead |- *. now rewrite Hhead.
  - destruct (rev (trim s)) as [|c b]; [reflexivity|]. cbn. now rewrite Hlast.
Qed.

Lemma strip_app p s : strip p (p ++ s) = Some s.
Proof. induction p as [|a p IH]; [reflexivity|]. cbn. now rewrite N.eqb_refl. Qed.

Lemma strip_none p s : startsWith s p = false -> strip p s = None.
Proof.
  revert s. induction p as [|a p IH]; intros [|b s]; cbn; try discriminate; [reflexivity|].
  destruct (N.eqb a b); [apply IH|reflexivity].
Qed.

Lemma startsWith_longer s p q : startsWith s p = false -> startsWith s (p ++ q) = false.
Proof.
  revert s. induction p as [|a p IH]; intros [|b s]; cbn; try discriminate; [reflexivity|].
  destruct (N.eqb a b); [apply IH|reflexivity].
Qed.

Lemma trimEnd_fence x : trimEnd (x ++ fence) = x ++ fence.
Proof.
  unfold trimEnd. rewrite rev_app_distr.
  assert (Hstart : trimStart (rev fence ++ rev x) = rev fence ++ rev x) by reflexivity.
  rewrite Hstart, <- rev_app_distr. apply rev_involutive.
Qed.

(** The closing fence and the white space before it go. *)
Lemma drop_closing_fence_spec b ws :
  spaces ws -> trimStart (rev b) = rev b -> drop_closing_fence (b ++ ws ++ fence) = b.
Proof.
  intros Hws Hb. unfold drop_closing_fence.
  rewrite !app_assoc, rev_app_distr, strip_app, rev_app_distr.
  rewrite trimStart_spaces by now apply Forall_rev.
  rewrite Hb. apply rev_involutive.
Qed.

Lemma trimStart_involutive_on b x : b <> [] -> trimStart b = b -> trimStart (b ++ x) = b ++ x.
Proof.
  destruct b as [|c b]; [congruence|]. intros _. cbn.
  destruct (is_space c) eqn:Hc; [|reflexivity].
  intros Heq. exfalso.
  destruct (trimStart_split b) as (ws & Hsplit & _).
  apply (f_equal (@length N)) in Heq, Hsplit. rewrite length_app in Hsplit. cbn in Heq. lia.
Qed.

Lemma strip_app_both p q s : strip (p ++ q) (p ++ s) = strip q s.
Proof. induction p as [|a p IH]; [reflexivity|]. cbn. now rewrite N.eqb_refl. Qed.

Lemma trim_trim s : trim (trim s) = trim s.
Proof.
  destruct (trim_split s) as (_ & _ & _ & _ & _ & Hstart & Hend).
  unfold trim at 1. rewrite Hstart. unfold trimEnd. rewrite Hend. apply rev_involutive.
Qed.

(** A model answer wrapped in a code fence parses as the bare answer does:
    with white space around and inside the fences, an opening fence
    [```json], or [```] when the text after it does not start with [json],
    and a body that does not itself start with a fence, [cleanAndParseJSON]
    hands the same text to the parser and gives the same result. *)
Theorem fenced_answer_parses_as_bare {A} {parse : FromJSON A}
    (opening pre ws1 body ws2 post : jsstring) :
  spaces pre -> spaces ws1 -> spaces ws2 -> spaces post ->
  opening = fence_json
  \/ (opening = fence /\ startsWith (ws1 ++ body ++ ws2 ++ fence) (lit "json") = false) ->
  startsWith (trim body) fence = false ->
  cleanAndParseJSON (JStr (pre ++ opening ++ ws1 ++ body ++ ws2 ++ fence ++ post))
  = cleanAndParseJSON (A := A) (JStr body).
Proof.
  intros Hpre Hws1 Hws2 Hpost Hopening Hbare.
  assert (Hright : trim (remove_fences (trim body)) = trim body).
  { unfold remove_fences. change fence_json with (fence ++ lit "json").
    rewrite (strip_none _ _ (startsWith_longer _ _ _ Hbare)), (strip_none _ _ Hbare).
    apply trim_trim. }
  assert (Hleft : trim (remove_fences
                          (trim (pre ++ opening ++ ws1 ++ body ++ ws2 ++ fence ++ post)))
                  = trim body).
  { set (inside := ws1 ++ body ++ ws2 ++ fence) in *.
    assert (Htrim : trim (pre ++ opening ++ ws1 ++ body ++ ws2 ++ fence ++ post)
                    = opening ++ inside).
    { unfold trim. rewrite trimStart_spaces by exact Hpre.
      assert (Hstart : forall rest, trimStart (opening ++ rest) = opening ++ rest)
        by (intros rest; destruct Hopening as [->|[-> _]]; reflexivity).
      rewrite Hstart.
      replace (opening ++ ws1 ++ body ++ ws2 ++ fence ++ post)
        with ((opening ++ ws1 ++ body ++ ws2) ++ fence ++ post)
        by now rewrite <- !app_assoc.
      rewrite (app_assoc _ fence post), trimEnd_spaces by exact Hpost.
      rewrite trimEnd_fence. subst inside. now rewrite <- !app_assoc. }
    rewrite Htrim.
    assert (Hremove : remove_fences (opening ++ inside) = drop_closing_fence (trimStart inside)).
    { unfold remove_fences. destruct Hopening as [->|[-> Hjson]].
      - now rewrite strip_app.
      - change fence_json with (fence ++ lit "json").
        rewrite strip_app_both, (strip_none _ _ Hjson). now rewrite strip_app. }
    rewrite Hremove. subst inside.
    destruct (trim_split body) as (s1 & s2 & Hbody & Hs1 & Hs2 & Hstart & Hend).
    remember (trim body) as b eqn:Hb. rewrite Hbody.
    replace (ws1 ++ (s1 ++ b ++ s2) ++ ws2 ++ fence)
      with ((ws1 ++ s1) ++ b ++ (s2 ++ ws2) ++ fence) by now rewrite <- !app_assoc.
    rewrite trimStart_spaces by (apply Forall_app; now split).
    assert (Hs : spaces (s2 ++ ws2)) by (apply Forall_app; now split).
    destruct (decide (b = [])) as [->|Hsome].
    - cbn [app]. rewrite trimStart_spaces by exact Hs. reflexivity.
    - rewrite (trimStart_involutive_on b _ Hsome Hstart).
      rewrite (drop_closing_fence_spec b _ Hs Hend).
      unfold trim. rewrite Hstart. unfold trimEnd. rewrite Hend. apply rev_involutive. }
  unfold cleanAndParseJSON. now rewrite Hleft, Hright.
Qed.

End Fences.

(** The answer [{}] in a [```json] fence with line breaks. *)
Lemma fenced_answer_parses_as_bare_witness :
  LLMEnricher.cleanAndParseJSON (parse := Examples.reads_low_quality)
    (JStr ([] ++ LLMEnricher.fence_json ++ [10%N] ++ lit "{}" ++ [10%N] ++ LLMEnricher.fence ++ []))
  = LLMEnricher.cleanAndParseJSON (parse := Examples.reads_low_quality) (JStr (lit "{}")).
Proof.
  apply (fenced_answer_parses_as_bare LLMEnricher.fence_json [] [10%N] (lit "{}") [10%N] []);
    try (repeat constructor); reflexivity.
Defined.

(** ** The score and the address of a created lead *)

Section CreatedLeads.
Import LLMEnricher SearchNode.

(** The score a lead is created with is a number from 0.5 to 1, and at
    least 0.7 for a result on LinkedIn. *)
Theorem created_score_in_range (item : jina_item) :
  exists q, calculateConfidenceFromItem item = Some q
            /\ (1 # 2 <= q)%Q /\ (q <= 1)%Q
            /\ (truthy (item_url item)
                && includes (to_string (item_url item)) (lit "linkedin.com") = true ->
                (7 # 10 <= q)%Q).
Proof.
  unfold calculateConfidenceFromItem.
  destruct (truthy (item_url item) && _);
    destruct (truthy (item_description item) && Nat.ltb _ _);
    destruct (truthy (item_title item) && _);
    destruct (truthy (item_description item) && includes _ _);
    (eexists; split; [reflexivity|]);
    repeat split; try discriminate; intros _; vm_compute; discriminate.
Qed.

Lemma includes_unfold s p :
  includes s p = startsWith s p || match s with [] => false | _ :: s' => includes s' p end.
Proof. now destruct s. Qed.

Lemma startsWith_app p s : startsWith (p ++ s) p = true.
Proof. induction p as [|a p IH]; [now destruct s|]. cbn. now rewrite N.eqb_refl. Qed.

Lemma includes_inside a p c : includes (a ++ p ++ c) p = true.
Proof.
  induction a as [|x a IH].
  - cbn [app]. rewrite includes_unfold, startsWith_app. reflexivity.
  - cbn [app]. rewrite includes_unfold, IH. apply orb_true_r.
Qed.

(** A lead created with the default company, or any company that lower
    cases to it, gets an address at [financialservic.com.fr] whatever its
    name is: an address that [hasLowQualityEmail] flags. *)
Theorem default_company_email_is_low_quality (P : providers) (name company : jsstring) :
  toLowerCase P company = lit "financial services company" ->
  exists local_part,
    generateEmailFromNameAndCompany P name company
    = local_part ++ lit "@financialservic.com.fr"
    /\ hasLowQualityEmail (JStr (generateEmailFromNameAndCompany P name company)) = true.
Proof.
  intros Hlower.
  set (nameParts := split_on 32 (toLowerCase P name)).
  assert (Hemail : generateEmailFromNameAndCompany P name company
                   = (hd [] nameParts ++ lit "." ++ List.last nameParts [])
                     ++ lit "@financialservic.com.fr").
  { unfold generateEmailFromNameAndCompany. rewrite Hlower. fold nameParts.
    rewrite <- !app_assoc. reflexivity. }
  exists (hd [] nameParts ++ lit "." ++ List.last nameParts []). split; [exact Hemail|].
  rewrite Hemail. unfold hasLowQualityEmail.
  set (local_part := hd [] nameParts ++ lit "." ++ List.last nameParts []).
  assert (Htruthy : truthy (JStr (local_part ++ lit "@financialservic.com.fr")) = true)
    by now destruct local_part.
  rewrite Htruthy. cbn [negb to_string lowQualityPatterns existsb].
  rewrite <- (app_nil_r (lit "@financialservic.com.fr")) at 1.
  now rewrite includes_inside.
Qed.

End CreatedLeads.

(** The name [jane doe] with the company in lower case. *)
Lemma default_company_email_is_low_quality_witness :
  exists local_part,
    LLMEnricher.generateEmailFromNameAndCompany Examples.answering (lit "jane doe")
      (lit "financial services company")
    = local_part ++ lit "@financialservic.com.fr"
    /\ SearchNode.hasLowQualityEmail
         (JStr (LLMEnricher.generateEmailFromNameAndCompany Examples.answering (lit "jane doe")
                  (lit "financial services company"))) = true.
Proof. apply default_company_email_is_low_quality. reflexivity. Defined.

(** ** Merging what the pages say *)

Section Merging.
Import LLMEnricher.

Lemma first_nonempty_merge (old new : jsstring) (later : list jsstring) :
  first_nonempty ((if nonempty new && negb (nonempty old) then new else old) :: later)
  = first_nonempty (old :: new :: later).
Proof. unfold first_nonempty. now destruct old, new. Qed.

(** Merging the information of the pages read, one after the other: for
    the background, the experience and the company information the first
    text that is not empty wins, what was there before coming first; the
    skills, projects and contact methods stay; and a list of at most five
    achievements stays a list of at most five that starts as before. *)
Theorem merge_first_non_empty_wins (existing : additional_info) (pages : list website_info) :
  let merged := fold_left mergeAdditionalInfo pages existing in
  background merged = first_nonempty (background existing :: map wi_background pages)
  /\ experience merged = first_nonempty (experience existing :: map wi_experience pages)
  /\ company_info merged = first_nonempty (company_info existing :: map wi_company_info pages)
  /\ skills merged = skills existing
  /\ info_current_projects merged = info_current_projects existing
  /\ contact_methods merged = contact_methods existing
  /\ (length (achievements existing) <= 5 ->
      length (achievements merged) <= 5
      /\ achievements existing `prefix_of` achievements merged).
Proof.
  cbv zeta. revert existing. induction pages as [|page rest IH]; intros existing.
  - cbn. unfold first_nonempty. cbn.
    split; [now destruct (background existing)|].
    split; [now destruct (experience existing)|].
    split; [now destruct (company_info existing)|].
    do 3 (split; [reflexivity|]). intros Hfive. split; [exact Hfive|reflexivity].
  - cbn [fold_left map].
    destruct (IH (mergeAdditionalInfo existing page))
      as (Hb & He & Hc & Hs & Hp & Hm & Ha).
    rewrite Hb, He, Hc, Hs, Hp, Hm. cbn [mergeAdditionalInfo background experience company_info
      skills info_current_projects contact_methods].
    rewrite !first_nonempty_merge. do 6 (split; [reflexivity|]).
    intros Hfive.
    assert (Hlen : length (achievements (mergeAdditionalInfo existing page)) <= 5).
    { cbn [mergeAdditionalInfo achievements].
      destruct (0 <? length (wi_achievements page)); [|exact Hfive].
      rewrite length_take. lia. }
    assert (Hstep : achievements existing
                    `prefix_of` achievements (mergeAdditionalInfo existing page)).
    { cbn [mergeAdditionalInfo achievements].
      destruct (0 <? length (wi_achievements page)); [|reflexivity].
      rewrite take_app, (take_ge (achievements existing)) by lia.
      now apply prefix_app_r. }
    destruct (Ha Hlen) as [Hmerged Hprefix]. split; [exact Hmerged|].
    etransitivity; eassumption.
Qed.

End Merging.
(** ** What the personality analysis costs *)

Section Cost.
Import EnrichNode.
Context (P : providers) {parse_analysis : FromJSON model_analysis}.

Lemma cost_none w w' : calls w' = calls w -> cost_within 0 0 0 w w'.
Proof.
  intros Hcalls. exists []. rewrite app_nil_r. repeat split; auto.
Qed.

Lemma cost_weaken a b c a' b' c' w w' :
  cost_within a b c w w' -> a <= a' -> b <= b' -> c <= c' -> cost_within a' b' c' w w'.
Proof.
  intros (cs & Hcalls & Hkinds & Ha & Hb & Hc) Ha' Hb' Hc'.
  exists cs. repeat split; auto; lia.
Qed.

Lemma cost_then a b c a' b' c' w w1 w2 :
  cost_within a b c w w1 -> cost_within a' b' c' w1 w2 ->
  cost_within (a + a') (b + b') (c + c') w w2.
Proof.
  intros (cs & Hcalls & Hkinds & Ha & Hb & Hc) (cs' & Hcalls' & Hkinds' & Ha' & Hb' & Hc').
  exists (cs ++ cs'). rewrite Hcalls', Hcalls, <- app_assoc.
  rewrite !List.filter_app, !length_app.
  repeat split; try lia. now apply Forall_app.
Qed.

Lemma cost_bind {A B} a b c a' b' c' s f ch (m : M A) (k : A -> M B) w :
  cost_within a b c w (m w).2 ->
  (forall x w1, cost_within a' b' c' w1 (k x w1).2) ->
  a + a' <= s -> b + b' <= f -> c + c' <= ch ->
  cost_within s f ch w (bind m k w).2.
Proof.
  intros Hm Hk Hs Hf Hch. unfold bind. specialize (Hk (m w).1 (m w).2).
  destruct (m w) as [x w1]. cbn [fst snd] in *.
  eapply cost_weaken; [eapply cost_then; eassumption|lia..].
Qed.

Lemma cost_perform {A} (c : call) (reply : world -> A) w :
  is_search c || is_fetch c || is_chat c = true ->
  cost_within (if is_search c then 1 else 0) (if is_fetch c then 1 else 0)
    (if is_chat c then 1 else 0) w (perform c reply w).2.
Proof.
  intros Hkind. exists [c]. split; [reflexivity|].
  split; [constructor; [exact Hkind|constructor]|]. cbn [List.filter].
  destruct (is_search c), (is_fetch c), (is_chat c); cbn; repeat split; lia.
Qed.

Lemma now_iso_calls w : calls (now_iso P w).2 = calls w.
Proof. reflexivity. Qed.

Lemma map_M_calls {A B} (f : A -> M B) (xs : list A) w :
  (forall x w', calls (f x w').2 = calls w') -> calls (map_M f xs w).2 = calls w.
Proof.
  intros Hf. revert w. induction xs as [|x rest IH]; intros w; [reflexivity|].
  cbn [map_M]. unfold bind, ret. pose proof (Hf x w) as Hx.
  destruct (f x w) as [y w1]. pose proof (IH w1) as Hrest.
  destruct (map_M f rest w1) as [ys w2]. cbn [snd] in *. congruence.
Qed.

Lemma format_result_calls person indexed w :
  calls (format_result P person indexed w).2 = calls w.
Proof.
  unfold format_result. destruct indexed as [index result]. unfold bind, ret.
  destruct (truthy (hit_linkedin_url result)); reflexivity.
Qed.

Lemma stamp_calls mk xs w : calls (stamp P mk xs w).2 = calls w.
Proof. apply map_M_calls. intros x w'. reflexivity. Qed.

(** The searches of [searchPersonWithJina]: the approaches in their order,
    up to the first that gives a result with a usable address. *)
Lemma try_approaches_spec person approaches w :
  let after := try_approaches P person approaches w in
  Forall (fun r => has_valid_url r = true) after.1
  /\ exists tried,
       tried `prefix_of` approaches
       /\ calls after.2 = calls w ++ map (fun q => CallSearch q 8) tried
       /\ (approaches <> [] -> tried <> [])
       /\ (after.1 = [] -> tried = approaches).
Proof.
  cbv zeta. revert w. induction approaches as [|searchQuery rest IH]; intros w.
  - split; [constructor|]. exists []. cbn. rewrite app_nil_r. repeat split; auto.
  - cbn [try_approaches]. unfold bind, perform. cbn [fst snd].
    set (w1 := mkWorld (calls w ++ [CallSearch searchQuery 8]) (clock_reads w)).
    assert (Hnext : forall w',
               calls w' = calls w1 ->
               Forall (fun r => has_valid_url r = true) (try_approaches P person rest w').1
               /\ exists tried,
                    tried `prefix_of` (searchQuery :: rest)
                    /\ calls (try_approaches P person rest w').2
                       = calls w ++ map (fun q => CallSearch q 8) tried
                    /\ (searchQuery :: rest <> [] -> tried <> [])
                    /\ ((try_approaches P person rest w').1 = [] ->
                        tried = searchQuery :: rest)).
    { intros w' Hw'. destruct (IH w') as (Hvalid & tried & Hprefix & Hcalls & _ & Hall).
      split; [exact Hvalid|]. exists (searchQuery :: tried). repeat split.
      - now apply prefix_cons.
      - rewrite Hcalls, Hw'. subst w1. cbn. now rewrite <- app_assoc.
      - discriminate.
      - intros Hnone. now rewrite (Hall Hnone). }
    destruct (jina_search P w searchQuery 8) as [[|r rs]|m];
      try exact (Hnext w1 eq_refl).
    unfold bind, ret.
    pose proof (map_M_calls (format_result P person) (imap pair (r :: rs)) w1
                  (fun x w' => format_result_calls person x w')) as Hformat.
    destruct (map_M (format_result P person) (imap pair (r :: rs)) w1)
      as [formattedResults w2]. cbn [snd] in Hformat.
    destruct (List.filter has_valid_url formattedResults) as [|v vs] eqn:Hfilter;
      [exact (Hnext w2 Hformat)|].
    cbn [fst snd]. split.
    + rewrite <- Hfilter. apply List.Forall_forall. intros x [_ Hx]%filter_In. exact Hx.
    + exists [searchQuery]. repeat split.
      * apply prefix_cons, prefix_nil.
      * rewrite Hformat. reflexivity.
      * discriminate.
      * discriminate.
Qed.


Lemma searches_cost (tried : list jsstring) w w' :
  calls w' = calls w ++ map (fun q => CallSearch q 8) tried ->
  cost_within (length tried) 0 0 w w'.
Proof.
  intros Hcalls. exists (map (fun q => CallSearch q 8) tried). split; [exact Hcalls|].
  clear Hcalls. induction tried as [|q rest (Hkinds & Hs & Hf & Hc)]; cbn.
  - repeat split; auto.
  - repeat split; cbn; auto; lia.
Qed.

Lemma searchPersonWithJina_cost person company w :
  cost_within 4 0 0 w (searchPersonWithJina P person company w).2.
Proof.
  unfold searchPersonWithJina.
  destruct (try_approaches_spec person (searchApproaches person company) w)
    as (_ & tried & Hprefix & Hcalls & _).
  apply prefix_length in Hprefix.
  eapply cost_weaken; [apply (searches_cost tried), Hcalls|exact Hprefix|lia|lia].
Qed.

Lemma getWebsiteContent_cost url w : cost_within 0 2 0 w (getWebsiteContent P url w).2.
Proof.
  unfold getWebsiteContent.
  apply (cost_bind 0 1 0 0 1 0); try lia;
    [apply (cost_perform (CallReadWebsite url)); reflexivity|].
  intros [content|m] w1; [|now apply cost_weaken with 0 0 0; [apply cost_none|lia..]].
  destruct (0 <? length content); [now apply cost_weaken with 0 0 0; [apply cost_none|lia..]|].
  apply (cost_bind 0 1 0 0 0 0); try lia;
    [apply (cost_perform (CallReaderGet url)); reflexivity|].
  intros [data|m] w2; now apply cost_none.
Qed.

Lemma scrape_cost websiteContents website w :
  cost_within 0 2 0 w (scrape P websiteContents website w).2.
Proof.
  unfold scrape. apply (cost_bind 0 2 0 0 0 0); try lia; [apply getWebsiteContent_cost|].
  intros content w1. destruct (is_substantial content); now apply cost_none.
Qed.

Lemma for_each_scrape_cost sites websiteContents w :
  cost_within 0 (2 * length sites) 0 w (for_each (scrape P) sites websiteContents w).2.
Proof.
  revert websiteContents w. induction sites as [|site rest IH]; intros websiteContents w;
    [now apply cost_none|].
  cbn [for_each]. apply (cost_bind 0 2 0 0 (2 * length rest) 0); cbn [length]; try lia;
    [apply scrape_cost|].
  intros x w1. apply IH.
Qed.

Lemma scrape_until_one_cost sites websiteContents w :
  cost_within 0 (2 * length sites) 0 w (scrape_until_one P websiteContents sites w).2.
Proof.
  revert w. induction sites as [|site rest IH]; intros w; [now apply cost_none|].
  cbn [scrape_until_one]. apply (cost_bind 0 2 0 0 (2 * length rest) 0); cbn [length]; try lia;
    [apply getWebsiteContent_cost|].
  intros content w1. destruct (is_substantial content); [|apply IH].
  apply cost_weaken with 0 0 0; [now apply cost_none|lia..].
Qed.

Lemma collect_cost person company reused w :
  cost_within 4 10 0 w (collect P person company reused w).2.
Proof.
  unfold collect. apply (cost_bind 4 6 0 0 4 0); try lia.
  - destruct (length reused =? 0);
      [|apply cost_weaken with 0 0 0; [now apply cost_none|lia..]].
    apply (cost_bind 4 0 0 0 6 0); try lia; [apply searchPersonWithJina_cost|].
    intros [|r rs] w1; [apply cost_weaken with 0 0 0; [now apply cost_none|lia..]|].
    apply (cost_bind 0 6 0 0 0 0); try lia; [|intros; now apply cost_none].
    eapply cost_weaken; [apply for_each_scrape_cost|lia| |lia].
    rewrite length_take. lia.
  - intros [[[[linkedinUrls nonLinkedInWebsites] websitesToScrape] websiteContents]|] w1;
      [|apply cost_weaken with 0 0 0; [now apply cost_none|lia..]].
    apply (cost_bind 0 4 0 0 0 0); try lia; [|intros; now apply cost_none].
    destruct (_ && _); [|apply cost_weaken with 0 0 0; [now apply cost_none|lia..]].
    eapply cost_weaken; [apply scrape_until_one_cost|lia| |lia].
    rewrite length_take. lia.
Qed.

Lemma generatePersonalitySummary_cost person websiteContents w :
  cost_within 0 0 1 w (generatePersonalitySummary P person websiteContents w).2.
Proof.
  pose proof (generatePersonalitySummary_calls P person websiteContents w) as Hcalls.
  eexists. split; [exact Hcalls|]. cbn. repeat split; auto.
Qed.

Lemma analyse_cost l w : cost_within 4 10 1 w (analyse P l w).2.
Proof.
  unfold analyse. apply (cost_bind 4 10 0 0 0 1); try lia; [apply collect_cost|].
  intros [[[linkedinUrls websitesToScrape] websiteContents]|] w1;
    [|apply cost_weaken with 0 0 0; [now apply cost_none|lia..]].
  destruct (length websiteContents =? 0);
    [apply cost_weaken with 0 0 0; [now apply cost_none|lia..]|].
  apply (cost_bind 0 0 1 0 0 0); try lia; [apply generatePersonalitySummary_cost|].
  intros personalityAnalysis w2.
  apply (cost_bind 0 0 0 0 0 0); try lia; [apply cost_none, stamp_calls|].
  intros references w3.
  apply (cost_bind 0 0 0 0 0 0); try lia; [apply cost_none, stamp_calls|].
  intros scrapedSites w4. now apply cost_none.
Qed.

Lemma enrichLeadWithPersonalityAnalysis_cost l w :
  cost_within 4 10 1 w (enrichLeadWithPersonalityAnalysis P l w).2.
Proof.
  unfold enrichLeadWithPersonalityAnalysis.
  destruct (has_successful_analysis l); [|apply analyse_cost].
  apply cost_weaken with 0 0 0; [now apply cost_none|lia..].
Qed.

Lemma enrichLeadsWithPersonalityData_cost leads selected w :
  cost_within (4 * length selected) (10 * length selected) (length selected) w
    (enrichLeadsWithPersonalityData P leads selected w).2.
Proof.
  unfold enrichLeadsWithPersonalityData. revert leads w.
  induction selected as [|i rest IH]; intros leads w; [now apply cost_none|].
  cbn [for_each]. apply (cost_bind 4 10 1 (4 * length rest) (10 * length rest) (length rest));
    cbn [length]; try lia; [|intros x w1; apply IH].
  destruct (leads !! i) as [l|];
    [|apply cost_weaken with 0 0 0; [now apply cost_none|lia..]].
  apply (cost_bind 4 10 1 0 0 0); try lia; [apply enrichLeadWithPersonalityAnalysis_cost|].
  intros x w1. now apply cost_none.
Qed.

(** The personality analysis of a lead makes at most four searches, ten
    page requests and one model call, and no other call; a run, which takes
    at most ten leads, makes at most forty searches, a hundred page requests
    and ten model calls. *)
Theorem analysis_cost_is_bounded (l : lead) (leads : list lead) (w : world) :
  cost_within 4 10 1 w (enrichLeadWithPersonalityAnalysis P l w).2
  /\ cost_within 40 100 10 w (run P leads w).2.
Proof.
  split; [apply enrichLeadWithPersonalityAnalysis_cost|].
  unfold run.
  assert (Hten : length (selection leads).*1 <= 10).
  { rewrite length_fmap. unfold selection. rewrite length_take. lia. }
  eapply cost_weaken; [apply enrichLeadsWithPersonalityData_cost|lia..].
Qed.

End Cost.
(** ** What the personality analysis writes *)

Section AnalysisFrame.
Import EnrichNode.
Context (P : providers) {parse_analysis : FromJSON model_analysis}.

Lemma same_but_analysis_refl l : same_but_analysis l l.
Proof. unfold same_but_analysis. now destruct l. Qed.

Lemma same_but_analysis_trans a b c :
  same_but_analysis a b -> same_but_analysis b c -> same_but_analysis a c.
Proof.
  unfold same_but_analysis. intros Hab Hbc. rewrite Hbc, Hab. now destruct a.
Qed.

Lemma scrape_extends websiteContents website w :
  websiteContents `prefix_of` (scrape P websiteContents website w).1.
Proof.
  unfold scrape, bind, ret. destruct (getWebsiteContent P _ w) as [content w1].
  destruct (is_substantial content); cbn [fst]; [now apply prefix_app_r|reflexivity].
Qed.

Lemma for_each_scrape_extends sites websiteContents w :
  websiteContents `prefix_of` (for_each (scrape P) sites websiteContents w).1.
Proof.
  revert websiteContents w. induction sites as [|site rest IH]; intros websiteContents w;
    [reflexivity|].
  cbn [for_each]. unfold bind. pose proof (scrape_extends websiteContents site w) as Hstep.
  destruct (scrape P websiteContents site w) as [contents w1]. cbn [fst] in Hstep.
  etransitivity; [exact Hstep|apply IH].
Qed.

Lemma scrape_until_one_extends sites websiteContents w :
  websiteContents `prefix_of` (scrape_until_one P websiteContents sites w).1.
Proof.
  revert w. induction sites as [|site rest IH]; intros w; [reflexivity|].
  cbn [scrape_until_one]. unfold bind, ret.
  destruct (getWebsiteContent P _ w) as [content w1].
  destruct (is_substantial content); cbn [fst]; [now apply prefix_app_r|apply IH].
Qed.

(** The contents collected start with the contents reused. *)
Lemma collect_extends person company reused w linkedinUrls websitesToScrape websiteContents w' :
  collect P person company reused w
  = (Some (linkedinUrls, websitesToScrape, websiteContents), w') ->
  reused `prefix_of` websiteContents.
Proof.
  unfold collect, bind, ret.
  destruct (Nat.eqb (length reused) 0).
  - destruct (searchPersonWithJina P person company w) as [[|r rs] w1]; cbv beta iota.
    + discriminate.
    + pose proof (for_each_scrape_extends
                    (take 3 (List.filter is_scrapeable (r :: rs))) reused w1) as Hfirst.
      destruct (for_each _ _ _ w1) as [contents w2]. cbn [fst] in Hfirst.
      match goal with |- context [if ?c then _ else _] => destruct c end.
      * pose proof (scrape_until_one_extends
                      (take 2 (drop 3 (List.filter is_scrapeable (r :: rs)))) contents w2)
          as Hsecond.
        destruct (scrape_until_one _ _ _ w2) as [contents' w3]. cbn [fst] in Hsecond.
        intros [= <- <- <- <-]. etransitivity; eassumption.
      * intros [= <- <- <- <-]. exact Hfirst.
  - cbv beta iota. rewrite andb_false_r.
    intros [= <- <- <- <-]. reflexivity.
Qed.

Lemma analyse_frame l w :
  let after := (analyse P l w).1 in
  same_but_analysis l after
  /\ (exists a, personality_analysis after = Some a)
  /\ default [] (scraped_content l) `prefix_of` default [] (scraped_content after)
  /\ (scraped_content after = None <-> scraped_content l = None).
Proof.
  cbv zeta. unfold analyse, bind.
  destruct (collect P (name l) (company l) (default [] (scraped_content l)) w)
    as [[[[linkedinUrls websitesToScrape] websiteContents]|] w1] eqn:Hcollect.
  2:{ cbn. repeat split; eauto; unfold same_but_analysis; now destruct l. }
  destruct (Nat.eqb (length websiteContents) 0).
  { cbn. repeat split; eauto; unfold same_but_analysis; now destruct l. }
  destruct (generatePersonalitySummary P (name l) websiteContents w1) as [pa w2].
  destruct (stamp P linkedin_source (take 1 linkedinUrls) w2) as [references w3].
  destruct (stamp P scraped_source websitesToScrape w3) as [sites w4].
  cbv beta iota zeta delta [now_iso ret fst snd]. apply collect_extends in Hcollect.
  match goal with |- context [enriched ?a ?b ?c ?d ?e ?f ?g ?h] =>
    set (after := enriched a b c d e f g h)
  end.
  assert (Hcontent : scraped_content after
                     = match scraped_content l with
                       | Some _ => Some websiteContents
                       | None => None
                       end) by reflexivity.
  split; [unfold same_but_analysis; now destruct l|].
  split; [exists pa; reflexivity|].
  rewrite Hcontent. destruct (scraped_content l) as [old|]; cbn [default] in *.
  - split; [exact Hcollect|]. split; discriminate.
  - split; [reflexivity|]. split; reflexivity.
Qed.

(** The personality analysis of a lead writes nothing but its own six
    properties ([personality_analysis], [personality_sources],
    [last_personality_analysis], [personality_metadata],
    [ready_for_outreach], [scraped_content]); afterwards the lead carries an
    analysis, and contents recorded on the lead are only ever extended. *)
Theorem analysis_writes_only_its_fields (l : lead) (w : world) :
  let after := (enrichLeadWithPersonalityAnalysis P l w).1 in
  same_but_analysis l after
  /\ (exists a, personality_analysis after = Some a)
  /\ default [] (scraped_content l) `prefix_of` default [] (scraped_content after)
  /\ (scraped_content after = None <-> scraped_content l = None).
Proof.
  cbv zeta. unfold enrichLeadWithPersonalityAnalysis.
  destruct (has_successful_analysis l) eqn:Hdone; [|apply analyse_frame].
  cbn [fst ret]. split; [apply same_but_analysis_refl|].
  split; [|split; reflexivity].
  unfold has_successful_analysis in Hdone.
  destruct (personality_analysis l) as [a|]; [eauto|discriminate].
Qed.

Lemma enrichLeadWithPersonalityAnalysis_frame l w :
  same_but_analysis l (enrichLeadWithPersonalityAnalysis P l w).1.
Proof.
  unfold enrichLeadWithPersonalityAnalysis.
  destruct (has_successful_analysis l); [apply same_but_analysis_refl|apply analyse_frame].
Qed.

End AnalysisFrame.

(** ** The leads a run selects *)

Section Selection.
Import EnrichNode.
Context (P : providers) {parse_analysis : FromJSON model_analysis}.

Lemma insert_by_score_Permutation x sorted : insert_by_score x sorted ≡ₚ x :: sorted.
Proof.
  induction sorted as [|y rest IH]; [reflexivity|]. cbn.
  destruct (negb _); [|reflexivity].
  rewrite IH. apply Permutation_swap.
Qed.

Lemma sort_by_score_Permutation xs : sort_by_score xs ≡ₚ xs.
Proof.
  induction xs as [|x rest IH]; [reflexivity|]. cbn.
  now rewrite insert_by_score_Permutation, IH.
Qed.

Lemma insert_by_score_descending x sorted :
  descending sorted -> descending (insert_by_score x sorted).
Proof.
  induction sorted as [|y rest IH]; [cbn; auto|].
  intros [Hy Hrest]. cbn [insert_by_score].
  destruct (Qle_bool (score_or_zero y.2) (score_or_zero x.2)) eqn:Hle; cbn [negb].
  - apply Qle_bool_iff in Hle. cbn [descending]. repeat split; try assumption.
    constructor; [exact Hle|].
    eapply Forall_impl; [exact Hy|]. cbn. intros z Hz. eapply Qle_trans; eassumption.
  - cbn [descending]. split; [|now apply IH].
    rewrite insert_by_score_Permutation. constructor; [|exact Hy].
    destruct (Qlt_le_dec (score_or_zero x.2) (score_or_zero y.2)) as [Hlt|Hge];
      [now apply Qlt_le_weak|].
    apply Qle_bool_iff in Hge. congruence.
Qed.

Lemma sort_by_score_descending xs : descending (sort_by_score xs).
Proof.
  induction xs as [|x rest IH]; [exact I|]. cbn. now apply insert_by_score_descending.
Qed.

Lemma descending_app xs ys x y :
  descending (xs ++ ys) -> x ∈ xs -> y ∈ ys ->
  (score_or_zero y.2 <= score_or_zero x.2)%Q.
Proof.
  induction xs as [|z rest IH]; intros Hdesc Hx Hy; [now apply elem_of_nil in Hx|].
  cbn in Hdesc. destruct Hdesc as [Hz Hrest].
  apply elem_of_cons in Hx as [->|Hx]; [|now apply IH].
  rewrite List.Forall_forall in Hz. apply Hz, list_elem_of_In, elem_of_app. now right.
Qed.

Lemma descending_take n xs : descending xs -> descending (take n xs).
Proof.
  revert n. induction xs as [|x rest IH]; intros [|n]; cbn; auto.
  intros [Hx Hrest]. split; [|now apply IH].
  apply List.Forall_forall. intros y Hy%list_elem_of_In.
  rewrite List.Forall_forall in Hx. apply Hx, list_elem_of_In.
  eapply elem_of_take in Hy as (i & Hi & _). eapply list_elem_of_lookup_2, Hi.
Qed.

Lemma imap_indices {A} (k : nat) (xs : list A) :
  (imap (fun j x => (k + j, x)) xs).*1 = seq k (length xs).
Proof.
  revert k. induction xs as [|x rest IH]; intros k; [reflexivity|].
  cbn. rewrite Nat.add_0_r. f_equal.
  rewrite <- IH. f_equal. apply imap_ext. intros j y _. cbn. f_equal. lia.
Qed.

Lemma filtered_indices_NoDup (f : nat * lead -> bool) (leads : list lead) :
  NoDup (List.filter f (imap pair leads)).*1.
Proof.
  apply (sublist_NoDup _ (imap pair leads).*1).
  - change (imap pair leads) with (imap (fun j x => (0 + j, x)) leads).
    rewrite (imap_indices 0 leads). apply NoDup_seq.
  - apply fmap_sublist, List_filter_sublist.
Qed.

Lemma selection_indices_NoDup leads : NoDup (selection leads).*1.
Proof.
  unfold selection. eapply sublist_NoDup; [|apply fmap_sublist, sublist_take].
  rewrite sort_by_score_Permutation. apply filtered_indices_NoDup.
Qed.

Lemma elem_of_filtered j l (leads : list lead) :
  leads !! j = Some l -> wants_analysis l = true ->
  (j, l) ∈ List.filter (fun x => wants_analysis x.2) (imap pair leads).
Proof.
  intros Hj Hwants. apply list_elem_of_In, filter_In. split; [|exact Hwants].
  apply list_elem_of_In, list_elem_of_lookup. exists j.
  now rewrite list_lookup_imap, Hj.
Qed.

(** A run selects the ten best: at most ten leads, each a lead of the
    state without a successful analysis, no lead twice, in descending order
    of score; and a lead without a successful analysis is left out only
    when ten leads are selected, none of which has a lower score. *)
Theorem selection_is_top_ten (leads : list lead) :
  length (selection leads) <= 10
  /\ NoDup (selection leads).*1
  /\ descending (selection leads)
  /\ Forall (fun x => leads !! x.1 = Some x.2 /\ wants_analysis x.2 = true) (selection leads)
  /\ (forall j l, leads !! j = Some l -> wants_analysis l = true ->
      (j, l) ∉ selection leads ->
      length (selection leads) = 10
      /\ Forall (fun x => (score_or_zero l <= score_or_zero x.2)%Q) (selection leads)).
Proof.
  split; [unfold selection; rewrite length_take; lia|].
  split; [apply selection_indices_NoDup|].
  split; [apply descending_take, sort_by_score_descending|].
  split.
  - apply List.Forall_forall. intros [j l] Hin%list_elem_of_In.
    now apply elem_of_selection.
  - intros j l Hj Hwants Hout. unfold selection in *.
    set (sorted := sort_by_score (List.filter (fun x => wants_analysis x.2) (imap pair leads)))
      in *.
    assert (Hin : (j, l) ∈ sorted).
    { subst sorted. rewrite sort_by_score_Permutation. now apply elem_of_filtered. }
    rewrite <- (take_drop 10 sorted) in Hin.
    apply elem_of_app in Hin as [Hin|Hin]; [contradiction|].
    split.
    + rewrite length_take. apply list_elem_of_lookup in Hin as [k Hk].
      apply lookup_lt_Some in Hk. rewrite length_drop in Hk. lia.
    + apply List.Forall_forall. intros x Hx%list_elem_of_In.
      apply (descending_app (take 10 sorted) (drop 10 sorted) x (j, l)); try assumption.
      rewrite take_drop. apply sort_by_score_descending.
Qed.

(** ** A run *)

Lemma enrichLeadsWithPersonalityData_frame leads selected w :
  Forall2 same_but_analysis leads (enrichLeadsWithPersonalityData P leads selected w).1.
Proof.
  unfold enrichLeadsWithPersonalityData.
  apply for_each_Forall2; [exact same_but_analysis_refl|exact same_but_analysis_trans|].
  intros s i w'. destruct (s !! i) as [l|] eqn:Hl;
    [|apply Forall2_same, same_but_analysis_refl].
  unfold bind, ret. pose proof (enrichLeadWithPersonalityAnalysis_frame P l w') as Hframe.
  destruct (enrichLeadWithPersonalityAnalysis P l w') as [enrichedLead w1]. cbn [fst] in *.
  rewrite <- (list_insert_id s i l Hl) at 1.
  apply Forall2_insert; [apply Forall2_same, same_but_analysis_refl|exact Hframe].
Qed.

Lemma wants_analysis_not_done l : wants_analysis l = negb (has_successful_analysis l).
Proof.
  unfold wants_analysis, has_successful_analysis.
  destruct (personality_analysis l) as [a|]; [|reflexivity]. now rewrite negb_involutive.
Qed.

Lemma sort_by_score_length xs : length (sort_by_score xs) = length xs.
Proof. now rewrite sort_by_score_Permutation. Qed.

Lemma filtered_length (f : nat -> lead -> nat * lead) (leads : list lead) :
  (forall j l, (f j l).2 = l) ->
  length (List.filter (fun x : nat * lead => wants_analysis x.2) (imap f leads))
  = length (List.filter wants_analysis leads).
Proof.
  revert f. induction leads as [|l rest IH]; intros f Hf; [reflexivity|].
  cbn. rewrite Hf.
  destruct (wants_analysis l); cbn; rewrite IH by (intros; apply Hf); reflexivity.
Qed.

Lemma selection_nil leads : selection leads = [] <-> List.filter wants_analysis leads = [].
Proof.
  unfold selection. rewrite <- !length_zero_iff_nil, length_take, sort_by_score_length.
  rewrite (filtered_length pair) by reflexivity. lia.
Qed.

Lemma filter_split_length (leads : list lead) :
  length leads
  = length (List.filter has_successful_analysis leads)
    + length (List.filter wants_analysis leads).
Proof.
  induction leads as [|l rest IH]; [reflexivity|].
  cbn. rewrite wants_analysis_not_done.
  destruct (has_successful_analysis l); cbn; lia.
Qed.

(** A run rewrites the selected leads only: every lead of the state comes
    back in its place, the same but for the properties of the personality
    analysis; a lead that is not selected is untouched; and when every lead
    has a successful analysis the run changes nothing and makes no call. *)
Theorem run_rewrites_selected_leads_only (leads : list lead) (w : world) :
  let after := run P leads w in
  Forall2 same_but_analysis leads after.1
  /\ (forall i, i ∉ (selection leads).*1 -> after.1 !! i = leads !! i)
  /\ (Forall (fun l => has_successful_analysis l = true) leads -> after = (leads, w)).
Proof.
  cbv zeta. unfold run. split; [apply enrichLeadsWithPersonalityData_frame|].
  split; [intros i Hi; now apply enrichLeadsWithPersonalityData_other|].
  intros Hdone.
  assert (Hnone : selection leads = []).
  { apply selection_nil. induction Hdone as [|l rest Hl _ IH]; [reflexivity|].
    cbn. now rewrite wants_analysis_not_done, Hl. }
  now rewrite Hnone.
Qed.

(** The message to the next stage counts what the run's filter sees: the
    successful analyses are the leads whose integration status is
    [analysis_complete], they are among the analysed leads, and together
    with the leads a run would still take they are all the leads; every
    lead is successful exactly when a run selects nothing. *)
Theorem message_counts_agree (leads : list lead) :
  let message := createNextMessage leads in
  successful_personality_analyses message
  = length (List.filter (fun l => bool_decide (integration_status_of l = analysis_complete))
              leads)
  /\ successful_personality_analyses message <= personality_analyzed_count message
  /\ personality_analyzed_count message <= leads_count message
  /\ leads_count message
     = successful_personality_analyses message + length (List.filter wants_analysis leads)
  /\ (successful_personality_analyses message = leads_count message
      <-> selection leads = []).
Proof.
  cbv zeta. cbn [createNextMessage successful_personality_analyses
                 personality_analyzed_count leads_count].
  split; [|split; [|split; [|split]]].
  - f_equal. apply filter_ext. intros l.
    unfold has_successful_analysis, integration_status_of.
    destruct (personality_analysis l) as [a|]; [|reflexivity].
    now destruct (truthy (error a)).
  - induction leads as [|l rest IH]; [reflexivity|]. cbn.
    unfold has_successful_analysis at 1.
    destruct (personality_analysis l) as [a|]; cbn; [|lia].
    destruct (negb (truthy (error a))); cbn; lia.
  - apply filter_length_le.
  - apply filter_split_length.
  - rewrite selection_nil, <- length_zero_iff_nil.
    pose proof (filter_split_length leads). lia.
Qed.

End Selection.
(** ** The CSV file reads back *)

Section CSV.
Import OutreachNode.

Lemma includes_single s c : includes s [c] = false -> c ∉ s.
Proof.
  induction s as [|x s IH]; [intros _; apply not_elem_of_nil|].
  cbn. intros H. apply orb_false_iff in H as [Hx Hs].
  apply not_elem_of_cons. split; [|now apply IH].
  destruct (N.eqb_spec c x) as [->|Hne]; [|exact Hne].
  now destruct s.
Qed.

Lemma read_plain s field record tail :
  44%N ∉ s -> 34%N ∉ s -> 10%N ∉ s -> ends_field tail ->
  read_csv InPlain field record (s ++ tail) = after_field (rev field ++ s) record tail.
Proof.
  revert field. induction s as [|c s IH]; intros field Hcomma Hquote Hfeed Htail.
  - rewrite app_nil_r. destruct tail as [|c r]; [reflexivity|].
    cbn. destruct Htail as [->| ->]; reflexivity.
  - apply not_elem_of_cons in Hcomma as [Hc1 Hcomma], Hquote as [Hc2 Hquote],
        Hfeed as [Hc3 Hfeed].
    cbn. rewrite (proj2 (N.eqb_neq c 44)), (proj2 (N.eqb_neq c 10)), (proj2 (N.eqb_neq c 34))
      by congruence.
    rewrite IH by assumption. cbn. now rewrite <- app_assoc.
Qed.

Lemma read_quoted s field record tail :
  ends_field tail ->
  read_csv InQuoted field record (double_quotes s ++ 34%N :: tail)
  = after_field (rev field ++ s) record tail.
Proof.
  intros Htail. revert field. induction s as [|c s IH]; intros field.
  - cbn. rewrite app_nil_r. destruct tail as [|c r]; [reflexivity|].
    cbn. destruct Htail as [->| ->]; reflexivity.
  - cbn [double_quotes flat_map]. fold (double_quotes s).
    destruct (N.eqb_spec c 34) as [->|Hne].
    + cbn. rewrite IH. cbn. now rewrite <- app_assoc.
    + cbn. rewrite (proj2 (N.eqb_neq c 34)) by exact Hne.
      rewrite IH. cbn. now rewrite <- app_assoc.
Qed.

Lemma double_quotes_plain s : 34%N ∉ s -> double_quotes s = s.
Proof.
  induction s as [|c s IH]; [reflexivity|].
  intros [Hc Hs]%not_elem_of_cons. cbn [double_quotes flat_map]. fold (double_quotes s).
  rewrite (proj2 (N.eqb_neq c 34)) by congruence. cbn. now rewrite IH.
Qed.

Lemma elem_of_double_quotes c s : c ∈ s -> c ∈ double_quotes s.
Proof.
  induction s as [|x s IH]; [intros H; now apply elem_of_nil in H|].
  cbn [double_quotes flat_map]. fold (double_quotes s).
  intros [Heq|Hin]%elem_of_cons.
  - subst c. apply elem_of_app. left. destruct (N.eqb_spec x 34) as [->|_]; apply elem_of_cons; now left.
  - apply elem_of_app. right. now apply IH.
Qed.

(** A field as [escapeCSV] writes it reads back as the text of the value. *)
Lemma read_escaped v record tail :
  ends_field tail ->
  read_csv AtStart [] record (escapeCSV v ++ tail) = after_field (text_of v) record tail.
Proof.
  intros Htail. unfold escapeCSV, text_of.
  destruct (truthy v) eqn:Hv; cbn [negb].
  2:{ cbn [app]. destruct tail as [|c r]; [reflexivity|].
      cbn. destruct Htail as [->| ->]; reflexivity. }
  set (s := to_string v).
  destruct (includes (double_quotes s) (lit ",") || includes (double_quotes s) [34%N]
            || includes (double_quotes s) [10%N]) eqn:Hspecial.
  - cbn [app]. change (read_csv AtStart [] record (34%N :: (double_quotes s ++ [34%N]) ++ tail))
      with (read_csv InQuoted [] record ((double_quotes s ++ [34%N]) ++ tail)).
    rewrite <- app_assoc. cbn [app]. now rewrite read_quoted.
  - apply orb_false_iff in Hspecial as [Hspecial Hfeed].
    apply orb_false_iff in Hspecial as [Hcomma Hquote].
    change (lit ",") with [44%N] in Hcomma.
    apply includes_single in Hcomma, Hquote, Hfeed.
    assert (Hq : 34%N ∉ s) by (intros Hin; apply Hquote; now apply elem_of_double_quotes).
    rewrite (double_quotes_plain s Hq) in *.
    destruct s as [|c s'] eqn:Hs.
    { subst s. destruct v as [| |[|]]; discriminate. }
    apply not_elem_of_cons in Hcomma as [Hc1 Hcomma], Hq as [Hc2 Hq], Hfeed as [Hc3 Hfeed].
    cbn [app read_csv].
    rewrite (proj2 (N.eqb_neq c 44)), (proj2 (N.eqb_neq c 10)), (proj2 (N.eqb_neq c 34))
      by congruence.
    now rewrite read_plain.
Qed.

Lemma read_row values record tail :
  values <> [] -> ends_record tail ->
  read_csv AtStart [] record (csv_row values ++ tail)
  = match tail with
    | [] => Some [rev (rev (text_of <$> values) ++ record)]
    | _ :: r => cons (rev (rev (text_of <$> values) ++ record)) <$> read_csv AtStart [] [] r
    end.
Proof.
  intros Hsome Htail. revert record.
  induction values as [|v [|v' rest] IH]; intros record; [congruence| |].
  - cbn [csv_row map join fmap list_fmap rev app].
    rewrite read_escaped by (destruct tail; [exact I|now right]).
    destruct tail as [|c r]; [reflexivity|]. cbn in Htail. subst c. reflexivity.
  - change (csv_row (v :: v' :: rest))
      with (escapeCSV v ++ 44%N :: csv_row (v' :: rest)).
    rewrite <- app_assoc. cbn [app].
    rewrite read_escaped by (now left). cbn [after_field]. rewrite N.eqb_refl.
    rewrite IH by discriminate.
    change (text_of <$> v :: v' :: rest) with (text_of v :: (text_of <$> v' :: rest)).
    cbn [rev]. now rewrite <- !app_assoc.
Qed.

Lemma read_rows (rows : list (list field)) :
  rows <> [] -> Forall (fun values => values <> []) rows ->
  read_table (join [10%N] (map csv_row rows)) = Some (map (map text_of) rows).
Proof.
  unfold read_table. intros Hsome Hrows.
  induction rows as [|values [|values' rest] IH]; [congruence| |].
  - apply Forall_cons in Hrows as [Hvalues _].
    cbn [map join]. rewrite <- (app_nil_r (csv_row values)).
    rewrite read_row by (auto; exact I). now rewrite app_nil_r, rev_involutive.
  - apply Forall_cons in Hrows as [Hvalues Hrest].
    change (join [10%N] (map csv_row (values :: values' :: rest)))
      with (csv_row values ++ 10%N :: join [10%N] (map csv_row (values' :: rest))).
    rewrite read_row by (auto; reflexivity).
    rewrite IH by (auto; discriminate). cbn. now rewrite app_nil_r, rev_involutive.
Qed.

Lemma headers_row : join (lit ",") headers = csv_row (map JStr headers).
Proof. reflexivity. Qed.

(** The CSV file reads back as what was written: a reader of
    comma-separated values finds the header record and one record for each
    lead, in order, and every field of a record is the text of the value
    written, whatever commas, quotes and line feeds it contains; all records
    have the seventeen fields of the header. *)
Theorem csv_file_reads_back (written : list (lead * (field * field * field))) :
  let records :=
    headers
    :: map (fun x => let '(l, (m1, m2, m3)) := x in map text_of (row_values l m1 m2 m3))
         written in
  read_table (generateCSVContent written) = Some records
  /\ Forall (fun record => length record = 17) records.
Proof.
  cbv zeta. split.
  - unfold generateCSVContent. rewrite headers_row.
    set (rows := map JStr headers
                 :: map (fun x => let '(l, (m1, m2, m3)) := x in row_values l m1 m2 m3) written).
    transitivity (read_table (join [10%N] (map csv_row rows))).
    { subst rows. cbn [map]. do 3 f_equal.
      rewrite map_map. apply map_ext. now intros [l [[m1 m2] m3]]. }
    rewrite read_rows.
    + subst rows. cbn [map]. do 2 f_equal.
      rewrite map_map. apply map_ext. now intros [l [[m1 m2] m3]].
    + discriminate.
    + subst rows. constructor; [discriminate|].
      apply List.Forall_forall. intros values Hin. apply in_map_iff in Hin as [x [<- _]].
      destruct x as [l [[m1 m2] m3]]. discriminate.
  - constructor; [reflexivity|].
    apply List.Forall_forall. intros record Hin. apply in_map_iff in Hin as [x [<- _]].
    destruct x as [l [[m1 m2] m3]]. reflexivity.
Qed.

End CSV.
(** ** Titles, page entries and the cost of the contact passes *)

Section Titles.
Import SearchNode.

(** A real title is only replaced by a longer one that does not contain
    it, so two real titles never replace each other in turn. *)
Theorem title_upgrade_is_strict (newTitle current : jsstring) :
  current <> [] -> current <> lit "Professional" ->
  isTitleBetter newTitle (JStr current) = true ->
  length current < length newTitle
  /\ includes newTitle current = false
  /\ (newTitle <> lit "Professional" -> isTitleBetter current (JStr newTitle) = false).
Proof.
  intros Hsome Hreal. unfold isTitleBetter.
  assert (Htruthy : truthy (JStr current) = true) by now destruct current.
  rewrite Htruthy, bool_decide_eq_false_2 by congruence. cbn [negb orb to_string].
  destruct (length current <? length newTitle) eqn:Hlonger; [|discriminate].
  destruct (includes newTitle current) eqn:Hinside; [discriminate|]. intros _.
  apply Nat.ltb_lt in Hlonger. repeat split; [exact Hlonger|].
  intros Hreal'.
  assert (Htruthy' : truthy (JStr newTitle) = true) by (destruct newTitle; [cbn in *; lia|easy]).
  rewrite Htruthy', bool_decide_eq_false_2 by congruence. cbn [negb orb to_string].
  now rewrite (proj2 (Nat.ltb_ge _ _)) by lia.
Qed.

End Titles.

(** The title [CTO] and a longer one. *)
Lemma title_upgrade_is_strict_witness :
  length (lit "CTO") < length (lit "Chief Technology Officer")
  /\ includes (lit "Chief Technology Officer") (lit "CTO") = false
  /\ (lit "Chief Technology Officer" <> lit "Professional" ->
      SearchNode.isTitleBetter (lit "CTO") (JStr (lit "Chief Technology Officer")) = false).
Proof.
  apply title_upgrade_is_strict; [discriminate|discriminate|reflexivity].
Defined.

Section PageEntries.
Import EnrichNode.

(** The entry of a scraped page is its heading followed by the text of the
    page, cut after 50,000 code units with a mark when it is longer: the
    text takes at most 50,000 code units of the entry and the mark 14. *)
Theorem content_entry_is_capped (website : search_result) (content : jsstring) :
  exists heading body,
    content_entry website content = heading ++ body
    /\ heading = lit "Source: " ++ to_string (sr_url website) ++ [10%N]
                 ++ lit "Title: " ++ to_string (or_else (sr_title website) (JStr (lit "N/A")))
                 ++ [10%N] ++ lit "Content: "
    /\ length body <= 50000 + 14
    /\ (length content <= 50000 -> body = content)
    /\ (50000 < length content -> body = take 50000 content ++ lit "...[truncated]").
Proof.
  unfold content_entry.
  set (heading := lit "Source: " ++ to_string (sr_url website) ++ [10%N]
                  ++ lit "Title: " ++ to_string (or_else (sr_title website) (JStr (lit "N/A")))
                  ++ [10%N] ++ lit "Content: ").
  unfold substring0. generalize 50000 as cap. intros cap.
  destruct (cap <? length content) eqn:Hlong.
  - apply Nat.ltb_lt in Hlong.
    exists heading, (take cap content ++ lit "...[truncated]").
    split; [subst heading; now rewrite <- !app_assoc|]. split; [reflexivity|].
    split; [|split; [lia|reflexivity]].
    rewrite length_app, length_take.
    change (length (lit "...[truncated]")) with 14. lia.
  - apply Nat.ltb_ge in Hlong. exists heading, content.
    split; [subst heading; now rewrite <- !app_assoc|]. split; [reflexivity|].
    split; [lia|]. split; [reflexivity|lia].
Qed.

End PageEntries.

Section ContactCost.
Import SearchNode.
Context (P : providers) {parse_contact : FromJSON contact_info}.

(** The extraction of contact information returns only information that
    is useful, reads the page once, and asks the model at most once, and
    only about a page of at least 100 code units. *)
Theorem contact_extraction_returns_useful_info_only
    (url : jsstring) (person : field) (w : world) :
  let after := extractRocketReachContactInfo P url person w in
  (forall c, after.1 = Some c -> hasUsefulInfo c = true)
  /\ (calls after.2 = calls w ++ [CallReadWebsite url]
      \/ exists content,
           jina_readWebsite P w url = Returned content /\ 100 <= length content
           /\ calls after.2
              = calls w ++ [CallReadWebsite url; CallChat (ContactPrompt person content)])
  /\ clock_reads after.2 = clock_reads w.
Proof.
  cbv zeta. unfold extractRocketReachContactInfo, bind, perform, ret. cbn [fst snd].
  destruct (jina_readWebsite P w url) as [content|m] eqn:Hpage;
    [|cbn; repeat split; [discriminate|now left]].
  destruct (Nat.eqb (length content) 0 || Nat.ltb (length content) 100) eqn:Hshort;
    [cbn; repeat split; [discriminate|now left]|].
  apply orb_false_iff in Hshort as [_ Hlong%Nat.ltb_ge].
  assert (Hcalls : forall w',
             calls w' = calls w ++ [CallReadWebsite url; CallChat (ContactPrompt person content)] ->
             calls w' = calls w ++ [CallReadWebsite url]
             \/ exists content0,
                  Returned content = Returned content0 /\ 100 <= length content0
                  /\ calls w'
                     = calls w ++ [CallReadWebsite url; CallChat (ContactPrompt person content0)]).
  { intros w' Hw'. right. exists content. repeat split; assumption. }
  destruct (chat_create P _ _) as [raw|m]; cbn [fst snd].
  2:{ repeat split; [discriminate|]. apply Hcalls. cbn. now rewrite <- app_assoc. }
  destruct (LLMEnricher.cleanAndParseJSON raw) as [[contactInfo|]|m]; cbn [fst snd].
  - destruct (hasUsefulInfo contactInfo) eqn:Huseful; cbn [fst snd]; repeat split.
    + now intros c [= <-].
    + apply Hcalls. cbn. now rewrite <- app_assoc.
    + discriminate.
    + apply Hcalls. cbn. now rewrite <- app_assoc.
  - repeat split; [discriminate|]. apply Hcalls. cbn. now rewrite <- app_assoc.
  - repeat split; [discriminate|]. apply Hcalls. cbn. now rewrite <- app_assoc.
Qed.

Lemma extractRocketReachContactInfo_cost url person w :
  cost_within 0 1 1 w (extractRocketReachContactInfo P url person w).2.
Proof.
  unfold extractRocketReachContactInfo. apply (cost_bind 0 1 0 0 0 1); try lia;
    [apply (cost_perform (CallReadWebsite url)); reflexivity|].
  intros [content|m] w1; [|apply cost_weaken with 0 0 0; [now apply cost_none|lia..]].
  destruct (_ || _); [apply cost_weaken with 0 0 0; [now apply cost_none|lia..]|].
  apply (cost_bind 0 0 1 0 0 0); try lia;
    [apply (cost_perform (CallChat (ContactPrompt person content))); reflexivity|].
  intros [raw|m] w2; [|now apply cost_none].
  destruct (LLMEnricher.cleanAndParseJSON raw) as [[contactInfo|]|m]; try now apply cost_none.
  destruct (hasUsefulInfo contactInfo); now apply cost_none.
Qed.

Lemma update_lead_cost l w : cost_within 1 1 1 w (update_lead P l w).2.
Proof.
  unfold update_lead. apply (cost_bind 1 0 0 0 1 1); try lia;
    [apply (cost_perform (CallSearch (rocketReachQuery l) 3)); reflexivity|].
  intros [searchResults|m] w1; [|apply cost_weaken with 0 0 0; [now apply cost_none|lia..]].
  destruct (List.filter is_rocketreach_hit searchResults) as [|bestResult others];
    [apply cost_weaken with 0 0 0; [now apply cost_none|lia..]|].
  apply (cost_bind 0 1 1 0 0 0); try lia; [apply extractRocketReachContactInfo_cost|].
  intros [contactInfo|] w2; [|now apply cost_none].
  destruct (apply_contact_updates contactInfo l) as [l' [|u us]]; now apply cost_none.
Qed.

Lemma enrich_lead_cost l w : cost_within 1 1 1 w (enrich_lead P l w).2.
Proof.
  unfold enrich_lead. apply (cost_bind 1 0 0 0 1 1); try lia;
    [apply (cost_perform (CallSearch (rocketReachQuery l) 3)); reflexivity|].
  intros [searchResults|m] w1; [|apply cost_weaken with 0 0 0; [now apply cost_none|lia..]].
  destruct (name l) as [| |n]; try (apply cost_weaken with 0 0 0; [now apply cost_none|lia..]).
  destruct (List.filter _ searchResults) as [|bestResult others];
    [apply cost_weaken with 0 0 0; [now apply cost_none|lia..]|].
  apply (cost_bind 0 1 1 0 0 0); try lia; [apply extractRocketReachContactInfo_cost|].
  intros [contactInfo|] w2; now apply cost_none.
Qed.

Lemma map_M_selected_cost (select : lead -> bool) (f : lead -> M lead) (leads : list lead) w :
  (forall l w', cost_within 1 1 1 w' (f l w').2) ->
  let selected := length (List.filter select leads) in
  cost_within selected selected selected w
    (map_M (fun l => if select l then f l else ret l) leads w).2.
Proof.
  intros Hf. cbv zeta. revert w. induction leads as [|l rest IH]; intros w;
    [now apply cost_none|].
  cbn [map_M List.filter].
  set (k := length (List.filter select rest)) in *.
  destruct (select l).
  - apply (cost_bind 1 1 1 k k k); cbn [length]; try lia; [apply Hf|].
    intros y w1. apply (cost_bind k k k 0 0 0); try lia; [apply IH|].
    intros ys w2. now apply cost_none.
  - apply (cost_bind 0 0 0 k k k); try lia; [now apply cost_none|].
    intros y w1. apply (cost_bind k k k 0 0 0); try lia; [apply IH|].
    intros ys w2. now apply cost_none.
Qed.

(** The contact passes cost at most one search, one page request and one
    model call for each lead they select, and nothing for the others. *)
Theorem contact_passes_cost (leads : list lead) (w : world) :
  let upgraded := length (List.filter needsRocketReachUpdate leads) in
  let enriched := length (List.filter needsEnrichment leads) in
  cost_within upgraded upgraded upgraded w (updateExistingLeadsWithRocketReach P leads w).2
  /\ cost_within enriched enriched enriched w (enrichLeadsWithRocketReach P leads w).2.
Proof.
  split.
  - apply (map_M_selected_cost needsRocketReachUpdate (update_lead P)).
    intros l w'. apply update_lead_cost.
  - apply (map_M_selected_cost needsEnrichment (enrich_lead P)).
    intros l w'. apply enrich_lead_cost.
Qed.

End ContactCost.
